(** * libzipfile/centraldir.c: locating and decoding a ZIP central directory

    A shallow embedding of [read_le_int], [read_le_short],
    [read_central_dir_values], [read_central_directory_entry] and
    [read_central_dir], followed by the properties of the parser.

    Conventions of the embedding.
    - A pointer into the archive is the byte offset from [file->buf], which
      is itself the offset 0 (written [0 + ...] where the code adds to it);
      pointer arithmetic is offset arithmetic in [Z] (the address space is
      flat and does not wrap), a NULL pointer is [None].
    - Memory is a total function from offsets to bytes: the archive occupies
      the offsets [0 <= off < bufsize], whatever lies around it is some other
      byte.  Every byte the code loads is recorded in a ghost trace, so a
      load outside the archive is observable.
    - C integers are [Z]; a conversion to a narrower unsigned type is written
      out as a reduction modulo a power of two.
    - A function that returns a status code and prints a diagnostic on
      [stderr] is a computation in the monad [M]: state passing over the
      [Zipfile] (which the C code mutates in place), failing with the status
      code and the kind of the diagnostic. *)

From Stdlib Require Import ZArith List Lia Bool.
From Stdlib.Strings Require Import Byte.
Import ListNotations.
Local Open Scope Z_scope.

(** ** Constants (the anonymous enum of centraldir.c) *)

Definition CD_SIGNATURE : Z := 0x06054b50.
Definition EOCD_LEN : Z := 22.
Definition MAX_COMMENT_LEN : Z := 65535.
Definition MAX_EOCD_SEARCH : Z := MAX_COMMENT_LEN + EOCD_LEN.
Definition ENTRY_SIGNATURE : Z := 0x02014b50.
Definition ENTRY_LEN : Z := 46.
Definition LFH_SIZE : Z := 30.

Definition kCompressionStored : Z := 0x0.
Definition kCompressionDeflate : Z := 0x8.

(** ** Integer conversions *)

(** Conversion to [unsigned int] (32 bits). *)
Definition to_uint (z : Z) : Z := z mod 2 ^ 32.

(** Conversion to [unsigned short] (16 bits). *)
Definition to_ushort (z : Z) : Z := z mod 2 ^ 16.

(** The value of an [unsigned char]. *)
Definition byte_val (b : byte) : Z := Z.of_N (Byte.to_N b).

(** ** Data model *)

(** Modelled from the spec: [private.h], which declares [Zipentry] and
    [Zipfile], is not among the sources.  The fields are the ones
    centraldir.c reads and writes; [next] is the link of the entry list,
    represented by the list itself.  Every integer field is wide enough for
    the value [read_le_short] or [read_le_int] stores in it, so a store is
    the identity. *)
Record Zipentry : Type := mkZipentry {
  fileNameLength : Z;
  fileName : option Z;
  compressionMethod : Z;
  uncompressedSize : Z;
  compressedSize : Z;
  data : option Z
}.

(** [memset(entry, 0, sizeof(Zipentry))]. *)
Definition zero_entry : Zipentry := mkZipentry 0 None 0 0 0 None.

(** Modelled from the spec: the archive descriptor of [private.h]; [buf] and
    [bufsize] are the buffer, the other fields are the ones the end record
    fills and the entry collection. *)
Record Zipfile : Type := mkZipfile {
  buf : Z -> byte;
  bufsize : Z;
  disknum : Z;
  diskWithCentralDir : Z;
  entryCount : Z;
  totalEntryCount : Z;
  centralDirSize : Z;
  centralDirOffest : Z;
  commentLen : Z;
  comment : option Z;
  entries : list Zipentry
}.

(** Modelled from the spec: the caller of [read_central_dir] is not among the
    sources.  The archive descriptor as it is handed to the parser: zeroed,
    with the buffer and its size filled in, the entry collection empty. *)
Definition init_file (mem : Z -> byte) (size : Z) : Zipfile :=
  mkZipfile mem size 0 0 0 0 0 0 0 None [].

(** ** Failures

    Every failure site of the C code prints one diagnostic and returns a
    non-zero status.  The kind names the diagnostic. *)
Inductive ParseError : Type :=
  | NotAZip
  | Truncated
  | BadSignature
  | MissingFileName
  | InvalidLocalHeaderOffset
  | InvalidDataOffset
  | InvalidDeclaredSize
  | SpanningUnsupported.

Record failure : Type := mkFailure { status : Z; kind : ParseError }.

(** ** Ghost trace *)
Inductive event : Type :=
  | Fetch (off : Z)        (* one byte of memory was read at [off] *)
  | ScanAt (p : Z)        (* the EOCD scan entered its loop body at [p] *)
  | EntryIter (i p len : Z).
      (* the entry loop entered its body with index [i], the cursor at [p]
         and [len] bytes left *)

Record state : Type := mkState { file : Zipfile; trace : list event }.

(** ** The monad *)

Definition M (A : Type) : Type := state -> state * (failure + A).

Definition ret {A} (a : A) : M A := fun s => (s, inr a).

Definition bind {A B} (m : M A) (k : A -> M B) : M B :=
  fun s => match m s with
           | (s', inl e) => (s', inl e)
           | (s', inr a) => k a s'
           end.

Definition raise {A} (code : Z) (k : ParseError) : M A :=
  fun s => (s, inl (mkFailure code k)).

Definition get_file : M Zipfile := fun s => (s, inr (file s)).

Definition put_file (f : Zipfile) : M unit :=
  fun s => (mkState f (trace s), inr tt).

Definition emit (e : event) : M unit :=
  fun s => (mkState (file s) (e :: trace s), inr tt).

(** [goto bail]: whatever the callee returned, the caller returns -1. *)
Definition bail {A} (m : M A) : M A :=
  fun s => match m s with
           | (s', inl e) => (s', inl (mkFailure (-1) (kind e)))
           | r => r
           end.

Notation "x <- m ;; k" := (bind m (fun x => k))
  (at level 61, m at next level, right associativity).
Notation "m ;;; k" := (bind m (fun _ => k))
  (at level 61, right associativity).

(** ** Field decoder *)

(** [buf[i]] for a pointer at offset [p]. *)
Definition load (p : Z) : M Z :=
  f <- get_file ;;
  emit (Fetch p) ;;;
  ret (byte_val (buf f p)).

(** [read_le_int]: the four bytes are combined in [int] arithmetic and the
    result is returned as [unsigned int]. *)
Definition read_le_int (p : Z) : M Z :=
  b0 <- load p ;;
  b1 <- load (p + 1) ;;
  b2 <- load (p + 2) ;;
  b3 <- load (p + 3) ;;
  ret (to_uint (Z.lor (Z.lor (Z.lor b0 (Z.shiftl b1 8)) (Z.shiftl b2 16))
                      (Z.shiftl b3 24))).

(** [read_le_short]. *)
Definition read_le_short (p : Z) : M Z :=
  b0 <- load p ;;
  b1 <- load (p + 1) ;;
  ret (to_uint (Z.lor b0 (Z.shiftl b1 8))).

(** ** EOCD field decoder *)

(** [read_central_dir_values(file, buf, len)]; [len] is the value of the
    [int] parameter, which [read_central_dir] calls with a length between 4
    and 65557. *)
Definition read_central_dir_values (p : Z) (len : Z) : M unit :=
  if len <? EOCD_LEN then
    (* " Zip EOCD: expected >= %d bytes, found %d" *)
    raise (-1) Truncated
  else
    v_disknum <- read_le_short (p + 0x04) ;;
    v_diskWithCentralDir <- read_le_short (p + 0x06) ;;
    v_entryCount <- read_le_short (p + 0x08) ;;
    v_totalEntryCount <- read_le_short (p + 0x0a) ;;
    v_centralDirSize <- read_le_int (p + 0x0c) ;;
    v_centralDirOffest <- read_le_int (p + 0x10) ;;
    v_commentLen <- read_le_short (p + 0x14) ;;
    f <- get_file ;;
    put_file (mkZipfile (buf f) (bufsize f)
                v_disknum v_diskWithCentralDir v_entryCount v_totalEntryCount
                v_centralDirSize v_centralDirOffest v_commentLen
                (comment f) (entries f)) ;;;
    f <- get_file ;;
    if commentLen f >? 0 then
      if EOCD_LEN + commentLen f >? len then
        (* "EOCD(%d) + comment(%d) exceeds len (%d)" *)
        raise (-1) Truncated
      else
        put_file (mkZipfile (buf f) (bufsize f) (disknum f)
                    (diskWithCentralDir f) (entryCount f) (totalEntryCount f)
                    (centralDirSize f) (centralDirOffest f) (commentLen f)
                    (Some (p + EOCD_LEN)) (entries f))
    else
      ret tt.

(** ** Central-directory entry decoder *)

(** The entry after the fixed fields of the record have been stored. *)
Definition with_fixed (e : Zipentry) (method csize usize namelen : Z)
  : Zipentry :=
  mkZipentry namelen (fileName e) method usize csize (data e).

(** [entry->fileName = p]. *)
Definition with_fileName (e : Zipentry) (p : Z) : Zipentry :=
  mkZipentry (fileNameLength e) (Some p) (compressionMethod e)
    (uncompressedSize e) (compressedSize e) (data e).

(** [entry->data = file->buf + dataOffset]. *)
Definition with_data (e : Zipentry) (off : Z) : Zipentry :=
  mkZipentry (fileNameLength e) (fileName e) (compressionMethod e)
    (uncompressedSize e) (compressedSize e) (Some off).

(** [read_central_directory_entry(file, entry, buf, len)].

    The cursor [*buf], [*len] comes in as [buf0], [len0]; on success the
    filled entry and the advanced cursor are returned.  On failure the
    caller frees the entry and never looks at the cursor again, so neither
    is returned.  [remaining] is only read after the first guard, where
    [*len >= ENTRY_LEN] and the conversion to [size_t] is the identity. *)
Definition read_central_directory_entry (entry : Zipentry) (buf0 len0 : Z)
  : M (Zipentry * Z * Z) :=
  f <- get_file ;;
  let p := buf0 in
  let remaining := len0 in
  let bufLimit := 0 + bufsize f in
  if len0 <? ENTRY_LEN then
    (* "cde entry not large enough" *)
    raise (-1) Truncated
  else
    sig <- read_le_int (p + 0x00) ;;
    if negb (sig =? ENTRY_SIGNATURE) then
      (* "Whoops: didn't find expected signature" *)
      raise (-1) BadSignature
    else
      v_compressionMethod <- read_le_short (p + 0x0a) ;;
      v_compressedSize <- read_le_int (p + 0x14) ;;
      v_uncompressedSize <- read_le_int (p + 0x18) ;;
      v_fileNameLength <- read_le_short (p + 0x1c) ;;
      v_extra <- read_le_short (p + 0x1e) ;;
      v_comment <- read_le_short (p + 0x20) ;;
      v_local <- read_le_int (p + 0x2a) ;;
      let entry := with_fixed entry v_compressionMethod v_compressedSize
                     v_uncompressedSize v_fileNameLength in
      let extraFieldLength := to_ushort v_extra in
      let fileCommentLength := to_ushort v_comment in
      let localHeaderRelOffset := v_local in
      let p := p + ENTRY_LEN in
      let remaining := remaining - ENTRY_LEN in
      (* filename *)
      if negb (fileNameLength entry =? 0) then
        if fileNameLength entry >? remaining then
          (* "cde entry not large enough for file name." *)
          raise 1 Truncated
        else
          let entry := with_fileName entry p in
          let p := p + fileNameLength entry in
          let remaining := remaining - fileNameLength entry in
          (* extra field, if any *)
          if extraFieldLength >? remaining then
            (* "cde entry not large enough for extra field." *)
            raise 1 Truncated
          else
            let p := p + extraFieldLength in
            let remaining := remaining - extraFieldLength in
            (* comment, if any *)
            if fileCommentLength >? remaining then
              (* "cde entry not large enough for file comment." *)
              raise 1 Truncated
            else
              let p := p + fileCommentLength in
              let remaining := remaining - fileCommentLength in
              let buf1 := p in
              let len1 := remaining in
              (* the local file header *)
              let p := 0 + localHeaderRelOffset in
              if p >=? bufLimit then
                (* "Invalid local header offset for entry." *)
                raise 1 InvalidLocalHeaderOffset
              else
                v_extra <- read_le_short (p + 0x1c) ;;
                let extraFieldLength := to_ushort v_extra in
                let dataOffset :=
                  to_uint (localHeaderRelOffset + LFH_SIZE
                           + fileNameLength entry + extraFieldLength) in
                let entry := with_data entry (0 + dataOffset) in
                if match data entry with
                   | Some d => (d <? 0) || (d >=? bufLimit)
                   | None => true
                   end
                then
                  (* "Invalid data offset for entry." *)
                  raise 1 InvalidDataOffset
                else if (compressionMethod entry =? kCompressionStored)
                        && (uncompressedSize entry
                            >? to_uint (bufLimit - (0 + dataOffset)))
                then
                  (* "Invalid uncompressed size for stored entry." *)
                  raise 1 InvalidDeclaredSize
                else if (compressionMethod entry =? kCompressionDeflate)
                        && (compressedSize entry
                            >? to_uint (bufLimit - (0 + dataOffset)))
                then
                  (* "Invalid uncompressed size for deflated entry." *)
                  raise 1 InvalidDeclaredSize
                else
                  ret (entry, buf1, len1)
      else
        (* "cde entry does not contain a file name." *)
        raise 1 MissingFileName.

(** ** Archive reader *)

(** The backward scan for the end-of-central-directory magic:
    [while (p >= start)], whose body tests [p[0] == 0x50] and then
    [read_le_int(p) == CD_SIGNATURE], leaves the loop on a match and
    decrements [p] otherwise.  The result is [p] when the loop is left.
    The recursion is on [fuel], an upper bound of the number of positions
    left; [eocd_scan_fuel] shows that the bound the caller passes is never
    used up before the loop condition fails. *)
Fixpoint eocd_scan (fuel : nat) (p start : Z) : M Z :=
  match fuel with
  | O => ret p
  | S fuel' =>
      if p >=? start then
        emit (ScanAt p) ;;;
        b <- load p ;;
        if b =? 0x50 then
          v <- read_le_int p ;;
          if v =? CD_SIGNATURE then ret p
          else eocd_scan fuel' (p - 1) start
        else eocd_scan fuel' (p - 1) start
      else ret p
  end.

(** The first part of [read_central_dir], up to "EOCD not found": the offset
    of the end-of-central-directory record. *)
Definition locate_eocd : M Z :=
  f <- get_file ;;
  let bufsize := bufsize f in
  (* too small to be a ZIP archive? *)
  if bufsize <? EOCD_LEN then
    (* "Length is %zd -- too small" *)
    raise (-1) NotAZip
  else
    (* find the end-of-central-dir magic *)
    let start :=
      if bufsize >? MAX_EOCD_SEARCH then 0 + bufsize - MAX_EOCD_SEARCH
      else 0 in
    p <- eocd_scan (Z.to_nat (0 + bufsize - 4 - start + 1))
           (0 + bufsize - 4) start ;;
    if p <? start then
      (* "EOCD not found, not Zip" *)
      raise (-1) NotAZip
    else ret p.

(** The entry loop [for (i = 0; i < file->totalEntryCount; i++)], entered
    with [n] iterations to go, index [i] and the cursor [p], [len]. *)
Fixpoint read_entries (n : nat) (i p len : Z) : M unit :=
  match n with
  | O => ret tt
  | S n' =>
      emit (EntryIter i p len) ;;;
      r <- bail (read_central_directory_entry zero_entry p len) ;;
      let '(entry, p', len') := r in
      (* add it to our list *)
      f <- get_file ;;
      put_file (mkZipfile (buf f) (bufsize f) (disknum f)
                  (diskWithCentralDir f) (entryCount f) (totalEntryCount f)
                  (centralDirSize f) (centralDirOffest f) (commentLen f)
                  (comment f) (entry :: entries f)) ;;;
      read_entries n' (i + 1) p' len'
  end.

(** [read_central_dir(file)]; the value returned on success is 0. *)
Definition read_central_dir : M Z :=
  eocd <- locate_eocd ;;
  f <- get_file ;;
  (* extract eocd values *)
  bail (read_central_dir_values eocd ((0 + bufsize f) - eocd)) ;;;
  f <- get_file ;;
  if negb (disknum f =? 0)
     || negb (diskWithCentralDir f =? 0)
     || negb (entryCount f =? totalEntryCount f)
  then
    (* "Archive spanning not supported" *)
    raise (-1) SpanningUnsupported
  else
    (* Loop through and read the central dir entries. *)
    let p := 0 + centralDirOffest f in
    let len := (0 + bufsize f) - p in
    read_entries (Z.to_nat (totalEntryCount f)) 0 p len ;;;
    ret 0.

(** The parse of a buffer: [read_central_dir] run on a fresh descriptor. *)
Definition parse (mem : Z -> byte) (size : Z) : state * (failure + Z) :=
  read_central_dir (mkState (init_file mem size) []).

(** * Specification-level definitions *)

(** ** Values of the field decoders *)

(** The 16-bit and 32-bit little-endian values memory holds at [p]. *)
Definition le16 (mem : Z -> byte) (p : Z) : Z :=
  to_uint (Z.lor (byte_val (mem p)) (Z.shiftl (byte_val (mem (p + 1))) 8)).

Definition le32 (mem : Z -> byte) (p : Z) : Z :=
  to_uint (Z.lor (Z.lor (Z.lor (byte_val (mem p))
                           (Z.shiftl (byte_val (mem (p + 1))) 8))
                    (Z.shiftl (byte_val (mem (p + 2))) 16))
             (Z.shiftl (byte_val (mem (p + 3))) 24)).

(** The state after the events [l] (latest first) have been recorded. *)
Definition logged (l : list event) (s : state) : state :=
  mkState (file s) (l ++ trace s).

(** What a run leaves of the result once the status code is dropped. *)
Definition outcome {A} (r : state * (failure + A)) : ParseError + A :=
  match snd r with
  | inl e => inl (kind e)
  | inr a => inr a
  end.


(** ** The central-directory record at a cursor

    The fields of the record that starts at offset [c], as the table of the
    format lays them out, and what they determine. *)
Section Record_view.

Variable mem : Z -> byte.

Definition cd_method (c : Z) : Z := le16 mem (c + 0x0a).
Definition cd_csize (c : Z) : Z := le32 mem (c + 0x14).
Definition cd_usize (c : Z) : Z := le32 mem (c + 0x18).
Definition cd_namelen (c : Z) : Z := le16 mem (c + 0x1c).
Definition cd_extralen (c : Z) : Z := le16 mem (c + 0x1e).
Definition cd_commentlen (c : Z) : Z := le16 mem (c + 0x20).
Definition cd_local (c : Z) : Z := le32 mem (c + 0x2a).

(** Where the next record starts. *)
Definition cd_next (c : Z) : Z :=
  c + ENTRY_LEN + cd_namelen c + cd_extralen c + cd_commentlen c.

(** The extra-field length the local file header records. *)
Definition local_extralen (c : Z) : Z := le16 mem (cd_local c + 0x1c).

(** The start of the entry data as a mathematical sum, and as the code
    stores it. *)
Definition data_sum (c : Z) : Z :=
  cd_local c + LFH_SIZE + cd_namelen c + local_extralen c.

Definition data_offset (c : Z) : Z := to_uint (data_sum c).

(** The descriptor of the record at [c]. *)
Definition decoded (c : Z) : Zipentry :=
  mkZipentry (cd_namelen c) (Some (c + ENTRY_LEN)) (cd_method c)
    (cd_usize c) (cd_csize c) (Some (data_offset c)).

(** The entry decoder as a decision list over the record at [c], for a
    buffer of [size] bytes and [len] bytes left at the cursor. *)
Definition decode_entry (size c len : Z)
  : ParseError + (Zipentry * Z * Z) :=
  if len <? ENTRY_LEN then inl Truncated
  else if negb (le32 mem c =? ENTRY_SIGNATURE) then inl BadSignature
  else if cd_namelen c =? 0 then inl MissingFileName
  else if len <? cd_next c - c then inl Truncated
  else if size <=? cd_local c then inl InvalidLocalHeaderOffset
  else if size <=? data_offset c then inl InvalidDataOffset
  else if (cd_method c =? kCompressionStored)
          && (to_uint (size - data_offset c) <? cd_usize c)
       then inl InvalidDeclaredSize
  else if (cd_method c =? kCompressionDeflate)
          && (to_uint (size - data_offset c) <? cd_csize c)
       then inl InvalidDeclaredSize
  else inr (decoded c, cd_next c, len - (cd_next c - c)).

End Record_view.

(** ** The end-of-central-directory search *)

(** The record signature is found at offset [p]. *)
Definition has_signature (mem : Z -> byte) (p : Z) : Prop :=
  le32 mem p = CD_SIGNATURE.

(** The first offset of the tail window: the last [65535 + 22] bytes of the
    buffer, or all of it when it is shorter. *)
Definition window_start (size : Z) : Z := Z.max 0 (size - 65557).

(** The scan with the first-byte test taken out: every position is compared
    as a whole. *)
Fixpoint eocd_scan_plain (fuel : nat) (p start : Z) : M Z :=
  match fuel with
  | O => ret p
  | S fuel' =>
      if p >=? start then
        emit (ScanAt p) ;;;
        v <- read_le_int p ;;
        if v =? CD_SIGNATURE then ret p
        else eocd_scan_plain fuel' (p - 1) start
      else ret p
  end.

(** [locate_eocd] over [eocd_scan_plain]. *)
Definition locate_eocd_plain : M Z :=
  f <- get_file ;;
  let bufsize := bufsize f in
  if bufsize <? EOCD_LEN then raise (-1) NotAZip
  else
    let start :=
      if bufsize >? MAX_EOCD_SEARCH then 0 + bufsize - MAX_EOCD_SEARCH
      else 0 in
    p <- eocd_scan_plain (Z.to_nat (0 + bufsize - 4 - start + 1))
           (0 + bufsize - 4) start ;;
    if p <? start then raise (-1) NotAZip else ret p.

(** ** Observations on the ghost trace *)

(** The positions the scan visited, the entry-loop iterations entered, and
    the offsets loaded, as a trace records them. *)
Fixpoint scan_visits (t : list event) : nat :=
  match t with
  | [] => O
  | ScanAt _ :: t' => S (scan_visits t')
  | _ :: t' => scan_visits t'
  end.

Fixpoint entry_iters (t : list event) : nat :=
  match t with
  | [] => O
  | EntryIter _ _ _ :: t' => S (entry_iters t')
  | _ :: t' => entry_iters t'
  end.

(** The index, cursor and remaining length each iteration of the entry loop
    was entered with, latest first. *)
Fixpoint iter_heads (t : list event) : list (Z * Z * Z) :=
  match t with
  | [] => []
  | EntryIter i p len :: t' => (i, p, len) :: iter_heads t'
  | _ :: t' => iter_heads t'
  end.

Fixpoint loads (t : list event) : list Z :=
  match t with
  | [] => []
  | Fetch off :: t' => off :: loads t'
  | _ :: t' => loads t'
  end.

(** ** The archive behind a located record

    What [read_central_dir] does once the end-of-central-directory record
    has been located at [e], as a function of the descriptor. *)

(** The descriptor after the fields of the record at [e] have been stored. *)
Definition eocd_fields (f : Zipfile) (e : Z) : Zipfile :=
  mkZipfile (buf f) (bufsize f)
    (le16 (buf f) (e + 0x04)) (le16 (buf f) (e + 0x06))
    (le16 (buf f) (e + 0x08)) (le16 (buf f) (e + 0x0a))
    (le32 (buf f) (e + 0x0c)) (le32 (buf f) (e + 0x10))
    (le16 (buf f) (e + 0x14)) (comment f) (entries f).

Definition with_comment (f : Zipfile) (p : Z) : Zipfile :=
  mkZipfile (buf f) (bufsize f) (disknum f) (diskWithCentralDir f)
    (entryCount f) (totalEntryCount f) (centralDirSize f)
    (centralDirOffest f) (commentLen f) (Some p) (entries f).

Definition with_entries (f : Zipfile) (es : list Zipentry) : Zipfile :=
  mkZipfile (buf f) (bufsize f) (disknum f) (diskWithCentralDir f)
    (entryCount f) (totalEntryCount f) (centralDirSize f)
    (centralDirOffest f) (commentLen f) (comment f) es.

(** The archive-level test: the archive spans several disks. *)
Definition spanning (f : Zipfile) : bool :=
  negb (disknum f =? 0)
  || negb (diskWithCentralDir f =? 0)
  || negb (entryCount f =? totalEntryCount f).

(** [n] consecutive records from the cursor [c], in the order the central
    directory declares them; the first failure is the result. *)
Fixpoint decode_entries (mem : Z -> byte) (size : Z) (n : nat) (c len : Z)
  : ParseError + list Zipentry :=
  match n with
  | O => inr []
  | S n' =>
      match decode_entry mem size c len with
      | inl k => inl k
      | inr (x, c', len') =>
          match decode_entries mem size n' c' len' with
          | inl k => inl k
          | inr xs => inr (x :: xs)
          end
      end
  end.

(** The records decoded before the first failure, at most [n] of them. *)
Fixpoint decode_prefix (mem : Z -> byte) (size : Z) (n : nat) (c len : Z)
  : list Zipentry :=
  match n with
  | O => []
  | S n' =>
      match decode_entry mem size c len with
      | inl _ => []
      | inr (x, c', len') => x :: decode_prefix mem size n' c' len'
      end
  end.

(** The index, cursor and remaining length of the iterations the entry loop
    enters when it is started with [n] iterations to go, first iteration
    first: the loop goes on from where a decoded record ends and stops
    behind the first record that fails. *)
Fixpoint loop_heads (mem : Z -> byte) (size : Z) (n : nat) (i c len : Z)
  : list (Z * Z * Z) :=
  match n with
  | O => []
  | S n' =>
      (i, c, len)
      :: match decode_entry mem size c len with
         | inl _ => []
         | inr (_, c', len') => loop_heads mem size n' (i + 1) c' len'
         end
  end.

(** The descriptor after the record at [e] has been decoded, comment
    included. *)
Definition eocd_done (f : Zipfile) (e : Z) : Zipfile :=
  let f1 := eocd_fields f e in
  if commentLen f1 >? 0 then with_comment f1 (e + EOCD_LEN) else f1.

(** The declared comment does not fit in the [len] bytes from [e] on. *)
Definition comment_overflows (f : Zipfile) (e len : Z) : bool :=
  (commentLen (eocd_fields f e) >? 0)
  && (EOCD_LEN + commentLen (eocd_fields f e) >? len).

(** The descriptor [read_central_dir] leaves and what it reports, given the
    offset [e] of the located record. *)
Definition decode_archive (f : Zipfile) (e : Z)
  : Zipfile * (ParseError + Z) :=
  let len := bufsize f - e in
  if len <? EOCD_LEN then (f, inl Truncated)
  else if comment_overflows f e len then (eocd_fields f e, inl Truncated)
  else
    let f2 := eocd_done f e in
    if spanning f2 then (f2, inl SpanningUnsupported)
    else
      let c := centralDirOffest f2 in
      let n := Z.to_nat (totalEntryCount f2) in
      (with_entries f2
         (rev (decode_prefix (buf f) (bufsize f) n c (bufsize f - c))
          ++ entries f),
       match decode_entries (buf f) (bufsize f) n c (bufsize f - c) with
       | inl k => inl k
       | inr _ => inr 0
       end).

(** The entry loop is reached. *)
Definition loop_entered (f : Zipfile) (e : Z) : bool :=
  negb (bufsize f - e <? EOCD_LEN)
  && negb (comment_overflows f e (bufsize f - e))
  && negb (spanning (eocd_done f e)).

(** The number of iterations of the entry loop that are entered: one for
    each record decoded and one for the record that fails, if any. *)
Definition archive_iters (f : Zipfile) (e : Z) : nat :=
  if loop_entered f e then
    let f2 := eocd_done f e in
    let c := centralDirOffest f2 in
    let n := Z.to_nat (totalEntryCount f2) in
    (length (decode_prefix (buf f) (bufsize f) n c (bufsize f - c))
     + match decode_entries (buf f) (bufsize f) n c (bufsize f - c) with
       | inl _ => 1
       | inr _ => 0
       end)%nat
  else O.

(** ** Concrete archives

    Byte-level builders for the records of the format, used to write down
    the buffers on which the parser is run below. *)

Definition byte_of (z : Z) : byte :=
  match Byte.of_N (Z.to_N (z mod 256)) with
  | Some b => b
  | None => x00
  end.

Definition enc16 (v : Z) : list byte := [byte_of v; byte_of (v / 256)].

Definition enc32 (v : Z) : list byte :=
  [byte_of v; byte_of (v / 256); byte_of (v / 65536);
   byte_of (v / 16777216)].

Definition zeros (n : nat) : list byte := repeat x00 n.

Definition len_of (l : list byte) : Z := Z.of_nat (length l).

(** The memory that holds [l] from offset 0 on and zero bytes elsewhere. *)
Definition mem_of (l : list byte) : Z -> byte :=
  fun i => if i <? 0 then x00 else nth (Z.to_nat i) l x00.

(** An end-of-central-directory record followed by its comment. *)
Definition mk_eocd (disk diskcd count total cdsize cdoff : Z)
    (cmt : list byte) : list byte :=
  enc32 CD_SIGNATURE ++ enc16 disk ++ enc16 diskcd ++ enc16 count
  ++ enc16 total ++ enc32 cdsize ++ enc32 cdoff ++ enc16 (len_of cmt) ++ cmt.

(** A central-directory record; the fields the parser does not read (made-by
    and needed versions, flags, time, date, CRC, disk start, attributes) are
    zero. *)
Definition mk_cde (method csize usize : Z) (name extra cmt : list byte)
    (local : Z) : list byte :=
  enc32 ENTRY_SIGNATURE ++ zeros 6 ++ enc16 method ++ zeros 8
  ++ enc32 csize ++ enc32 usize ++ enc16 (len_of name)
  ++ enc16 (len_of extra) ++ enc16 (len_of cmt) ++ zeros 8 ++ enc32 local
  ++ name ++ extra ++ cmt.

(** A local file header followed by the entry data. *)
Definition mk_lfh (method csize usize : Z) (name extra payload : list byte)
  : list byte :=
  enc32 0x04034b50 ++ zeros 4 ++ enc16 method ++ zeros 8
  ++ enc32 csize ++ enc32 usize ++ enc16 (len_of name)
  ++ enc16 (len_of extra) ++ name ++ extra ++ payload.

Definition name_a : list byte := map byte_of [97; 46; 116; 120; 116].
Definition name_b : list byte := map byte_of [98; 46; 116; 120; 116].
Definition hello : list byte := map byte_of [104; 101; 108; 108; 111].
Definition hello_deflated : list byte :=
  map byte_of [0xcb; 0x48; 0xcd; 0xc9; 0xc9; 0x07; 0x00].

(** The archive of two members: "a.txt", stored, and "b.txt", deflated. *)
Definition two_entries : list byte :=
  mk_lfh 0 5 5 name_a [] hello
  ++ mk_lfh 8 7 5 name_b [] hello_deflated
  ++ mk_cde 0 5 5 name_a [] [] 0
  ++ mk_cde 8 7 5 name_b [] [] 40
  ++ mk_eocd 0 0 2 2 102 82 [].

(** Every offset a trace loads lies in [lo, hi). *)
Definition loads_within (lo hi : Z) (t : list event) : Prop :=
  Forall (fun off => lo <= off < hi) (loads t).

(** The positions the scan visited, latest first. *)
Fixpoint scan_positions (t : list event) : list Z :=
  match t with
  | [] => []
  | ScanAt p :: t' => p :: scan_positions t'
  | _ :: t' => scan_positions t'
  end.

(** The offsets [lo], [lo + 1], ..., [hi]. *)
Definition Zrange (lo hi : Z) : list Z :=
  map (fun k => lo + Z.of_nat k) (seq 0 (Z.to_nat (hi - lo + 1))).

(** ** Well-formed archives

    The layout of an archive as the format describes it: the end record and
    its comment close the buffer, the central directory of the declared size
    lies before the end record and starts with a run of [N] records, every
    record names its member, and the local header, name, extra field and
    data of every member lie before the central directory. *)

(** The cursors of [n] consecutive records from [c] on, in the order the
    central directory declares them. *)
Fixpoint cd_cursors (mem : Z -> byte) (n : nat) (c : Z) : list Z :=
  match n with
  | O => []
  | S n' => c :: cd_cursors mem n' (cd_next mem c)
  end.




(** ** More concrete archives *)

Definition name_x : list byte := [byte_of 120].

(** One record whose local header offset is the last byte of the buffer. *)
Definition header_at_last_byte : list byte :=
  mk_cde 0 0 0 name_x [] [] 68 ++ mk_eocd 0 0 1 1 47 0 [].

(** One member compressed with method 1, with declared sizes far beyond the
    buffer. *)
Definition other_method : list byte :=
  mk_lfh 1 0 0 name_x [] []
  ++ mk_cde 1 4000000000 4000000000 name_x [] [] 0
  ++ mk_eocd 0 0 1 1 47 31 [].

(** [two_entries] with an end record that declares three records. *)
Definition three_declared : list byte :=
  mk_lfh 0 5 5 name_a [] hello
  ++ mk_lfh 8 7 5 name_b [] hello_deflated
  ++ mk_cde 0 5 5 name_a [] [] 0
  ++ mk_cde 8 7 5 name_b [] [] 40
  ++ mk_eocd 0 0 3 3 102 82 [].


(** [two_entries] followed by one more byte. *)
Definition trailing_byte : list byte := two_entries ++ [x00].

(** An end record that declares disk number 1. *)
Definition second_disk : list byte := mk_eocd 1 0 0 0 0 0 [].

(** A buffer of 4 GiB and 100 bytes, as a target with a 64-bit [ssize_t] can
    hand over: one record at offset 0 whose local header offset is
    [2^32 - 10], the bytes 0xffff where that header keeps its extra-field
    length, the end record in the last 22 bytes, zero bytes elsewhere. *)
Definition wrap_size : Z := 2 ^ 32 + 100.

Definition wrap_mem : Z -> byte :=
  fun i =>
    if i <? 47 then mem_of (mk_cde 0 5 5 name_x [] [] (2 ^ 32 - 10)) i
    else if (2 ^ 32 + 18 <=? i) && (i <? 2 ^ 32 + 20) then xff
    else if 2 ^ 32 + 78 <=? i then
      mem_of (mk_eocd 0 0 1 1 47 0 []) (i - (2 ^ 32 + 78))
    else x00.

(** An end record alone that declares no entry and a central directory far
    outside the buffer. *)
Definition empty_far_directory : list byte :=
  mk_eocd 0 0 0 0 0xffffffff 0xffffffff [].

(** An end record alone that declares one entry and a central directory
    that starts 30 bytes before the end of the buffer. *)
Definition directory_at_end : list byte :=
  zeros 30 ++ mk_eocd 0 0 1 1 46 22 [].

(** [two_entries] with the first record pointing to a local header far
    behind the end of the buffer; the end record still declares two
    records. *)
Definition first_record_rejected : list byte :=
  mk_lfh 0 5 5 name_a [] hello
  ++ mk_lfh 8 7 5 name_b [] hello_deflated
  ++ mk_cde 0 5 5 name_a [] [] 4096
  ++ mk_cde 8 7 5 name_b [] [] 40
  ++ mk_eocd 0 0 2 2 102 82 [].

(** One stored member "x" whose local header carries four bytes of padding
    in its extra field, while the record of the central directory declares
    an extra field of two bytes. *)
Definition padded_local_header : list byte :=
  mk_lfh 0 5 5 name_x (zeros 4) hello
  ++ mk_cde 0 5 5 name_x (zeros 2) [] 0
  ++ mk_eocd 0 0 1 1 49 40 [].

(** [two_entries] with the archive comment "hi". *)
Definition commented_archive : list byte :=
  mk_lfh 0 5 5 name_a [] hello
  ++ mk_lfh 8 7 5 name_b [] hello_deflated
  ++ mk_cde 0 5 5 name_a [] [] 0
  ++ mk_cde 8 7 5 name_b [] [] 40
  ++ mk_eocd 0 0 2 2 102 82 (map byte_of [104; 105]).
(** * Reasoning about runs *)

Lemma byte_val_range (b : byte) : 0 <= byte_val b < 256.
Proof.
  unfold byte_val. pose proof (Byte.to_N_bounded b). lia.
Qed.

Lemma land_shiftl_low (a b n : Z) :
  0 <= n -> 0 <= a < 2 ^ n -> Z.land a (Z.shiftl b n) = 0.
Proof.
  intros Hn Ha. apply Z.bits_inj'. intros i Hi.
  rewrite Z.land_spec, Z.bits_0.
  destruct (Z.lt_ge_cases i n) as [Hlt | Hge].
  - rewrite (Z.shiftl_spec_low b n i) by lia. apply andb_false_r.
  - replace a with (a mod 2 ^ n) by (apply Z.mod_small; lia).
    rewrite Z.mod_pow2_bits_high by lia. reflexivity.
Qed.

Lemma lor_shiftl_add (a b n : Z) :
  0 <= n -> 0 <= a < 2 ^ n -> Z.lor a (Z.shiftl b n) = a + b * 2 ^ n.
Proof.
  intros Hn Ha.
  rewrite <- Z.lxor_lor by (apply land_shiftl_low; assumption).
  rewrite <- Z.add_nocarry_lxor by (apply land_shiftl_low; assumption).
  rewrite Z.shiftl_mul_pow2 by assumption. reflexivity.
Qed.

Lemma le16_sum (mem : Z -> byte) (p : Z) :
  le16 mem p = byte_val (mem p) + 256 * byte_val (mem (p + 1)).
Proof.
  unfold le16, to_uint.
  pose proof (byte_val_range (mem p)).
  pose proof (byte_val_range (mem (p + 1))).
  rewrite lor_shiftl_add by lia.
  change (2 ^ 8) with 256. rewrite Z.mod_small; lia.
Qed.

Lemma le32_sum (mem : Z -> byte) (p : Z) :
  le32 mem p
  = byte_val (mem p) + 256 * byte_val (mem (p + 1))
    + 65536 * byte_val (mem (p + 2)) + 16777216 * byte_val (mem (p + 3)).
Proof.
  unfold le32, to_uint.
  pose proof (byte_val_range (mem p)).
  pose proof (byte_val_range (mem (p + 1))).
  pose proof (byte_val_range (mem (p + 2))).
  pose proof (byte_val_range (mem (p + 3))).
  rewrite (lor_shiftl_add (byte_val (mem p))) by lia.
  rewrite (lor_shiftl_add (_ + _) _ 16) by lia.
  rewrite (lor_shiftl_add (_ + _) _ 24) by lia.
  change (2 ^ 8) with 256. change (2 ^ 16) with 65536.
  change (2 ^ 24) with 16777216.
  rewrite Z.mod_small; lia.
Qed.

Lemma le16_range (mem : Z -> byte) (p : Z) : 0 <= le16 mem p < 65536.
Proof.
  rewrite le16_sum.
  pose proof (byte_val_range (mem p)).
  pose proof (byte_val_range (mem (p + 1))). lia.
Qed.

Lemma le32_range (mem : Z -> byte) (p : Z) : 0 <= le32 mem p < 2 ^ 32.
Proof. unfold le32, to_uint. apply Z.mod_pos_bound. lia. Qed.

Lemma to_ushort_le16 (mem : Z -> byte) (p : Z) :
  to_ushort (le16 mem p) = le16 mem p.
Proof.
  unfold to_ushort. apply Z.mod_small.
  pose proof (le16_range mem p). change (2 ^ 16) with 65536. lia.
Qed.

(** The low byte of a 32-bit little-endian value is the byte at [p]. *)
Lemma le32_low_byte (mem : Z -> byte) (p : Z) :
  le32 mem p mod 256 = byte_val (mem p).
Proof.
  rewrite le32_sum.
  pose proof (byte_val_range (mem p)).
  replace (_ + _ + _ + _)
    with (byte_val (mem p)
          + (byte_val (mem (p + 1)) + 256 * byte_val (mem (p + 2))
             + 65536 * byte_val (mem (p + 3))) * 256) by lia.
  rewrite Z.mod_add by lia. apply Z.mod_small. lia.
Qed.

(** Two memories that agree on the bytes read give the same values. *)
Lemma le16_ext (m1 m2 : Z -> byte) (p : Z) :
  m1 p = m2 p -> m1 (p + 1) = m2 (p + 1) -> le16 m1 p = le16 m2 p.
Proof. intros H0 H1. unfold le16. rewrite H0, H1. reflexivity. Qed.

Lemma le32_ext (m1 m2 : Z -> byte) (p : Z) :
  (forall i, 0 <= i < 4 -> m1 (p + i) = m2 (p + i)) ->
  le32 m1 p = le32 m2 p.
Proof.
  intros H. unfold le32.
  rewrite <- (Z.add_0_r p) at 1 5.
  rewrite (H 0), (H 1), (H 2), (H 3) by lia.
  rewrite Z.add_0_r. reflexivity.
Qed.

(** ** Runs of the field decoders *)

Lemma run_read_le_short (p : Z) (s : state) :
  read_le_short p s
  = (logged [Fetch (p + 1); Fetch p] s, inr (le16 (buf (file s)) p)).
Proof. reflexivity. Qed.

Lemma run_read_le_int (p : Z) (s : state) :
  read_le_int p s
  = (logged [Fetch (p + 3); Fetch (p + 2); Fetch (p + 1); Fetch p] s,
     inr (le32 (buf (file s)) p)).
Proof. reflexivity. Qed.

Lemma run_bind {A B} (m : M A) (k : A -> M B) (s : state) :
  bind m k s
  = match m s with
    | (s', inl e) => (s', inl e)
    | (s', inr a) => k a s'
    end.
Proof. reflexivity. Qed.

Lemma file_logged (l : list event) (s : state) : file (logged l s) = file s.
Proof. reflexivity. Qed.

(** One step of a run: expose the next bind, replace a field read by its
    value, forget the events. *)
Ltac run_step :=
  rewrite ?run_bind, ?run_read_le_int, ?run_read_le_short;
  cbn [get_file fst snd file_logged];
  rewrite ?file_logged, ?to_ushort_le16.

(** ** The entry decoder *)

(** The entry decoder never touches the archive descriptor, and its result
    is the one of the decision list [decode_entry]; the entry passed in is
    overwritten. *)
Lemma read_central_directory_entry_run (e : Zipentry) (c len : Z) (s : state) :
  file (fst (read_central_directory_entry e c len s)) = file s
  /\ outcome (read_central_directory_entry e c len s)
     = decode_entry (buf (file s)) (bufsize (file s)) c len.
Proof.
  unfold read_central_directory_entry, decode_entry, outcome, decoded,
    data_offset, data_sum, cd_next, local_extralen, cd_method, cd_csize,
    cd_usize, cd_namelen, cd_extralen, cd_commentlen, cd_local.
  set (mem := buf (file s)). set (size := bufsize (file s)).
  run_step.
  destruct (len <? ENTRY_LEN) eqn:Elen; [split; reflexivity|].
  run_step. fold mem. rewrite Z.add_0_r.
  destruct (negb (le32 mem c =? ENTRY_SIGNATURE)) eqn:Esig;
    [split; reflexivity|].
  repeat run_step. fold mem size.
  cbn [fileNameLength fileName compressionMethod uncompressedSize
       compressedSize data with_fixed with_fileName with_data].
  rewrite !Z.add_0_l.
  pose proof (le16_range mem (c + 28)) as Hn.
  pose proof (le16_range mem (c + 30)) as Hx.
  pose proof (le16_range mem (c + 32)) as Hc.
  unfold ENTRY_LEN in *.
  destruct (le16 mem (c + 28) =? 0) eqn:Ename; cbn [negb];
    [split; reflexivity|].
  destruct (le16 mem (c + 28) >? len - 46) eqn:E1.
  { replace (len <? _) with true by (symmetry; apply Z.ltb_lt; lia).
    split; reflexivity. }
  destruct (le16 mem (c + 30) >? len - 46 - le16 mem (c + 28)) eqn:E2.
  { replace (len <? _) with true by (symmetry; apply Z.ltb_lt; lia).
    split; reflexivity. }
  destruct (le16 mem (c + 32) >? _) eqn:E3.
  { replace (len <? _) with true by (symmetry; apply Z.ltb_lt; lia).
    split; reflexivity. }
  replace (len <? _) with false by (symmetry; apply Z.ltb_ge; lia).
  rewrite Z.geb_leb.
  destruct (size <=? le32 mem (c + 42)) eqn:Eloc; [split; reflexivity|].
  repeat run_step. fold mem size.
  cbn [fileNameLength fileName compressionMethod uncompressedSize
       compressedSize data with_fixed with_fileName with_data].
  rewrite !Z.add_0_l.
  set (off := to_uint _).
  assert (Hoff : 0 <= off).
  { unfold off, to_uint. apply Z.mod_pos_bound. lia. }
  replace (off <? 0) with false by (symmetry; apply Z.ltb_ge; lia).
  rewrite Z.geb_leb. cbn [orb].
  destruct (size <=? off) eqn:Eoff; [split; reflexivity|].
  rewrite !Z.gtb_ltb.
  destruct ((le16 mem (c + 10) =? kCompressionStored) && _) eqn:Est;
    [split; reflexivity|].
  destruct ((le16 mem (c + 10) =? kCompressionDeflate) && _) eqn:Edf;
    [split; reflexivity|].
  split; [reflexivity|].
  cbn [ret snd]. f_equal. f_equal. lia.
Qed.

(** ** The search for the end-of-central-directory record *)

Lemma run_load (p : Z) (s : state) :
  load p s = (logged [Fetch p] s, inr (byte_val (buf (file s) p))).
Proof. reflexivity. Qed.

Lemma run_emit (e : event) (s : state) :
  emit e s = (logged [e] s, inr tt).
Proof. reflexivity. Qed.

(** A match of the whole signature implies the match of its first byte. *)
Lemma signature_first_byte (mem : Z -> byte) (p : Z) :
  le32 mem p = CD_SIGNATURE -> byte_val (mem p) = 0x50.
Proof.
  intros H. rewrite <- le32_low_byte, H. reflexivity.
Qed.

(** Fuel beyond the number of positions left is never used. *)
Lemma eocd_scan_fuel (fuel1 : nat) :
  forall (fuel2 : nat) (p start : Z) (s : state),
    p - start + 1 <= Z.of_nat fuel1 ->
    p - start + 1 <= Z.of_nat fuel2 ->
    eocd_scan fuel1 p start s = eocd_scan fuel2 p start s.
Proof.
  induction fuel1 as [|fuel1 IH]; intros fuel2 p start s H1 H2.
  - destruct fuel2 as [|fuel2]; [reflexivity|].
    cbn [eocd_scan].
    replace (p >=? start) with false
      by (symmetry; rewrite Z.geb_leb; apply Z.leb_gt; lia).
    reflexivity.
  - destruct fuel2 as [|fuel2]; cbn [eocd_scan].
    + replace (p >=? start) with false
        by (symmetry; rewrite Z.geb_leb; apply Z.leb_gt; lia).
      reflexivity.
    + destruct (p >=? start) eqn:E; [|reflexivity].
      rewrite Z.geb_leb in E. apply Z.leb_le in E.
      rewrite !run_bind, run_emit, !run_bind, run_load.
      destruct (_ =? 0x50).
      * rewrite !run_bind, !run_read_le_int.
        destruct (_ =? CD_SIGNATURE); [reflexivity|].
        apply IH; lia.
      * apply IH; lia.
Qed.

(** What the scan returns: the highest offset in [start .. p] that carries
    the signature, or an offset below [start] when there is none.  The
    archive descriptor is not touched. *)
Lemma eocd_scan_spec (fuel : nat) :
  forall (p start : Z) (s : state),
    p - start + 1 <= Z.of_nat fuel ->
    file (fst (eocd_scan fuel p start s)) = file s
    /\ exists q, snd (eocd_scan fuel p start s) = inr q
       /\ ((start <= q <= p
            /\ has_signature (buf (file s)) q
            /\ forall x, q < x <= p -> ~ has_signature (buf (file s)) x)
           \/ (q < start
               /\ forall x, start <= x <= p ->
                            ~ has_signature (buf (file s)) x)).
Proof.
  induction fuel as [|fuel IH]; intros p start s Hfuel; cbn [eocd_scan].
  - split; [reflexivity|]. exists p. split; [reflexivity|].
    right. split; [lia|]. intros x Hx. lia.
  - destruct (p >=? start) eqn:E.
    2:{ rewrite Z.geb_leb in E. apply Z.leb_gt in E.
        split; [reflexivity|]. exists p. split; [reflexivity|].
        right. split; [lia|]. intros x Hx. lia. }
    rewrite Z.geb_leb in E. apply Z.leb_le in E.
    rewrite !run_bind, run_emit, !run_bind, run_load.
    rewrite !file_logged.
    assert (Hnext :
      ~ has_signature (buf (file s)) p ->
      forall s', file s' = file s ->
      file (fst (eocd_scan fuel (p - 1) start s')) = file s
      /\ exists q, snd (eocd_scan fuel (p - 1) start s') = inr q
         /\ ((start <= q <= p
              /\ has_signature (buf (file s)) q
              /\ forall x, q < x <= p -> ~ has_signature (buf (file s)) x)
             \/ (q < start
                 /\ forall x, start <= x <= p ->
                              ~ has_signature (buf (file s)) x))).
    { intros Hp s' Hs'.
      destruct (IH (p - 1) start s') as [Hf [q [Hq Hcase]]]; [lia|].
      rewrite Hs' in Hf, Hcase.
      split; [exact Hf|]. exists q. split; [exact Hq|].
      destruct Hcase as [[Hr [Hsig Hafter]] | [Hlt Hnone]].
      - left. split; [lia|]. split; [exact Hsig|].
        intros x Hx. destruct (Z.eq_dec x p) as [->|Hne]; [exact Hp|].
        apply Hafter. lia.
      - right. split; [exact Hlt|].
        intros x Hx. destruct (Z.eq_dec x p) as [->|Hne]; [exact Hp|].
        apply Hnone. lia. }
    destruct (byte_val (buf (file s) p) =? 0x50) eqn:Eb.
    + rewrite !run_bind, !run_read_le_int, !file_logged.
      destruct (le32 (buf (file s)) p =? CD_SIGNATURE) eqn:Ev.
      * apply Z.eqb_eq in Ev.
        split; [reflexivity|]. exists p. split; [reflexivity|].
        left. split; [lia|]. split; [exact Ev|]. intros x Hx. lia.
      * apply Z.eqb_neq in Ev. apply Hnext; [exact Ev|reflexivity].
    + apply Z.eqb_neq in Eb. apply Hnext; [|reflexivity].
      intros Hsig. apply Eb. apply signature_first_byte. exact Hsig.
Qed.

(** The first-byte test does not change what the scan returns. *)
Lemma eocd_scan_plain_same (fuel : nat) :
  forall (p start : Z) (s s' : state),
    file s' = file s ->
    snd (eocd_scan_plain fuel p start s') = snd (eocd_scan fuel p start s)
    /\ file (fst (eocd_scan_plain fuel p start s')) = file s.
Proof.
  induction fuel as [|fuel IH]; intros p start s s' Hs;
    cbn [eocd_scan eocd_scan_plain].
  - split; [reflexivity|exact Hs].
  - destruct (p >=? start); [|split; [reflexivity|exact Hs]].
    rewrite !run_bind, !run_emit, !run_bind, run_load, run_read_le_int.
    rewrite !file_logged, Hs.
    assert (Hnext : forall a b,
      file a = file s' -> file b = file s ->
      snd (eocd_scan_plain fuel (p - 1) start a)
      = snd (eocd_scan fuel (p - 1) start b)
      /\ file (fst (eocd_scan_plain fuel (p - 1) start a)) = file s).
    { intros a b Ha Hb.
      destruct (IH (p - 1) start b a) as [H1 H2]; [congruence|].
      split; [exact H1|congruence]. }
    destruct (byte_val (buf (file s) p) =? 0x50) eqn:Eb.
    + rewrite !run_bind, !run_read_le_int, !file_logged.
      destruct (le32 (buf (file s)) p =? CD_SIGNATURE).
      * split; [reflexivity|exact Hs].
      * apply Hnext; reflexivity.
    + destruct (le32 (buf (file s)) p =? CD_SIGNATURE) eqn:Ev.
      * apply Z.eqb_eq in Ev. apply signature_first_byte in Ev.
        apply Z.eqb_neq in Eb. contradiction.
      * apply Hnext; reflexivity.
Qed.

Lemma window_start_code (size : Z) :
  (if size >? MAX_EOCD_SEARCH then 0 + size - MAX_EOCD_SEARCH else 0)
  = window_start size.
Proof.
  unfold window_start, MAX_EOCD_SEARCH, MAX_COMMENT_LEN, EOCD_LEN.
  destruct (size >? 65535 + 22) eqn:E; rewrite Z.gtb_ltb in E.
  - apply Z.ltb_lt in E. lia.
  - apply Z.ltb_ge in E. lia.
Qed.

(** What the locator returns. *)
Lemma locate_eocd_spec (s : state) :
  let mem := buf (file s) in
  let size := bufsize (file s) in
  file (fst (locate_eocd s)) = file s
  /\ (size < 22 -> snd (locate_eocd s) = inl (mkFailure (-1) NotAZip))
  /\ (22 <= size ->
      (exists e, snd (locate_eocd s) = inr e
                 /\ window_start size <= e <= size - 4
                 /\ has_signature mem e
                 /\ forall x, e < x <= size - 4 -> ~ has_signature mem x)
      \/ (snd (locate_eocd s) = inl (mkFailure (-1) NotAZip)
          /\ forall x, window_start size <= x <= size - 4 ->
                       ~ has_signature mem x)).
Proof.
  intros mem size. unfold locate_eocd.
  rewrite run_bind. cbn [get_file]. fold size.
  rewrite window_start_code. unfold EOCD_LEN.
  destruct (size <? 22) eqn:Esize.
  - apply Z.ltb_lt in Esize.
    split; [reflexivity|]. split; [reflexivity|]. lia.
  - apply Z.ltb_ge in Esize. rewrite run_bind.
    destruct (eocd_scan_spec
                (Z.to_nat (0 + size - 4 - window_start size + 1))
                (0 + size - 4) (window_start size) s)
      as [Hf [q [Hq Hcase]]]; [lia|].
    destruct (eocd_scan _ _ _ s) as [s1 r1]. cbn [fst snd] in Hf, Hq.
    subst r1. rewrite Z.add_0_l in Hcase. fold mem in Hcase.
    destruct Hcase as [[Hr [Hsig Hafter]] | [Hlt Hnone]].
    + replace (q <? window_start size) with false
        by (symmetry; apply Z.ltb_ge; lia).
      split; [exact Hf|]. split; [lia|]. intros _. left.
      exists q. repeat split; try assumption; lia.
    + replace (q <? window_start size) with true
        by (symmetry; apply Z.ltb_lt; lia).
      split; [exact Hf|]. split; [lia|]. intros _. right.
      split; [reflexivity|exact Hnone].
Qed.

(** The locator finds [e] when [e] is the last offset of the window that
    carries the signature. *)
Lemma locate_eocd_found (s : state) (e : Z) :
  let mem := buf (file s) in
  let size := bufsize (file s) in
  22 <= size ->
  window_start size <= e <= size - 4 ->
  has_signature mem e ->
  (forall x, e < x <= size - 4 -> ~ has_signature mem x) ->
  snd (locate_eocd s) = inr e.
Proof.
  intros mem size Hsize He Hsig Hafter.
  destruct (locate_eocd_spec s) as [_ [_ Hspec]].
  destruct (Hspec Hsize) as [[e' [Hr [He' [Hsig' Hafter']]]] | [_ Hnone]].
  - rewrite Hr. f_equal.
    destruct (Z.lt_trichotomy e e') as [Hlt | [Heq | Hgt]].
    + exfalso. apply (Hafter e'); [fold size in He'; lia|exact Hsig'].
    + symmetry. exact Heq.
    + exfalso. apply (Hafter' e); [fold size; lia|exact Hsig].
  - exfalso. apply (Hnone e); [fold size; lia|exact Hsig].
Qed.

Lemma locate_eocd_plain_same (s : state) :
  snd (locate_eocd_plain s) = snd (locate_eocd s).
Proof.
  unfold locate_eocd, locate_eocd_plain.
  rewrite !run_bind. cbn [get_file].
  destruct (bufsize (file s) <? EOCD_LEN); [reflexivity|].
  rewrite !run_bind.
  match goal with
  | |- context [eocd_scan ?n ?p ?st s] =>
      destruct (eocd_scan_plain_same n p st s s eq_refl) as [Hr _];
      destruct (eocd_scan_plain n p st s) as [s1 r1];
      destruct (eocd_scan n p st s) as [s2 r2]
  end.
  cbn [snd] in Hr. subst r2.
  destruct r1 as [e|q]; [reflexivity|].
  destruct (q <? _); reflexivity.
Qed.

(** ** The end-of-central-directory record *)

Lemma run_put_file (f : Zipfile) (s : state) :
  put_file f s = (mkState f (trace s), inr tt).
Proof. reflexivity. Qed.

Lemma read_central_dir_values_run (e len : Z) (s : state) :
  let f1 := eocd_fields (file s) e in
  let r := read_central_dir_values e len s in
  (len < 22 -> file (fst r) = file s
               /\ snd r = inl (mkFailure (-1) Truncated))
  /\ (22 <= len ->
      if (commentLen f1 >? 0) && (EOCD_LEN + commentLen f1 >? len)
      then file (fst r) = f1 /\ snd r = inl (mkFailure (-1) Truncated)
      else file (fst r)
           = (if commentLen f1 >? 0 then with_comment f1 (e + EOCD_LEN)
              else f1)
           /\ snd r = inr tt).
Proof.
  intros f1 r. subst r. unfold read_central_dir_values, EOCD_LEN.
  destruct (len <? 22) eqn:Elen.
  - apply Z.ltb_lt in Elen. split; [split; reflexivity|lia].
  - apply Z.ltb_ge in Elen. split; [lia|]. intros _.
    repeat run_step. rewrite !run_put_file. run_step.
    cbn [file commentLen]. fold f1.
    change (le16 (buf (file s)) (e + 20)) with (commentLen f1).
    destruct (commentLen f1 >? 0); cbn [andb].
    + destruct (22 + commentLen f1 >? len); split; reflexivity.
    + split; reflexivity.
Qed.

(** ** The entry loop *)

Lemma with_entries_same (f : Zipfile) : with_entries f (entries f) = f.
Proof. destruct f; reflexivity. Qed.

Lemma run_bail {A} (m : M A) (s : state) :
  bail m s
  = match m s with
    | (s', inl e) => (s', inl (mkFailure (-1) (kind e)))
    | (s', inr a) => (s', inr a)
    end.
Proof.
  unfold bail. destruct (m s) as [s' [e|a]]; reflexivity.
Qed.

(** The loop prepends the records it decodes, one by one, and stops at the
    first record that fails; what it reports is the result of decoding the
    [n] records in order. *)
Lemma read_entries_run (n : nat) :
  forall (i c len : Z) (s : state),
    let mem := buf (file s) in
    let size := bufsize (file s) in
    file (fst (read_entries n i c len s))
    = with_entries (file s)
        (rev (decode_prefix mem size n c len) ++ entries (file s))
    /\ snd (read_entries n i c len s)
       = match decode_entries mem size n c len with
         | inl k => inl (mkFailure (-1) k)
         | inr _ => inr tt
         end.
Proof.
  induction n as [|n IH]; intros i c len s mem size;
    cbn [read_entries decode_prefix decode_entries].
  - cbn [ret fst snd rev app]. rewrite with_entries_same.
    split; reflexivity.
  - rewrite !run_bind, run_emit, run_bind, run_bail.
    destruct (read_central_directory_entry_run zero_entry c len
                (logged [EntryIter i c len] s)) as [Hf Ho].
    rewrite file_logged in Hf, Ho. fold mem size in Ho.
    unfold outcome in Ho.
    destruct (read_central_directory_entry zero_entry c len
                (logged [EntryIter i c len] s)) as [s1 r1].
    cbn [fst snd] in Hf, Ho.
    destruct r1 as [e1 | [[x c'] len']].
    + rewrite <- Ho. cbn [fst snd rev app]. rewrite Hf.
      rewrite with_entries_same. split; reflexivity.
    + rewrite <- Ho. rewrite run_bind. cbn [get_file].
      rewrite run_bind, run_put_file. rewrite Hf.
      match goal with
      | |- context [read_entries n ?j c' len' ?st] =>
          destruct (IH j c' len' st) as [IHf IHo]
      end.
      rewrite IHf, IHo. cbn [file buf bufsize entries]. fold mem size.
      split.
      * cbn [rev]. rewrite <- app_assoc. reflexivity.
      * destruct (decode_entries mem size n c' len'); reflexivity.
Qed.

(** ** The archive reader *)

Lemma read_central_dir_not_located (s : state) (x : failure) :
  snd (locate_eocd s) = inl x ->
  file (fst (read_central_dir s)) = file s
  /\ snd (read_central_dir s) = inl x.
Proof.
  intros Hloc. unfold read_central_dir. rewrite run_bind.
  destruct (locate_eocd_spec s) as [Hf _].
  destruct (locate_eocd s) as [s1 r1]. cbn [fst snd] in *.
  subst r1. split; [exact Hf|reflexivity].
Qed.

Lemma read_central_dir_located (s : state) (e : Z) :
  snd (locate_eocd s) = inr e ->
  file (fst (read_central_dir s)) = fst (decode_archive (file s) e)
  /\ snd (read_central_dir s)
     = match snd (decode_archive (file s) e) with
       | inl k => inl (mkFailure (-1) k)
       | inr v => inr v
       end.
Proof.
  intros Hloc.
  unfold read_central_dir, decode_archive, comment_overflows, eocd_done.
  rewrite run_bind.
  destruct (locate_eocd_spec s) as [Hf _].
  destruct (locate_eocd s) as [s1 r1]. cbn [fst snd] in Hloc, Hf.
  subst r1. rewrite run_bind. cbn [get_file]. rewrite run_bind, run_bail.
  rewrite Z.add_0_l.
  destruct (read_central_dir_values_run e (bufsize (file s1) - e) s1)
    as [Hshort Hlong].
  rewrite Hf in Hshort, Hlong.
  rewrite Hf. unfold EOCD_LEN in *.
  destruct (bufsize (file s) - e <? 22) eqn:Elen.
  - apply Z.ltb_lt in Elen. destruct (Hshort Elen) as [H1 H2].
    destruct (read_central_dir_values _ _ s1) as [s2 r2].
    cbn [fst snd] in H1, H2. subst r2. cbn [fst snd kind].
    split; [exact H1|reflexivity].
  - apply Z.ltb_ge in Elen. specialize (Hlong Elen).
    destruct (read_central_dir_values _ _ s1) as [s2 r2].
    cbn [fst snd] in Hlong.
    set (f1 := eocd_fields (file s) e) in *.
    destruct ((commentLen f1 >? 0) && (22 + commentLen f1 >? _)) eqn:Ecom.
    + destruct Hlong as [H1 H2]. subst r2. cbn [fst snd kind].
      split; [exact H1|reflexivity].
    + destruct Hlong as [H1 H2]. subst r2.
      rewrite run_bind. cbn [get_file]. rewrite H1.
      set (f2 := if commentLen f1 >? 0 then _ else f1).
      fold (spanning f2).
      destruct (spanning f2) eqn:Espan.
      * cbn [raise fst snd]. split; [exact H1|reflexivity].
      * rewrite run_bind. rewrite !Z.add_0_l.
        assert (Hbuf : buf f2 = buf (file s) /\ bufsize f2 = bufsize (file s)
                       /\ entries f2 = entries (file s)).
        { unfold f2. destruct (commentLen f1 >? 0); repeat split. }
        destruct Hbuf as [Hb [Hsz Hes]]. rewrite Hsz.
        destruct (read_entries_run (Z.to_nat (totalEntryCount f2)) 0
                    (centralDirOffest f2)
                    (bufsize (file s) - centralDirOffest f2) s2)
          as [Rf Ro].
        rewrite H1 in Rf, Ro. fold f2 in Rf, Ro.
        rewrite Hb, Hsz in Rf, Ro. rewrite Hes in Rf.
        destruct (read_entries _ _ _ _ s2) as [s3 r3].
        cbn [fst snd] in Rf, Ro. subst r3.
        destruct (decode_entries _ _ _ _ _); cbn [fst snd ret];
          (split; [exact Rf|reflexivity]).
Qed.

(** ** What the runs record in the trace *)

Lemma trace_logged (l : list event) (s : state) :
  trace (logged l s) = l ++ trace s.
Proof. reflexivity. Qed.

Lemma loads_within_cons_load (lo hi off : Z) (t : list event) :
  lo <= off < hi -> loads_within lo hi t ->
  loads_within lo hi (Fetch off :: t).
Proof. intros H Ht. unfold loads_within. cbn [loads]. constructor; assumption. Qed.

Lemma loads_within_cons_scan (lo hi p : Z) (t : list event) :
  loads_within lo hi t -> loads_within lo hi (ScanAt p :: t).
Proof. intros Ht. exact Ht. Qed.

Lemma loads_within_cons_iter (lo hi i c len : Z) (t : list event) :
  loads_within lo hi t -> loads_within lo hi (EntryIter i c len :: t).
Proof. intros Ht. exact Ht. Qed.

Lemma loads_within_weaken (lo hi lo' hi' : Z) (t : list event) :
  lo' <= lo -> hi <= hi' -> loads_within lo hi t -> loads_within lo' hi' t.
Proof.
  intros Hlo Hhi Ht. unfold loads_within in *.
  eapply Forall_impl; [|exact Ht]. cbn beta. intros off H. lia.
Qed.

(** Normalise the trace of a state reached through [logged] steps and
    discharge the bounds of the loads it adds. *)
Ltac trace_simpl :=
  cbn [fst snd ret raise];
  rewrite ?trace_logged; cbn [app scan_visits entry_iters].

Ltac loads_ok :=
  repeat first
    [ assumption
    | apply loads_within_cons_load; [lia|]
    | apply loads_within_cons_scan
    | apply loads_within_cons_iter ].

(** The scan visits at most [fuel] positions, enters no entry-loop
    iteration, and loads only the four bytes at each position it visits. *)
Lemma eocd_scan_trace (fuel : nat) :
  forall (p start : Z) (s : state),
    let t' := trace (fst (eocd_scan fuel p start s)) in
    (scan_visits t' <= scan_visits (trace s) + fuel)%nat
    /\ entry_iters t' = entry_iters (trace s)
    /\ forall lo hi, lo <= start -> p + 4 <= hi ->
         loads_within lo hi (trace s) -> loads_within lo hi t'.
Proof.
  induction fuel as [|fuel IH]; intros p start s; cbn [eocd_scan].
  - cbn [ret fst]. repeat split; [lia|]. intros; assumption.
  - destruct (p >=? start) eqn:E.
    2:{ cbn [ret fst]. repeat split; [lia|]. intros; assumption. }
    rewrite Z.geb_leb in E. apply Z.leb_le in E.
    rewrite !run_bind, run_emit, !run_bind, run_load.
    assert (Hnext : forall s1,
      (scan_visits (trace s1) = S (scan_visits (trace s)))%nat ->
      entry_iters (trace s1) = entry_iters (trace s) ->
      (forall lo hi, lo <= start -> p + 4 <= hi ->
         loads_within lo hi (trace s) -> loads_within lo hi (trace s1)) ->
      let t' := trace (fst (eocd_scan fuel (p - 1) start s1)) in
      (scan_visits t' <= scan_visits (trace s) + S fuel)%nat
      /\ entry_iters t' = entry_iters (trace s)
      /\ forall lo hi, lo <= start -> p + 4 <= hi ->
           loads_within lo hi (trace s) -> loads_within lo hi t').
    { intros s1 Hv Hi Hl.
      destruct (IH (p - 1) start s1) as [IHv [IHi IHl]].
      cbv zeta. repeat split; [lia|congruence|].
      intros lo hi Hlo Hhi Ht. apply IHl; [lia|lia|]. apply Hl; assumption. }
    destruct (_ =? 0x50).
    + rewrite !run_bind, !run_read_le_int.
      destruct (_ =? CD_SIGNATURE).
      * trace_simpl. repeat split; [lia|].
        intros lo hi Hlo Hhi Ht. trace_simpl. loads_ok.
      * apply Hnext; [reflexivity|reflexivity|].
        intros lo hi Hlo Hhi Ht. trace_simpl. loads_ok.
    + apply Hnext; [reflexivity|reflexivity|].
      intros lo hi Hlo Hhi Ht. trace_simpl. loads_ok.
Qed.

Lemma locate_eocd_trace (s : state) :
  let t' := trace (fst (locate_eocd s)) in
  Z.of_nat (scan_visits t') <= Z.of_nat (scan_visits (trace s)) + 65554
  /\ entry_iters t' = entry_iters (trace s)
  /\ forall hi, bufsize (file s) <= hi ->
       loads_within 0 hi (trace s) -> loads_within 0 hi t'.
Proof.
  unfold locate_eocd. rewrite run_bind. cbn [get_file].
  rewrite window_start_code. unfold EOCD_LEN.
  destruct (bufsize (file s) <? 22) eqn:Esize.
  - cbn [raise fst]. repeat split; [lia|]. intros; assumption.
  - apply Z.ltb_ge in Esize. rewrite run_bind.
    set (size := bufsize (file s)) in *.
    destruct (eocd_scan_trace
                (Z.to_nat (0 + size - 4 - window_start size + 1))
                (0 + size - 4) (window_start size) s) as [Hv [Hi Hl]].
    destruct (eocd_scan _ _ _ s) as [s1 r1]. cbn [fst] in Hv, Hi, Hl.
    assert (Hbound : Z.of_nat (Z.to_nat (0 + size - 4 - window_start size + 1))
                     <= 65554)
      by (unfold window_start; lia).
    assert (Hs1 : forall hi, size <= hi -> loads_within 0 hi (trace s) ->
                  loads_within 0 hi (trace s1)).
    { intros hi Hhi. apply Hl; unfold window_start; lia. }
    destruct r1 as [x|q]; [cbn [fst]; repeat split; [lia|exact Hi|exact Hs1]|].
    destruct (q <? window_start size); cbn [raise ret fst];
      (repeat split; [lia|exact Hi|exact Hs1]).
Qed.

Lemma read_central_dir_values_trace (e len : Z) (s : state) :
  let t' := trace (fst (read_central_dir_values e len s)) in
  scan_visits t' = scan_visits (trace s)
  /\ entry_iters t' = entry_iters (trace s)
  /\ forall lo hi, lo <= e -> e + len <= hi ->
       loads_within lo hi (trace s) -> loads_within lo hi t'.
Proof.
  unfold read_central_dir_values, EOCD_LEN.
  destruct (len <? 22) eqn:Elen.
  - cbn [raise fst]. repeat split. intros; assumption.
  - apply Z.ltb_ge in Elen.
    repeat run_step. rewrite !run_put_file. run_step.
    cbn [file commentLen trace].
    destruct (_ >? 0).
    + destruct (_ >? len); trace_simpl;
        (repeat split; intros lo hi Hlo Hhi Ht; loads_ok).
    + trace_simpl. repeat split. intros lo hi Hlo Hhi Ht. loads_ok.
Qed.

(** What a successful decoding of the record at [c] has checked. *)
Lemma decode_entry_ok (mem : Z -> byte) (size c len : Z)
    (x : Zipentry) (c' len' : Z) :
  decode_entry mem size c len = inr (x, c', len') ->
  46 <= len
  /\ le32 mem c = ENTRY_SIGNATURE
  /\ 0 < cd_namelen mem c
  /\ cd_next mem c - c <= len
  /\ cd_local mem c < size
  /\ data_offset mem c < size
  /\ (cd_method mem c = 0 ->
      cd_usize mem c <= to_uint (size - data_offset mem c))
  /\ (cd_method mem c = 8 ->
      cd_csize mem c <= to_uint (size - data_offset mem c))
  /\ x = decoded mem c /\ c' = cd_next mem c
  /\ len' = len - (cd_next mem c - c).
Proof.
  unfold decode_entry, ENTRY_LEN, kCompressionStored, kCompressionDeflate.
  pose proof (le16_range mem (c + 0x1c)) as Hn. fold (cd_namelen mem c) in Hn.
  destruct (len <? 46) eqn:E1; [discriminate|].
  destruct (negb (le32 mem c =? ENTRY_SIGNATURE)) eqn:E2; [discriminate|].
  destruct (cd_namelen mem c =? 0) eqn:E3; [discriminate|].
  destruct (len <? cd_next mem c - c) eqn:E4; [discriminate|].
  destruct (size <=? cd_local mem c) eqn:E5; [discriminate|].
  destruct (size <=? data_offset mem c) eqn:E6; [discriminate|].
  destruct ((cd_method mem c =? 0) && _) eqn:E7; [discriminate|].
  destruct ((cd_method mem c =? 8) && _) eqn:E8; [discriminate|].
  intros H. injection H as Hx Hc Hl.
  apply Z.ltb_ge in E1, E4. apply Z.leb_gt in E5, E6.
  apply negb_false_iff, Z.eqb_eq in E2. apply Z.eqb_neq in E3.
  repeat split; try lia; congruence.
Qed.

(** The entry decoder visits no scan position, enters no loop iteration,
    and loads within the 46 bytes of the record at the cursor, plus, once
    the local header offset has been found below the size of the buffer,
    the two bytes at offset 0x1c of the local header. *)
Lemma read_central_directory_entry_trace (e : Zipentry) (c len : Z)
    (s : state) :
  let mem := buf (file s) in
  let size := bufsize (file s) in
  let t' := trace (fst (read_central_directory_entry e c len s)) in
  scan_visits t' = scan_visits (trace s)
  /\ entry_iters t' = entry_iters (trace s)
  /\ forall lo hi,
       (46 <= len -> lo <= c /\ c + 46 <= hi) ->
       (46 <= len -> le32 mem (c + 0x2a) < size ->
        lo <= le32 mem (c + 0x2a) + 28 /\ le32 mem (c + 0x2a) + 30 <= hi) ->
       loads_within lo hi (trace s) -> loads_within lo hi t'.
Proof.
  unfold read_central_directory_entry.
  set (mem := buf (file s)). set (size := bufsize (file s)).
  run_step.
  destruct (len <? ENTRY_LEN) eqn:Elen.
  { cbn [raise fst]. repeat split. intros; assumption. }
  apply Z.ltb_ge in Elen. unfold ENTRY_LEN in Elen.
  run_step.
  destruct (negb _).
  { trace_simpl. repeat split. intros lo hi Hc Hl Ht.
    specialize (Hc Elen). loads_ok. }
  repeat run_step. fold mem size.
  cbn [fileNameLength fileName compressionMethod uncompressedSize
       compressedSize data with_fixed with_fileName with_data].
  rewrite !Z.add_0_l.
  assert (Hfixed : forall (A : Type) (r : failure + A),
    let t' := trace (fst (logged
      [Fetch (c + 42 + 3); Fetch (c + 42 + 2); Fetch (c + 42 + 1); Fetch (c + 42)]
      (logged [Fetch (c + 32 + 1); Fetch (c + 32)]
      (logged [Fetch (c + 30 + 1); Fetch (c + 30)]
      (logged [Fetch (c + 28 + 1); Fetch (c + 28)]
      (logged
         [Fetch (c + 24 + 3); Fetch (c + 24 + 2); Fetch (c + 24 + 1);
          Fetch (c + 24)]
      (logged
         [Fetch (c + 20 + 3); Fetch (c + 20 + 2); Fetch (c + 20 + 1);
          Fetch (c + 20)]
      (logged [Fetch (c + 10 + 1); Fetch (c + 10)]
      (logged
         [Fetch (c + 0 + 3); Fetch (c + 0 + 2); Fetch (c + 0 + 1); Fetch (c + 0)]
         s))))))), r)) in
    scan_visits t' = scan_visits (trace s)
    /\ entry_iters t' = entry_iters (trace s)
    /\ forall lo hi,
         (46 <= len -> lo <= c /\ c + 46 <= hi) ->
         (46 <= len -> le32 mem (c + 0x2a) < size ->
          lo <= le32 mem (c + 0x2a) + 28 /\ le32 mem (c + 0x2a) + 30 <= hi) ->
         loads_within lo hi (trace s) -> loads_within lo hi t').
  { intros A r. trace_simpl. repeat split. intros lo hi Hc Hl Ht.
    specialize (Hc Elen). loads_ok. }
  destruct (negb _); [|apply Hfixed].
  destruct (_ >? _); [apply Hfixed|].
  destruct (_ >? _); [apply Hfixed|].
  destruct (_ >? _); [apply Hfixed|].
  destruct (le32 mem (c + 42) >=? size) eqn:Eloc; [apply Hfixed|].
  rewrite Z.geb_leb in Eloc. apply Z.leb_gt in Eloc.
  repeat run_step.
  assert (Hlocal : forall (A : Type) (r : state -> state * (failure + A)),
    (forall s0, fst (r s0) = s0) ->
    let t' := trace (fst (r (logged
      [Fetch (le32 mem (c + 42) + 28 + 1); Fetch (le32 mem (c + 42) + 28)]
      (logged
      [Fetch (c + 42 + 3); Fetch (c + 42 + 2); Fetch (c + 42 + 1); Fetch (c + 42)]
      (logged [Fetch (c + 32 + 1); Fetch (c + 32)]
      (logged [Fetch (c + 30 + 1); Fetch (c + 30)]
      (logged [Fetch (c + 28 + 1); Fetch (c + 28)]
      (logged
         [Fetch (c + 24 + 3); Fetch (c + 24 + 2); Fetch (c + 24 + 1);
          Fetch (c + 24)]
      (logged
         [Fetch (c + 20 + 3); Fetch (c + 20 + 2); Fetch (c + 20 + 1);
          Fetch (c + 20)]
      (logged [Fetch (c + 10 + 1); Fetch (c + 10)]
      (logged
         [Fetch (c + 0 + 3); Fetch (c + 0 + 2); Fetch (c + 0 + 1); Fetch (c + 0)]
         s))))))))))) in
    scan_visits t' = scan_visits (trace s)
    /\ entry_iters t' = entry_iters (trace s)
    /\ forall lo hi,
         (46 <= len -> lo <= c /\ c + 46 <= hi) ->
         (46 <= len -> le32 mem (c + 0x2a) < size ->
          lo <= le32 mem (c + 0x2a) + 28 /\ le32 mem (c + 0x2a) + 30 <= hi) ->
         loads_within lo hi (trace s) -> loads_within lo hi t').
  { intros A r Hr. rewrite Hr. trace_simpl. repeat split.
    intros lo hi Hc Hl Ht. specialize (Hc Elen). specialize (Hl Elen Eloc).
    loads_ok. }
  cbn [fileNameLength fileName compressionMethod uncompressedSize
       compressedSize data with_fixed with_fileName with_data].
  destruct (_ || _).
  { apply (Hlocal _ (raise 1 InvalidDataOffset)). reflexivity. }
  destruct (_ && _).
  { apply (Hlocal _ (raise 1 InvalidDeclaredSize)). reflexivity. }
  destruct (_ && _).
  { apply (Hlocal _ (raise 1 InvalidDeclaredSize)). reflexivity. }
  match goal with
  | |- context [ret ?v] => apply (Hlocal _ (ret v)); reflexivity
  end.
Qed.

Lemma decode_entries_prefix (mem : Z -> byte) (size : Z) (n : nat) :
  forall (c len : Z),
    match decode_entries mem size n c len with
    | inr xs => decode_prefix mem size n c len = xs /\ length xs = n
    | inl _ => (length (decode_prefix mem size n c len) < n)%nat
    end.
Proof.
  induction n as [|n IH]; intros c len; cbn [decode_entries decode_prefix].
  - split; reflexivity.
  - destruct (decode_entry mem size c len) as [k | [[x c'] len']].
    + cbn [length]. lia.
    + specialize (IH c' len').
      destruct (decode_entries mem size n c' len') as [k | xs].
      * cbn [length]. lia.
      * destruct IH as [IH1 IH2]. cbn [length]. split; congruence.
Qed.

(** The entry loop enters one iteration for each record it decodes and one
    more for the record that fails, if any. *)
Lemma read_entries_trace (n : nat) :
  forall (i c len : Z) (s : state),
    let mem := buf (file s) in
    let size := bufsize (file s) in
    let t' := trace (fst (read_entries n i c len s)) in
    scan_visits t' = scan_visits (trace s)
    /\ entry_iters t'
       = (entry_iters (trace s) + length (decode_prefix mem size n c len)
          + match decode_entries mem size n c len with
            | inl _ => 1
            | inr _ => 0
            end)%nat
    /\ (0 <= c -> len <= size - c ->
        loads_within 0 (size + 29) (trace s) ->
        loads_within 0 (size + 29) t').
Proof.
  induction n as [|n IH]; intros i c len s mem size;
    cbn [read_entries decode_prefix decode_entries].
  - cbn [ret fst length]. repeat split; [lia|]. intros; assumption.
  - rewrite !run_bind, run_emit, run_bind, run_bail.
    destruct (read_central_directory_entry_run zero_entry c len
                (logged [EntryIter i c len] s)) as [Hf Ho].
    destruct (read_central_directory_entry_trace zero_entry c len
                (logged [EntryIter i c len] s)) as [Tv [Ti Tl]].
    rewrite file_logged in Hf, Ho, Tl. fold mem size in Ho, Tl.
    rewrite trace_logged in Tv, Ti, Tl.
    cbn [app scan_visits entry_iters] in Tv, Ti.
    pose proof (le32_range mem (c + 0x2a)) as Hlocal.
    assert (Tl' : 0 <= c -> len <= size - c ->
                  loads_within 0 (size + 29) (trace s) ->
                  loads_within 0 (size + 29)
                    (trace (fst (read_central_directory_entry zero_entry c
                                   len (logged [EntryIter i c len] s))))).
    { intros Hc Hl Ht. apply Tl; [lia|lia|]. loads_ok. }
    clear Tl.
    unfold outcome in Ho.
    destruct (read_central_directory_entry zero_entry c len
                (logged [EntryIter i c len] s)) as [s1 r1].
    cbn [fst snd] in Hf, Ho, Tv, Ti, Tl'.
    destruct r1 as [e1 | [[x c'] len']].
    + rewrite <- Ho. cbn [fst length]. repeat split; [exact Tv|lia|].
      intros Hc Hl Ht. apply Tl'; assumption.
    + rewrite <- Ho. rewrite run_bind. cbn [get_file].
      rewrite run_bind, run_put_file. rewrite Hf.
      match goal with
      | |- context [read_entries n ?j c' len' ?st] =>
          set (s2 := st);
          destruct (IH j c' len' s2) as [IHv [IHi IHl]]
      end.
      change (trace s2) with (trace s1) in IHv, IHi, IHl.
      change (buf (file s2)) with mem in IHi.
      change (bufsize (file s2)) with size in IHi, IHl.
      symmetry in Ho. apply decode_entry_ok in Ho.
      destruct Ho as (H46 & _ & Hname & Hfit & _ & _ & _ & _ & _ & Hc' & Hl').
      repeat split.
      * rewrite IHv. exact Tv.
      * rewrite IHi, Ti. cbn [length].
        destruct (decode_entries mem size n c' len'); lia.
      * intros Hc Hl Ht. apply IHl.
        -- unfold cd_next, ENTRY_LEN in *.
           pose proof (le16_range mem (c + 0x1c)).
           pose proof (le16_range mem (c + 0x1e)).
           pose proof (le16_range mem (c + 0x20)).
           unfold cd_namelen, cd_extralen, cd_commentlen in *. lia.
        -- lia.
        -- apply Tl'; assumption.
Qed.

Lemma eocd_done_same (f : Zipfile) (e : Z) :
  buf (eocd_done f e) = buf f
  /\ bufsize (eocd_done f e) = bufsize f
  /\ entries (eocd_done f e) = entries f
  /\ totalEntryCount (eocd_done f e) = le16 (buf f) (e + 0x0a)
  /\ centralDirOffest (eocd_done f e) = le32 (buf f) (e + 0x10).
Proof.
  unfold eocd_done. destruct (commentLen (eocd_fields f e) >? 0);
    repeat split.
Qed.

(** The whole parse: the scan visits at most 65554 positions, the entry loop
    enters [archive_iters] iterations, and no load is below the buffer or
    more than 29 bytes past its end. *)
Lemma read_central_dir_trace (s : state) :
  let size := bufsize (file s) in
  let t' := trace (fst (read_central_dir s)) in
  Z.of_nat (scan_visits t') <= Z.of_nat (scan_visits (trace s)) + 65554
  /\ entry_iters t'
     = (entry_iters (trace s)
        + match snd (locate_eocd s) with
          | inl _ => O
          | inr e => archive_iters (file s) e
          end)%nat
  /\ (loads_within 0 (size + 29) (trace s) ->
      loads_within 0 (size + 29) t').
Proof.
  intros size.
  unfold read_central_dir, archive_iters, loop_entered, comment_overflows.
  rewrite run_bind.
  destruct (locate_eocd_spec s) as [Hf [Hsmall Hbig]].
  destruct (locate_eocd_trace s) as [Lv [Li Ll]].
  fold size in Hsmall, Hbig, Ll.
  specialize (Ll (size + 29) ltac:(lia)).
  destruct (locate_eocd s) as [s1 r1]. cbn [fst snd] in *.
  destruct r1 as [x | e].
  { cbn [fst]. repeat split; [exact Lv|lia|exact Ll]. }
  assert (He : 0 <= e <= size - 4).
  { destruct (Z.lt_ge_cases size 22) as [Hlt | Hge].
    - specialize (Hsmall Hlt). discriminate.
    - destruct (Hbig Hge) as [[e' [He' [Hr _]]] | [Hno _]];
        [|discriminate].
      injection He' as <-. unfold window_start in Hr. lia. }
  rewrite run_bind. cbn [get_file]. rewrite run_bind, run_bail.
  rewrite Z.add_0_l, Hf. fold size.
  destruct (read_central_dir_values_run e (size - e) s1) as [Hshort Hlong].
  destruct (read_central_dir_values_trace e (size - e) s1) as [Vv [Vi Vl]].
  specialize (Vl 0 (size + 29) ltac:(lia) ltac:(lia)).
  rewrite Hf in Hshort, Hlong. unfold EOCD_LEN in *.
  destruct (read_central_dir_values e (size - e) s1) as [s2 r2].
  cbn [fst snd] in Hshort, Hlong, Vv, Vi, Vl.
  destruct (size - e <? 22) eqn:Elen.
  { apply Z.ltb_lt in Elen. destruct (Hshort Elen) as [_ H2]. subst r2.
    cbn [fst negb andb]. repeat split; [lia|lia|]. intros Ht. auto. }
  apply Z.ltb_ge in Elen. specialize (Hlong Elen). cbn [negb andb].
  destruct ((commentLen (eocd_fields (file s) e) >? 0) && _) eqn:Ecom.
  { destruct Hlong as [_ H2]. subst r2.
    cbn [fst negb andb]. repeat split; [lia|lia|]. intros Ht. auto. }
  destruct Hlong as [H1 H2]. subst r2.
  change (file s2 = eocd_done (file s) e) in H1.
  rewrite run_bind. cbn [get_file negb andb]. rewrite H1.
  set (f2 := eocd_done (file s) e) in *.
  fold (spanning f2).
  destruct (spanning f2) eqn:Espan.
  { cbn [raise fst negb]. repeat split; [lia|lia|]. intros Ht. auto. }
  cbn [negb]. rewrite run_bind, !Z.add_0_l.
  destruct (eocd_done_same (file s) e) as (Hb & Hsz & _ & _ & Hoff).
  fold f2 in Hb, Hsz, Hoff. rewrite Hsz. fold size.
  destruct (read_entries_trace (Z.to_nat (totalEntryCount f2)) 0
              (centralDirOffest f2) (size - centralDirOffest f2) s2)
    as [Rv [Ri Rl]].
  rewrite H1, Hb, Hsz in Ri. rewrite H1, Hsz in Rl. fold size in Ri, Rl.
  pose proof (le32_range (buf (file s)) (e + 0x10)) as Hrange.
  rewrite <- Hoff in Hrange.
  specialize (Rl ltac:(lia) ltac:(lia)).
  destruct (read_entries _ _ _ _ s2) as [s3 r3]. cbn [fst] in Rv, Ri, Rl.
  assert (Hgoal :
    Z.of_nat (scan_visits (trace s3))
    <= Z.of_nat (scan_visits (trace s)) + 65554
    /\ entry_iters (trace s3)
       = (entry_iters (trace s)
          + (length (decode_prefix (buf (file s)) size
                       (Z.to_nat (totalEntryCount f2)) (centralDirOffest f2)
                       (size - centralDirOffest f2))
             + match decode_entries (buf (file s)) size
                       (Z.to_nat (totalEntryCount f2)) (centralDirOffest f2)
                       (size - centralDirOffest f2) with
               | inl _ => 1
               | inr _ => 0
               end))%nat
    /\ (loads_within 0 (size + 29) (trace s) ->
        loads_within 0 (size + 29) (trace s3))).
  { repeat split; [lia|lia|]. intros Ht. auto. }
  destruct r3; exact Hgoal.
Qed.

(** [NotAZip] is reported by the locator only. *)
Lemma decode_entry_located (mem : Z -> byte) (size c len : Z) :
  decode_entry mem size c len <> inl NotAZip.
Proof.
  unfold decode_entry.
  repeat match goal with
         | |- context [if ?b then _ else _] => destruct b
         end; discriminate.
Qed.

Lemma decode_entries_located (mem : Z -> byte) (size : Z) (n : nat) :
  forall c len, decode_entries mem size n c len <> inl NotAZip.
Proof.
  induction n as [|n IH]; intros c len; cbn [decode_entries];
    [discriminate|].
  pose proof (decode_entry_located mem size c len) as Hd.
  destruct (decode_entry mem size c len) as [k | [[x c'] len']].
  - congruence.
  - specialize (IH c' len').
    destruct (decode_entries mem size n c' len'); congruence.
Qed.

Lemma read_central_dir_NotAZip (s : state) :
  outcome (read_central_dir s) = inl NotAZip
  <-> outcome (locate_eocd s) = inl NotAZip.
Proof.
  unfold outcome.
  destruct (snd (locate_eocd s)) as [x | e] eqn:Hloc.
  - destruct (read_central_dir_not_located s x Hloc) as [_ Hr].
    rewrite Hr. reflexivity.
  - destruct (read_central_dir_located s e Hloc) as [_ Hr].
    rewrite Hr. unfold decode_archive.
    split; [|discriminate]. intros H. exfalso.
    destruct (_ <? EOCD_LEN); [discriminate|].
    destruct (comment_overflows _ _ _); [discriminate|].
    destruct (spanning _); [discriminate|].
    cbn [snd] in H.
    match type of H with
    | context [decode_entries ?m ?sz ?n ?c ?l] =>
        pose proof (decode_entries_located m sz n c l) as Hd;
        destruct (decode_entries m sz n c l)
    end; cbn [kind] in H; [congruence|discriminate].
Qed.

(** ** The order of the scan *)

Lemma Zrange_empty (lo hi : Z) : hi < lo -> Zrange lo hi = [].
Proof.
  intros H. unfold Zrange.
  replace (Z.to_nat (hi - lo + 1)) with O by lia. reflexivity.
Qed.

Lemma Zrange_snoc (lo hi : Z) :
  lo <= hi -> Zrange lo hi = Zrange lo (hi - 1) ++ [hi].
Proof.
  intros H. unfold Zrange.
  replace (Z.to_nat (hi - lo + 1)) with (S (Z.to_nat (hi - 1 - lo + 1)))
    by lia.
  rewrite seq_S, map_app. cbn [map Nat.add]. do 2 f_equal. lia.
Qed.

(** The scan visits [p], [p - 1], ... one after the other and stops at the
    offset it returns, or at [start] when it returns an offset below. *)
Lemma eocd_scan_positions (fuel : nat) :
  forall (p start : Z) (s : state),
    p - start + 1 <= Z.of_nat fuel -> start - 1 <= p ->
    exists q, snd (eocd_scan fuel p start s) = inr q
      /\ scan_positions (trace (fst (eocd_scan fuel p start s)))
         = Zrange (Z.max q start) p ++ scan_positions (trace s).
Proof.
  induction fuel as [|fuel IH]; intros p start s Hfuel Hp; cbn [eocd_scan].
  - exists p. split; [reflexivity|]. rewrite Zrange_empty by lia. reflexivity.
  - destruct (p >=? start) eqn:E; rewrite Z.geb_leb in E.
    2:{ apply Z.leb_gt in E. exists p. split; [reflexivity|].
        rewrite Zrange_empty by lia. reflexivity. }
    apply Z.leb_le in E.
    rewrite !run_bind, run_emit, !run_bind, run_load.
    assert (Hnext : forall s1,
      scan_positions (trace s1) = p :: scan_positions (trace s) ->
      exists q, snd (eocd_scan fuel (p - 1) start s1) = inr q
        /\ scan_positions (trace (fst (eocd_scan fuel (p - 1) start s1)))
           = Zrange (Z.max q start) p ++ scan_positions (trace s)).
    { intros s1 Hs1.
      destruct (IH (p - 1) start s1) as [q [Hq Hpos]]; [lia|lia|].
      exists q. split; [exact Hq|]. rewrite Hpos, Hs1.
      destruct (eocd_scan_spec fuel (p - 1) start s1) as [_ [q' [Hq' Hcase]]];
        [lia|].
      rewrite Hq in Hq'. injection Hq' as <-.
      rewrite (Zrange_snoc (Z.max q start) p) by lia.
      rewrite <- app_assoc. reflexivity. }
    destruct (_ =? 0x50).
    + rewrite !run_bind, !run_read_le_int.
      destruct (_ =? CD_SIGNATURE).
      * exists p. split; [reflexivity|]. trace_simpl. cbn [scan_positions].
        rewrite Z.max_l by lia. rewrite Zrange_snoc by lia.
        rewrite Zrange_empty by lia. reflexivity.
      * apply Hnext. reflexivity.
    + apply Hnext. reflexivity.
Qed.

Lemma locate_eocd_positions (s : state) :
  let size := bufsize (file s) in
  22 <= size ->
  scan_positions (trace (fst (locate_eocd s)))
  = Zrange (match snd (locate_eocd s) with
            | inr e => e
            | inl _ => window_start size
            end) (size - 4)
    ++ scan_positions (trace s).
Proof.
  intros size Hsize. unfold locate_eocd.
  rewrite run_bind. cbn [get_file]. fold size.
  rewrite window_start_code. unfold EOCD_LEN.
  replace (size <? 22) with false by (symmetry; apply Z.ltb_ge; lia).
  rewrite run_bind.
  assert (Hw : window_start size <= size - 4) by (unfold window_start; lia).
  destruct (eocd_scan_positions
              (Z.to_nat (0 + size - 4 - window_start size + 1))
              (0 + size - 4) (window_start size) s) as [q [Hq Hpos]];
    [lia|lia|].
  destruct (eocd_scan _ _ _ s) as [s1 r1]. cbn [fst snd] in Hq, Hpos.
  subst r1. rewrite Z.add_0_l in Hpos.
  destruct (q <? window_start size) eqn:E.
  - apply Z.ltb_lt in E. cbn [raise ret fst snd].
    rewrite Hpos. rewrite Z.max_r by lia. reflexivity.
  - apply Z.ltb_ge in E. cbn [raise ret fst snd].
    rewrite Hpos. rewrite Z.max_l by lia. reflexivity.
Qed.

(** * The properties of the parser *)

(** C4.  The locator scans backward from offset [size - 4] through a tail
    window of at most 65557 bytes, one position after the other, and stops
    at the first position that carries the signature 0x06054b50: it returns
    the highest offset of the window at which the signature occurs.  It
    reports [NotAZip], and nothing else, exactly when the buffer is shorter
    than 22 bytes or no position of the window carries the signature.
    Taking out the first-byte test changes nothing in what is returned.
    The whole parse reports [NotAZip] exactly when the locator does. *)
Theorem eocd_locator_finds_last_signature (s : state) :
  let mem := buf (file s) in
  let size := bufsize (file s) in
  size - window_start size <= 65535 + 22
  /\ (outcome (locate_eocd s) = inl NotAZip <->
      size < 22
      \/ forall x, window_start size <= x <= size - 4 ->
                   ~ has_signature mem x)
  /\ (forall e,
        outcome (locate_eocd s) = inr e <->
        22 <= size
        /\ window_start size <= e <= size - 4
        /\ le32 mem e = 0x06054b50
        /\ forall x, e < x <= size - 4 -> le32 mem x <> 0x06054b50)
  /\ (forall k, outcome (locate_eocd s) = inl k -> k = NotAZip)
  /\ (22 <= size ->
      scan_positions (trace (fst (locate_eocd s)))
      = Zrange (match outcome (locate_eocd s) with
                | inr e => e
                | inl _ => window_start size
                end) (size - 4)
        ++ scan_positions (trace s))
  /\ outcome (locate_eocd_plain s) = outcome (locate_eocd s)
  /\ (outcome (read_central_dir s) = inl NotAZip
      <-> outcome (locate_eocd s) = inl NotAZip).
Proof.
  intros mem size.
  assert (Hparse : outcome (read_central_dir s) = inl NotAZip
                   <-> outcome (locate_eocd s) = inl NotAZip)
    by exact (read_central_dir_NotAZip s).
  revert Hparse. generalize (outcome (read_central_dir s)).
  intros whole Hparse. unfold outcome in Hparse.
  destruct (locate_eocd_spec s) as [_ [Hsmall Hbig]].
  fold mem size in Hsmall, Hbig.
  pose proof (locate_eocd_positions s) as Hpos. fold size in Hpos.
  pose proof (locate_eocd_plain_same s) as Hplain.
  unfold outcome. rewrite Hplain.
  assert (Hcases :
    (size < 22 /\ snd (locate_eocd s) = inl (mkFailure (-1) NotAZip))
    \/ (22 <= size /\ snd (locate_eocd s) = inl (mkFailure (-1) NotAZip)
        /\ forall x, window_start size <= x <= size - 4 ->
                     ~ has_signature mem x)
    \/ (22 <= size /\ exists e, snd (locate_eocd s) = inr e
        /\ window_start size <= e <= size - 4
        /\ has_signature mem e
        /\ forall x, e < x <= size - 4 -> ~ has_signature mem x)).
  { destruct (Z.lt_ge_cases size 22) as [Hlt | Hge].
    - left. split; [exact Hlt|]. apply Hsmall. exact Hlt.
    - right. destruct (Hbig Hge) as [Hfound | [Hr Hnone]].
      + right. split; [exact Hge|exact Hfound].
      + left. repeat split; assumption. }
  split; [unfold window_start; lia|].
  destruct Hcases
    as [[Hlt Hr] | [[Hge [Hr Hnone]] | [Hge [e [Hr [He [Hsig Hafter]]]]]]].
  - rewrite Hr in *. cbn [kind] in *.
    split; [split; [intros _; left; exact Hlt|reflexivity]|].
    split; [intros e; split; [discriminate|intros [H _]; lia]|].
    split; [intros k H; injection H as <-; reflexivity|].
    split; [intros H; lia|]. split; [reflexivity|exact Hparse].
  - rewrite Hr in *. cbn [kind] in *.
    split; [split; [intros _; right; exact Hnone|reflexivity]|].
    split.
    { intros e; split; [discriminate|].
      intros (_ & He & Hsig & _). exfalso. exact (Hnone e He Hsig). }
    split; [intros k H; injection H as <-; reflexivity|].
    split; [intros _; exact (Hpos Hge)|]. split; [reflexivity|exact Hparse].
  - rewrite Hr in *.
    split.
    { split; [discriminate|].
      intros [Hlt | Hnone]; [lia|]. exfalso. exact (Hnone e He Hsig). }
    split.
    { intros e0; split.
      - intros H. injection H as <-.
        split; [exact Hge|]. split; [exact He|]. split; [exact Hsig|].
        exact Hafter.
      - intros (_ & He0 & Hsig0 & Hafter0). f_equal.
        destruct (Z.lt_trichotomy e e0) as [Hlt | [Heq | Hgt]].
        + exfalso. apply (Hafter e0); [lia|exact Hsig0].
        + exact Heq.
        + exfalso. apply (Hafter0 e); [lia|exact Hsig]. }
    split; [intros k H; discriminate|].
    split; [intros _; exact (Hpos Hge)|]. split; [reflexivity|exact Hparse].
Qed.

(** C7.  When the located end record decodes (the 22 bytes of the record
    and the declared comment fit in the rest of the buffer) with a disk
    number other than 0, a disk-with-central-directory other than 0, or an
    entry count for this disk that differs from the total entry count, the
    parse fails with [SpanningUnsupported], status -1, before the entry
    loop is entered: no iteration is recorded and the entry collection is
    untouched.  A disk number of 1 is one such case. *)
Theorem spanning_archive_rejected (s : state) (e : Z) :
  let mem := buf (file s) in
  let size := bufsize (file s) in
  outcome (locate_eocd s) = inr e ->
  22 <= size - e ->
  comment_overflows (file s) e (size - e) = false ->
  le16 mem (e + 0x04) <> 0
  \/ le16 mem (e + 0x06) <> 0
  \/ le16 mem (e + 0x08) <> le16 mem (e + 0x0a) ->
  snd (read_central_dir s) = inl (mkFailure (-1) SpanningUnsupported)
  /\ entry_iters (trace (fst (read_central_dir s))) = entry_iters (trace s)
  /\ entries (file (fst (read_central_dir s))) = entries (file s).
Proof.
  intros mem size Hloc Hlen Hfit Hspan.
  assert (Hloc' : snd (locate_eocd s) = inr e).
  { unfold outcome in Hloc. destruct (snd (locate_eocd s)); congruence. }
  destruct (read_central_dir_located s e Hloc') as [Hf Hr].
  destruct (read_central_dir_trace s) as [_ [Hi _]].
  rewrite Hloc' in Hi.
  assert (Hsp : spanning (eocd_done (file s) e) = true).
  { unfold spanning, eocd_done.
    destruct (commentLen (eocd_fields (file s) e) >? 0);
      cbn [disknum diskWithCentralDir entryCount totalEntryCount
           with_comment eocd_fields]; fold mem; lia. }
  unfold decode_archive in Hf, Hr. unfold archive_iters, loop_entered in Hi.
  fold size in Hf, Hr, Hi. unfold EOCD_LEN in *.
  replace (size - e <? 22) with false in * by (symmetry; apply Z.ltb_ge; lia).
  rewrite Hfit in *. rewrite Hsp in *. cbn [fst snd negb andb] in *.
  split; [exact Hr|]. split; [lia|].
  rewrite Hf. apply eocd_done_same.
Qed.

Lemma spanning_archive_rejected_witness :
  snd (parse (mem_of second_disk) 22)
  = inl (mkFailure (-1) SpanningUnsupported)
  /\ entry_iters (trace (fst (parse (mem_of second_disk) 22))) = O
  /\ entries (file (fst (parse (mem_of second_disk) 22))) = [].
Proof.
  apply (spanning_archive_rejected
           (mkState (init_file (mem_of second_disk) 22) []) 0).
  - vm_compute. reflexivity.
  - vm_compute. discriminate.
  - vm_compute. reflexivity.
  - left. vm_compute. discriminate.
Defined.

(** ** Successful parses *)

(** The records a successful loop decodes are the ones at the consecutive
    cursors, and every one of them has passed the entry decoder. *)
Lemma decode_entries_ok (mem : Z -> byte) (size : Z) (n : nat) :
  forall (c len : Z) (xs : list Zipentry),
    decode_entries mem size n c len = inr xs ->
    xs = map (decoded mem) (cd_cursors mem n c)
    /\ Forall (fun c0 => exists len0 x c1 len1,
                 len0 <= len - (c0 - c)
                 /\ decode_entry mem size c0 len0 = inr (x, c1, len1))
         (cd_cursors mem n c).
Proof.
  induction n as [|n IH]; intros c len xs; cbn [decode_entries cd_cursors map].
  - intros H. injection H as <-. split; [reflexivity|constructor].
  - destruct (decode_entry mem size c len) as [k | [[x c'] len']] eqn:Hd;
      [discriminate|].
    destruct (decode_entries mem size n c' len') as [k | ys] eqn:Hds;
      [discriminate|].
    intros H. injection H as <-.
    destruct (IH c' len' ys Hds) as [Hys Hall].
    pose proof (decode_entry_ok _ _ _ _ _ _ _ Hd)
      as (_ & _ & _ & _ & _ & _ & _ & _ & Hx & Hc' & Hl').
    subst x c' len'. split; [rewrite Hys; reflexivity|].
    constructor.
    + exists len, (decoded mem c), (cd_next mem c),
        (len - (cd_next mem c - c)).
      split; [lia|exact Hd].
    + eapply Forall_impl; [|exact Hall]. cbn beta.
      intros c0 (len0 & x & c1 & len1 & Hlen & Hdec).
      exists len0, x, c1, len1. split; [lia|exact Hdec].
Qed.

(** A successful parse has located the end record, entered the entry loop
    and decoded every declared record; the collection holds them in reverse
    order, in front of what it held before. *)
Lemma read_central_dir_success (s : state) (v : Z) :
  outcome (read_central_dir s) = inr v ->
  let mem := buf (file s) in
  let size := bufsize (file s) in
  v = 0
  /\ exists e cs,
       snd (locate_eocd s) = inr e
       /\ loop_entered (file s) e = true
       /\ cs = cd_cursors mem
                 (Z.to_nat (totalEntryCount (eocd_done (file s) e)))
                 (centralDirOffest (eocd_done (file s) e))
       /\ Forall (fun c0 => exists len0 x c1 len1,
                    len0 <= size - c0
                    /\ decode_entry mem size c0 len0 = inr (x, c1, len1)) cs
       /\ file (fst (read_central_dir s))
          = with_entries (eocd_done (file s) e)
              (rev (map (decoded mem) cs) ++ entries (file s)).
Proof.
  intros Hok mem size. unfold outcome in Hok.
  destruct (snd (locate_eocd s)) as [x | e] eqn:Hloc.
  { destruct (read_central_dir_not_located s x Hloc) as [_ Hr].
    rewrite Hr in Hok. discriminate. }
  destruct (read_central_dir_located s e Hloc) as [Hf Hr].
  rewrite Hr in Hok. clear Hr.
  unfold decode_archive, loop_entered in *. fold mem size in Hok, Hf |- *.
  destruct (size - e <? EOCD_LEN) eqn:E1; [discriminate|].
  destruct (comment_overflows (file s) e (size - e)) eqn:E2; [discriminate|].
  destruct (spanning (eocd_done (file s) e)) eqn:E3; [discriminate|].
  cbn [fst snd negb andb] in *.
  set (f2 := eocd_done (file s) e) in *.
  destruct (decode_entries mem size (Z.to_nat (totalEntryCount f2))
              (centralDirOffest f2) (size - centralDirOffest f2))
    as [k | xs] eqn:Hds; [discriminate|].
  injection Hok as <-. split; [reflexivity|].
  destruct (decode_entries_ok _ _ _ _ _ _ Hds) as [Hxs Hall].
  pose proof (decode_entries_prefix mem size
                (Z.to_nat (totalEntryCount f2)) (centralDirOffest f2)
                (size - centralDirOffest f2)) as Hpre.
  rewrite Hds in Hpre. destruct Hpre as [Hpre _].
  exists e, (cd_cursors mem (Z.to_nat (totalEntryCount f2))
               (centralDirOffest f2)).
  split; [reflexivity|].
  split; [fold size; rewrite E1, E2; fold f2; rewrite E3; reflexivity|].
  split; [reflexivity|].
  split.
  - eapply Forall_impl; [|exact Hall]. cbn beta.
    intros c0 (len0 & x & c1 & len1 & Hlen & Hdec).
    exists len0, x, c1, len1. split; [lia|exact Hdec].
  - rewrite Hf, Hpre, Hxs. reflexivity.
Qed.

(** The same for a parse of a fresh descriptor: every entry of the
    collection is the descriptor of a record that passed the decoder. *)
Lemma parse_success_entries (mem : Z -> byte) (size v : Z) :
  outcome (parse mem size) = inr v ->
  Forall (fun x => exists c len c1 len1,
            x = decoded mem c
            /\ decode_entry mem size c len = inr (x, c1, len1))
    (entries (file (fst (parse mem size)))).
Proof.
  intros Hok. unfold parse in *.
  destruct (read_central_dir_success _ _ Hok)
    as (_ & e & cs & _ & _ & _ & Hall & Hf).
  cbn [file buf bufsize entries init_file] in Hall, Hf.
  rewrite Hf. cbn [entries with_entries]. rewrite app_nil_r.
  apply Forall_rev. apply Forall_map.
  eapply Forall_impl; [|exact Hall]. cbn beta.
  intros c0 (len0 & x & c1 & len1 & _ & Hdec).
  pose proof (decode_entry_ok _ _ _ _ _ _ _ Hdec)
    as (_ & _ & _ & _ & _ & _ & _ & _ & Hx & _ & _).
  subst x. exists c0, len0, c1, len1. split; [reflexivity|exact Hdec].
Qed.

(** C2.  Every entry descriptor of a successful parse has its data offset
    inside the buffer, [0 <= data < size]; a stored entry (method 0) has
    [uncompressedSize <= size - data] and a deflated entry (method 8) has
    [compressedSize <= size - data].  For another method no bound on the
    sizes is guaranteed: the archive [other_method] parses with an entry of
    method 1 whose two sizes exceed the buffer; and none is tested: a record
    of another method that passes the tests up to the one on the data offset
    is decoded whatever its sizes. *)
Theorem entry_data_within_buffer :
  (forall (mem : Z -> byte) (size v : Z),
     outcome (parse mem size) = inr v ->
     Forall (fun x => exists d,
               data x = Some d
               /\ 0 <= d < size
               /\ (compressionMethod x = kCompressionStored ->
                   uncompressedSize x <= size - d)
               /\ (compressionMethod x = kCompressionDeflate ->
                   compressedSize x <= size - d))
       (entries (file (fst (parse mem size)))))
  /\ (exists x d,
        outcome (parse (mem_of other_method) (len_of other_method)) = inr 0
        /\ entries (file (fst (parse (mem_of other_method)
                                 (len_of other_method)))) = [x]
        /\ compressionMethod x = 1
        /\ data x = Some d
        /\ len_of other_method - d < uncompressedSize x
        /\ len_of other_method - d < compressedSize x)
  /\ (forall (e : Zipentry) (c len : Z) (s : state),
        let mem := buf (file s) in
        let size := bufsize (file s) in
        46 <= len ->
        le32 mem c = ENTRY_SIGNATURE ->
        0 < le16 mem (c + 0x1c) ->
        46 + le16 mem (c + 0x1c) + le16 mem (c + 0x1e) + le16 mem (c + 0x20)
        <= len ->
        le32 mem (c + 0x2a) < size ->
        data_offset mem c < size ->
        le16 mem (c + 0x0a) <> kCompressionStored ->
        le16 mem (c + 0x0a) <> kCompressionDeflate ->
        exists x c' len',
          outcome (read_central_directory_entry e c len s)
          = inr (x, c', len')
          /\ compressionMethod x = le16 mem (c + 0x0a)
          /\ compressedSize x = le32 mem (c + 0x14)
          /\ uncompressedSize x = le32 mem (c + 0x18)).
Proof.
  split; [|split].
  3:{ intros e c len s mem size H46 Hsig Hname Hfit Hloc Hdata Hst Hdf.
      destruct (read_central_directory_entry_run e c len s) as [_ Ho].
      rewrite Ho. fold mem size.
      exists (decoded mem c), (cd_next mem c), (len - (cd_next mem c - c)).
      split; [|repeat split].
      unfold decode_entry, cd_next, cd_namelen, cd_extralen, cd_commentlen,
        cd_local, cd_method, ENTRY_LEN, kCompressionStored,
        kCompressionDeflate in *.
      replace (len <? 46) with false by lia.
      rewrite Hsig, Z.eqb_refl. cbn [negb].
      replace (le16 mem (c + 28) =? 0) with false by lia.
      replace (len <? _) with false by lia.
      replace (size <=? le32 mem (c + 42)) with false by lia.
      replace (size <=? data_offset mem c) with false by lia.
      replace (le16 mem (c + 10) =? 0) with false by lia.
      replace (le16 mem (c + 10) =? 8) with false by lia.
      reflexivity. }
  - intros mem size v Hok.
    eapply Forall_impl; [|exact (parse_success_entries mem size v Hok)].
    cbn beta. intros x (c & len & c1 & len1 & Hx & Hdec).
    pose proof (decode_entry_ok _ _ _ _ _ _ _ Hdec)
      as (_ & _ & _ & _ & _ & Hdata & Hst & Hdf & _ & _ & _).
    subst x. exists (data_offset mem c).
    cbn [data decoded compressionMethod uncompressedSize compressedSize].
    assert (Hpos : 0 <= data_offset mem c).
    { unfold data_offset, to_uint. apply Z.mod_pos_bound. lia. }
    assert (Hle : to_uint (size - data_offset mem c)
                  <= size - data_offset mem c).
    { unfold to_uint. apply Z.mod_le; lia. }
    unfold kCompressionStored, kCompressionDeflate.
    split; [reflexivity|]. split; [lia|].
    split; intros Hm; [specialize (Hst Hm)|specialize (Hdf Hm)]; lia.
  - eexists. exists 31.
    split; [vm_compute; reflexivity|].
    split; [vm_compute; reflexivity|].
    vm_compute. repeat split.
Qed.

Lemma entry_data_within_buffer_witness :
  Forall (fun x => exists d,
            data x = Some d
            /\ 0 <= d < 206
            /\ (compressionMethod x = kCompressionStored ->
                uncompressedSize x <= 206 - d)
            /\ (compressionMethod x = kCompressionDeflate ->
                compressedSize x <= 206 - d))
    (entries (file (fst (parse (mem_of two_entries) 206)))).
Proof.
  apply (proj1 entry_data_within_buffer (mem_of two_entries) 206 0).
  vm_compute. reflexivity.
Defined.

(** ** The data offset *)

(** What a successful parse knows of each entry: the cursor [c] of its
    record, and that the data offset is the sum, reduced modulo [2^32], of
    the local header offset, the size of a local header, the length of the
    name in the central directory and the extra-field length the local
    header records. *)
Lemma parse_success_data (mem : Z -> byte) (size v : Z) :
  outcome (parse mem size) = inr v ->
  Forall (fun x => exists c,
            fileName x = Some (c + 46)
            /\ fileNameLength x = le16 mem (c + 0x1c)
            /\ le32 mem (c + 0x2a) < size
            /\ data x
               = Some ((le32 mem (c + 0x2a) + 30 + le16 mem (c + 0x1c)
                        + le16 mem (le32 mem (c + 0x2a) + 0x1c))
                       mod 2 ^ 32)
            /\ (le32 mem (c + 0x2a) + 30 + le16 mem (c + 0x1c)
                + le16 mem (le32 mem (c + 0x2a) + 0x1c)) mod 2 ^ 32 < size)
    (entries (file (fst (parse mem size)))).
Proof.
  intros Hok.
  eapply Forall_impl; [|exact (parse_success_entries mem size v Hok)].
  cbn beta. intros x (c & len & c1 & len1 & Hx & Hdec).
  pose proof (decode_entry_ok _ _ _ _ _ _ _ Hdec)
    as (_ & _ & _ & _ & Hloc & Hdata & _ & _ & _ & _ & _).
  subst x. exists c. repeat split; assumption.
Qed.

(** The bounds test on the data offset sees the reduced sum: an entry that
    passes the tests on the record and on the local header offset fails
    with [InvalidDataOffset] exactly when the sum reduced modulo [2^32] is
    not below the size of the buffer. *)
Lemma invalid_data_offset_iff (e : Zipentry) (c len : Z) (s : state) :
  let mem := buf (file s) in
  let size := bufsize (file s) in
  46 <= len ->
  le32 mem c = ENTRY_SIGNATURE ->
  0 < le16 mem (c + 0x1c) ->
  46 + le16 mem (c + 0x1c) + le16 mem (c + 0x1e) + le16 mem (c + 0x20)
  <= len ->
  le32 mem (c + 0x2a) < size ->
  (outcome (read_central_directory_entry e c len s) = inl InvalidDataOffset
   <-> size <= (le32 mem (c + 0x2a) + 30 + le16 mem (c + 0x1c)
                + le16 mem (le32 mem (c + 0x2a) + 0x1c)) mod 2 ^ 32).
Proof.
  intros mem size H46 Hsig Hname Hfit Hloc.
  destruct (read_central_directory_entry_run e c len s) as [_ Ho].
  rewrite Ho. fold mem size.
  unfold decode_entry, cd_next, data_offset, data_sum, local_extralen,
    cd_namelen, cd_extralen, cd_commentlen, cd_local, to_uint,
    ENTRY_LEN, LFH_SIZE.
  replace (len <? 46) with false by (symmetry; apply Z.ltb_ge; lia).
  rewrite Hsig, Z.eqb_refl. cbn [negb].
  replace (le16 mem (c + 28) =? 0) with false
    by (symmetry; apply Z.eqb_neq; lia).
  replace (len <? _) with false by (symmetry; apply Z.ltb_ge; lia).
  replace (size <=? le32 mem (c + 42)) with false
    by (symmetry; apply Z.leb_gt; lia).
  destruct (size <=? _) eqn:Eoff.
  - apply Z.leb_le in Eoff. split; [intros _; exact Eoff|reflexivity].
  - apply Z.leb_gt in Eoff. split; [|lia].
    destruct (_ && _); [discriminate|].
    destruct (_ && _); discriminate.
Qed.

(** C10.  The data offset of an entry is computed in unsigned 32-bit
    arithmetic: what is stored is the sum of the local header offset, 30,
    the name length and the local extra-field length, reduced modulo
    [2^32], and the bounds test is applied to that value.  On the buffer
    [wrap_mem] of 4 GiB and 100 bytes the sum is [2^32 + 65556], at least
    [2^32] and beyond the end of the buffer, while the stored offset is
    65556 and the parse succeeds.  In general, an entry that passes the
    earlier tests is rejected with [InvalidDataOffset] exactly when the
    reduced sum is not below the size of the buffer. *)
Theorem data_offset_wraps_at_32_bits :
  (forall (mem : Z -> byte) (size v : Z),
     outcome (parse mem size) = inr v ->
     Forall (fun x => exists c,
               fileName x = Some (c + 46)
               /\ data x
                  = Some ((le32 mem (c + 0x2a) + 30 + fileNameLength x
                           + le16 mem (le32 mem (c + 0x2a) + 0x1c))
                          mod 2 ^ 32)
               /\ 0 <= (le32 mem (c + 0x2a) + 30 + fileNameLength x
                        + le16 mem (le32 mem (c + 0x2a) + 0x1c))
                       mod 2 ^ 32 < size)
       (entries (file (fst (parse mem size)))))
  /\ (exists x,
        outcome (parse wrap_mem wrap_size) = inr 0
        /\ entries (file (fst (parse wrap_mem wrap_size))) = [x]
        /\ fileName x = Some (0 + 46)
        /\ le32 wrap_mem (0 + 0x2a) + 30 + fileNameLength x
           + le16 wrap_mem (le32 wrap_mem (0 + 0x2a) + 0x1c)
           = 2 ^ 32 + 65556
        /\ wrap_size < 2 ^ 32 + 65556
        /\ data x = Some 65556)
  /\ (forall (e : Zipentry) (c len : Z) (s : state),
        let mem := buf (file s) in
        let size := bufsize (file s) in
        46 <= len ->
        le32 mem c = ENTRY_SIGNATURE ->
        0 < le16 mem (c + 0x1c) ->
        46 + le16 mem (c + 0x1c) + le16 mem (c + 0x1e) + le16 mem (c + 0x20)
        <= len ->
        le32 mem (c + 0x2a) < size ->
        (outcome (read_central_directory_entry e c len s)
         = inl InvalidDataOffset
         <-> size <= (le32 mem (c + 0x2a) + 30 + le16 mem (c + 0x1c)
                      + le16 mem (le32 mem (c + 0x2a) + 0x1c)) mod 2 ^ 32)).
Proof.
  split; [|split].
  - intros mem size v Hok.
    eapply Forall_impl; [|exact (parse_success_data mem size v Hok)].
    cbn beta. intros x (c & Hname & Hlen & _ & Hdata & Hlt).
    exists c. rewrite Hlen. split; [exact Hname|]. split; [exact Hdata|].
    split; [apply Z.mod_pos_bound; lia|exact Hlt].
  - eexists. split; [vm_compute; reflexivity|].
    split; [vm_compute; reflexivity|].
    vm_compute. repeat split.
  - exact invalid_data_offset_iff.
Qed.

Lemma data_offset_wraps_at_32_bits_witness :
  Forall (fun x => exists c,
            fileName x = Some (c + 46)
            /\ data x
               = Some ((le32 wrap_mem (c + 0x2a) + 30 + fileNameLength x
                        + le16 wrap_mem (le32 wrap_mem (c + 0x2a) + 0x1c))
                       mod 2 ^ 32)
            /\ 0 <= (le32 wrap_mem (c + 0x2a) + 30 + fileNameLength x
                     + le16 wrap_mem (le32 wrap_mem (c + 0x2a) + 0x1c))
                    mod 2 ^ 32 < wrap_size)
    (entries (file (fst (parse wrap_mem wrap_size)))).
Proof.
  apply (proj1 data_offset_wraps_at_32_bits wrap_mem wrap_size 0).
  vm_compute. reflexivity.
Defined.

(** C6.  The data offset of an entry is the sum of the local header offset,
    30, the name length of the central-directory record and the 16-bit
    value at offset 0x1c of the local header, whatever extra-field length
    the central-directory record declares, as long as that sum is below
    [2^32]; it is so for every buffer of at most [2^32 - 131100] bytes.
    With such a sum, an entry that passes the tests on the record and on
    the local header offset is rejected with [InvalidDataOffset] exactly
    when the sum is not below the size of the buffer.

    The code keeps the sum in an [unsigned int] and tests what is left of
    it.  On [wrap_mem], a buffer of 4 GiB and 100 bytes, the sum is
    [2^32 + 65556] and lies beyond the end of the buffer; the entry is not
    rejected, and its data offset is 65556. *)
Theorem data_offset_from_local_header :
  (forall (mem : Z -> byte) (size v : Z),
     outcome (parse mem size) = inr v ->
     Forall (fun x => exists c,
               fileName x = Some (c + 46)
               /\ fileNameLength x = le16 mem (c + 0x1c)
               /\ let sum := le32 mem (c + 0x2a) + 30 + fileNameLength x
                             + le16 mem (le32 mem (c + 0x2a) + 0x1c) in
                  (sum < 2 ^ 32 -> data x = Some sum /\ 0 <= sum < size)
                  /\ (size <= 2 ^ 32 - 131100 -> sum < 2 ^ 32))
       (entries (file (fst (parse mem size)))))
  /\ (forall (e : Zipentry) (c len : Z) (s : state),
        let mem := buf (file s) in
        let size := bufsize (file s) in
        let sum := le32 mem (c + 0x2a) + 30 + le16 mem (c + 0x1c)
                   + le16 mem (le32 mem (c + 0x2a) + 0x1c) in
        46 <= len ->
        le32 mem c = ENTRY_SIGNATURE ->
        0 < le16 mem (c + 0x1c) ->
        46 + le16 mem (c + 0x1c) + le16 mem (c + 0x1e) + le16 mem (c + 0x20)
        <= len ->
        le32 mem (c + 0x2a) < size ->
        sum < 2 ^ 32 ->
        (outcome (read_central_directory_entry e c len s)
         = inl InvalidDataOffset
         <-> size <= sum))
  /\ (exists x,
        outcome (parse wrap_mem wrap_size) = inr 0
        /\ entries (file (fst (parse wrap_mem wrap_size))) = [x]
        /\ fileName x = Some (0 + 46)
        /\ le32 wrap_mem (0 + 0x2a) + 30 + fileNameLength x
           + le16 wrap_mem (le32 wrap_mem (0 + 0x2a) + 0x1c)
           = 2 ^ 32 + 65556
        /\ wrap_size <= 2 ^ 32 + 65556
        /\ data x = Some 65556).
Proof.
  split; [|split].
  - intros mem size v Hok.
    eapply Forall_impl; [|exact (parse_success_data mem size v Hok)].
    cbn beta. intros x (c & Hname & Hlen & Hloc & Hdata & Hlt).
    exists c. split; [exact Hname|]. split; [exact Hlen|].
    rewrite Hlen. cbv zeta.
    pose proof (le32_range mem (c + 0x2a)) as H1.
    pose proof (le16_range mem (c + 0x1c)) as H2.
    pose proof (le16_range mem (le32 mem (c + 0x2a) + 0x1c)) as H3.
    split.
    + intros Hsmall. rewrite Z.mod_small in Hdata, Hlt by lia.
      split; [exact Hdata|lia].
    + intros Hsize. lia.
  - intros e c len s mem size sum H46 Hsig Hname Hfit Hloc Hsmall.
    pose proof (invalid_data_offset_iff e c len s H46 Hsig Hname Hfit Hloc)
      as Hiff.
    cbv zeta in Hiff. fold mem size in Hiff. fold sum in Hiff.
    pose proof (le32_range mem (c + 0x2a)) as H1.
    pose proof (le16_range mem (c + 0x1c)) as H2.
    pose proof (le16_range mem (le32 mem (c + 0x2a) + 0x1c)) as H3.
    rewrite Z.mod_small in Hiff by (unfold sum; lia).
    exact Hiff.
  - eexists. split; [vm_compute; reflexivity|].
    split; [vm_compute; reflexivity|].
    split; [vm_compute; reflexivity|].
    split; [vm_compute; reflexivity|].
    split; [vm_compute; discriminate|].
    vm_compute. reflexivity.
Qed.

(** On [padded_local_header] the record of the central directory declares
    an extra field of two bytes and the local header one of four: the data
    offset, 35, counts the four. *)
Lemma data_offset_from_local_header_witness :
  le16 (mem_of padded_local_header) (40 + 0x1e) = 2
  /\ le16 (mem_of padded_local_header) (0 + 0x1c) = 4
  /\ map data (entries (file (fst (parse (mem_of padded_local_header) 111))))
     = [Some 35]
  /\ Forall (fun x => exists c,
               fileName x = Some (c + 46)
               /\ fileNameLength x
                  = le16 (mem_of padded_local_header) (c + 0x1c)
               /\ let sum :=
                    le32 (mem_of padded_local_header) (c + 0x2a) + 30
                    + fileNameLength x
                    + le16 (mem_of padded_local_header)
                        (le32 (mem_of padded_local_header) (c + 0x2a)
                         + 0x1c) in
                  (sum < 2 ^ 32 -> data x = Some sum /\ 0 <= sum < 111)
                  /\ (111 <= 2 ^ 32 - 131100 -> sum < 2 ^ 32))
       (entries (file (fst (parse (mem_of padded_local_header) 111)))).
Proof.
  split; [vm_compute; reflexivity|].
  split; [vm_compute; reflexivity|].
  split; [vm_compute; reflexivity|].
  apply (proj1 data_offset_from_local_header (mem_of padded_local_header)
           111 0).
  vm_compute. reflexivity.
Defined.

(** ** Failed parses *)

(** The records decoded before the first failure are the first records of
    the central directory. *)
Lemma decode_prefix_cursors (mem : Z -> byte) (size : Z) (n : nat) :
  forall (c len : Z),
    decode_prefix mem size n c len
    = map (decoded mem)
        (firstn (length (decode_prefix mem size n c len))
           (cd_cursors mem n c)).
Proof.
  induction n as [|n IH]; intros c len; cbn [decode_prefix cd_cursors].
  - reflexivity.
  - destruct (decode_entry mem size c len) as [k | [[x c'] len']] eqn:Hd.
    + reflexivity.
    + pose proof (decode_entry_ok _ _ _ _ _ _ _ Hd)
        as (_ & _ & _ & _ & _ & _ & _ & _ & Hx & Hc' & _).
      subst x c'. cbn [length firstn map]. f_equal. apply IH.
Qed.

Lemma read_central_dir_status (s : state) (f : failure) :
  snd (read_central_dir s) = inl f -> status f = -1.
Proof.
  intros Hfail.
  destruct (snd (locate_eocd s)) as [x | e] eqn:Hloc.
  - destruct (read_central_dir_not_located s x Hloc) as [_ Hr].
    rewrite Hr in Hfail. injection Hfail as <-.
    destruct (locate_eocd_spec s) as [_ [Hsmall Hbig]].
    destruct (Z.lt_ge_cases (bufsize (file s)) 22) as [Hlt | Hge].
    + rewrite (Hsmall Hlt) in Hloc. injection Hloc as <-. reflexivity.
    + destruct (Hbig Hge) as [[e [He _]] | [Hr' _]].
      * rewrite He in Hloc. discriminate.
      * rewrite Hr' in Hloc. injection Hloc as <-. reflexivity.
  - destruct (read_central_dir_located s e Hloc) as [_ Hr].
    rewrite Hr in Hfail.
    destruct (snd (decode_archive (file s) e)); [|discriminate].
    injection Hfail as <-. reflexivity.
Qed.

(** C3, as stated, fails on [three_declared]: the end record declares three
    records, two are decoded and linked into the collection, the third
    fails; the parse reports a failure and the collection is not what it
    was at the start. *)
Lemma partial_collection_counterexample :
  outcome (parse (mem_of three_declared) (len_of three_declared))
  = inl Truncated
  /\ length (entries (file (fst (parse (mem_of three_declared)
                                   (len_of three_declared))))) = 2%nat
  /\ entries (file (fst (parse (mem_of three_declared)
                           (len_of three_declared))))
     <> entries (init_file (mem_of three_declared) (len_of three_declared)).
Proof.
  split; [vm_compute; reflexivity|].
  split; [vm_compute; reflexivity|].
  vm_compute. discriminate.
Qed.

(** C3, amended.  Whatever step fails, the parse reports the failure with
    status -1 and returns no result.  The entry collection is left as it
    was when the failure is in locating the end record, in decoding it, in
    the archive-level test or in decoding the first entry; when a later
    entry fails, the descriptors of the records decoded before it stay in
    the collection, latest first: nothing is rolled back. *)
Theorem failed_parse_keeps_decoded_prefix (s : state) (f : failure) :
  snd (read_central_dir s) = inl f ->
  let mem := buf (file s) in
  let size := bufsize (file s) in
  let after := entries (file (fst (read_central_dir s))) in
  status f = -1
  /\ match snd (locate_eocd s) with
     | inl _ => after = entries (file s)
     | inr e =>
         if loop_entered (file s) e then
           let n := Z.to_nat (le16 mem (e + 0x0a)) in
           let c := le32 mem (e + 0x10) in
           let k := length (decode_prefix mem size n c (size - c)) in
           after = rev (map (decoded mem) (firstn k (cd_cursors mem n c)))
                   ++ entries (file s)
           /\ (k < n)%nat
           /\ ((exists x, decode_entry mem size c (size - c) = inl x) ->
               after = entries (file s))
         else after = entries (file s)
     end.
Proof.
  intros Hfail mem size after.
  split; [exact (read_central_dir_status s f Hfail)|].
  subst after.
  destruct (snd (locate_eocd s)) as [x | e] eqn:Hloc.
  - destruct (read_central_dir_not_located s x Hloc) as [Hf _].
    rewrite Hf. reflexivity.
  - destruct (read_central_dir_located s e Hloc) as [Hf Hr].
    rewrite Hr in Hfail. rewrite Hf.
    destruct (eocd_done_same (file s) e) as (_ & _ & Hes & Hn & Hc).
    unfold decode_archive, loop_entered in *.
    fold mem size in Hfail, Hn, Hc |- *.
    destruct (size - e <? EOCD_LEN); [reflexivity|].
    destruct (comment_overflows (file s) e (size - e)); [reflexivity|].
    destruct (spanning (eocd_done (file s) e)); [exact Hes|].
    cbn [fst snd negb andb] in *. rewrite Hn, Hc in *.
    set (n := Z.to_nat (le16 mem (e + 10))) in *.
    set (c := le32 mem (e + 16)) in *.
    pose proof (decode_entries_prefix mem size n c (size - c)) as Hpre.
    destruct (decode_entries mem size n c (size - c)) as [k | xs] eqn:Hds;
      [|discriminate].
    cbn [entries with_entries].
    split; [rewrite <- decode_prefix_cursors; reflexivity|].
    split; [exact Hpre|].
    intros [x Hx]. destruct n as [|n']; [cbn in Hds; discriminate|].
    cbn [decode_prefix]. rewrite Hx. reflexivity.
Qed.

Lemma failed_parse_keeps_decoded_prefix_witness :
  let s := mkState (init_file (mem_of three_declared) 206) [] in
  status (mkFailure (-1) Truncated) = -1
  /\ entries (file (fst (read_central_dir s)))
     = rev (map (decoded (mem_of three_declared))
              (firstn 2 (cd_cursors (mem_of three_declared) 3 82)))
       ++ []
  /\ (2 < 3)%nat
  /\ ((exists x, decode_entry (mem_of three_declared) 206 82 (206 - 82)
                 = inl x) ->
      entries (file (fst (read_central_dir s))) = []).
Proof.
  exact (failed_parse_keeps_decoded_prefix
           (mkState (init_file (mem_of three_declared) 206) [])
           (mkFailure (-1) Truncated) eq_refl).
Defined.

(** ** Well-formed archives *)


Lemma cd_cursors_length (mem : Z -> byte) (n : nat) :
  forall c, length (cd_cursors mem n c) = n.
Proof.
  induction n as [|n IH]; intros c; cbn [cd_cursors length];
    [reflexivity|]. rewrite IH. reflexivity.
Qed.


(** *** Memory outside the buffer *)

Section Same_buffer.

Variables (mem mem' : Z -> byte) (size : Z).
Hypothesis Hsame : forall i, 0 <= i < size -> mem' i = mem i.

Lemma le16_same (p : Z) :
  0 <= p -> p + 2 <= size -> le16 mem' p = le16 mem p.
Proof. intros H0 H1. apply le16_ext; apply Hsame; lia. Qed.

Lemma le32_same (p : Z) :
  0 <= p -> p + 4 <= size -> le32 mem' p = le32 mem p.
Proof. intros H0 H1. apply le32_ext. intros i Hi. apply Hsame. lia. Qed.




End Same_buffer.






(** ** Truncated buffers *)

(** C8, as stated, fails on [trailing_byte], the archive [two_entries]
    followed by one more byte: the parse succeeds, and it still succeeds
    when the final byte is removed. *)
Lemma truncation_counterexample :
  outcome (parse (mem_of trailing_byte) (len_of trailing_byte)) = inr 0
  /\ len_of (removelast trailing_byte) = len_of trailing_byte - 1
  /\ outcome (parse (mem_of (removelast trailing_byte))
                (len_of (removelast trailing_byte))) = inr 0.
Proof.
  split; [vm_compute; reflexivity|].
  split; vm_compute; reflexivity.
Qed.

(** C8, amended.  For every buffer on which the parse succeeds and whose
    end record, together with the comment it declares, ends exactly at the
    end of the buffer, parsing the buffer with its final byte removed fails:
    with [NotAZip] when nothing but the 22 bytes of the record was there,
    with [Truncated] otherwise.  Bytes that follow the comment are
    tolerated, and removing one of them changes nothing. *)
Theorem truncated_archive_rejected (mem mem' : Z -> byte) (size e v : Z) :
  outcome (parse mem size) = inr v ->
  outcome (locate_eocd (mkState (init_file mem size) [])) = inr e ->
  e + 22 + le16 mem (e + 0x14) = size ->
  (forall i, 0 <= i < size - 1 -> mem' i = mem i) ->
  (size = 22 -> outcome (parse mem' (size - 1)) = inl NotAZip)
  /\ (size <> 22 -> outcome (parse mem' (size - 1)) = inl Truncated).
Proof.
  intros _ Hloc Hend Hsame.
  set (s := mkState (init_file mem size) []) in *.
  set (s' := mkState (init_file mem' (size - 1)) []).
  pose proof (le16_range mem (e + 0x14)) as Hclen.
  destruct (locate_eocd_spec s) as [_ [Hsmall Hbig]].
  cbn [s file buf bufsize init_file] in Hsmall, Hbig.
  unfold outcome in Hloc.
  assert (Hfound : 22 <= size
                   /\ window_start size <= e <= size - 4
                   /\ has_signature mem e
                   /\ forall x, e < x <= size - 4 -> ~ has_signature mem x).
  { destruct (Z.lt_ge_cases size 22) as [Hlt | Hge].
    - rewrite (Hsmall Hlt) in Hloc. discriminate.
    - destruct (Hbig Hge) as [[e' [He' Hrest]] | [Hr _]].
      + rewrite He' in Hloc. injection Hloc as <-.
        split; [exact Hge|exact Hrest].
      + rewrite Hr in Hloc. discriminate. }
  destruct Hfound as (Hsize & He & Hsig & Hafter).
  assert (He0 : 0 <= e) by (unfold window_start in He; lia).
  split.
  - intros H22.
    destruct (locate_eocd_spec s') as [_ [Hsmall' _]].
    cbn [s' file buf bufsize init_file] in Hsmall'.
    destruct (read_central_dir_not_located s' _ (Hsmall' ltac:(lia)))
      as [_ Hr].
    unfold parse, outcome. fold s'. rewrite Hr. reflexivity.
  - intros H22.
    assert (Hloc' : snd (locate_eocd s') = inr e).
    { apply locate_eocd_found; cbn [s' file buf bufsize init_file].
      - lia.
      - unfold window_start in *. lia.
      - unfold has_signature in *. rewrite <- Hsig.
        apply (le32_same mem mem' (size - 1) Hsame); lia.
      - intros x Hx Hsig'. apply (Hafter x); [lia|].
        unfold has_signature in *. rewrite <- Hsig'. symmetry.
        apply (le32_same mem mem' (size - 1) Hsame); lia. }
    destruct (read_central_dir_located s' e Hloc') as [_ Hr].
    unfold parse, outcome. fold s'. rewrite Hr.
    unfold decode_archive, comment_overflows, EOCD_LEN.
    cbn [s' file buf bufsize init_file].
    destruct (size - 1 - e <? 22) eqn:Elen; [reflexivity|].
    apply Z.ltb_ge in Elen.
    change (commentLen (eocd_fields (init_file mem' (size - 1)) e))
      with (le16 mem' (e + 0x14)).
    rewrite (le16_same mem mem' (size - 1) Hsame) by lia.
    replace ((le16 mem (e + 20) >? 0)
             && (22 + le16 mem (e + 20) >? size - 1 - e))
      with true by lia.
    reflexivity.
Qed.

Lemma truncated_archive_rejected_witness :
  (206 = 22 -> outcome (parse (mem_of two_entries) (206 - 1)) = inl NotAZip)
  /\ (206 <> 22 ->
      outcome (parse (mem_of two_entries) (206 - 1)) = inl Truncated).
Proof.
  apply (truncated_archive_rejected
           (mem_of two_entries) (mem_of two_entries) 206 184 0).
  - vm_compute. reflexivity.
  - vm_compute. reflexivity.
  - vm_compute. reflexivity.
  - intros i _. reflexivity.
Defined.

(** ** The iterations of the entry loop *)

(** A parse that reaches the entry loop, in terms of the loop alone. *)
Lemma read_central_dir_loop (s : state) (e : Z) :
  snd (locate_eocd s) = inr e ->
  loop_entered (file s) e = true ->
  let mem := buf (file s) in
  let size := bufsize (file s) in
  let n := Z.to_nat (le16 mem (e + 0x0a)) in
  let c := le32 mem (e + 0x10) in
  snd (read_central_dir s)
  = match decode_entries mem size n c (size - c) with
    | inl k => inl (mkFailure (-1) k)
    | inr _ => inr 0
    end
  /\ file (fst (read_central_dir s))
     = with_entries (eocd_done (file s) e)
         (rev (decode_prefix mem size n c (size - c)) ++ entries (file s))
  /\ entry_iters (trace (fst (read_central_dir s)))
     = (entry_iters (trace s)
        + (length (decode_prefix mem size n c (size - c))
           + match decode_entries mem size n c (size - c) with
             | inl _ => 1
             | inr _ => 0
             end))%nat.
Proof.
  intros Hloc Hloop mem size n c.
  destruct (read_central_dir_located s e Hloc) as [Hf Hr].
  destruct (read_central_dir_trace s) as [_ [Hi _]].
  rewrite Hloc in Hi. unfold archive_iters in Hi. rewrite Hloop in Hi.
  destruct (eocd_done_same (file s) e) as (_ & _ & _ & Hn & Hc).
  rewrite Hn, Hc in Hi. fold mem size n c in Hi.
  unfold decode_archive in Hf, Hr. unfold loop_entered in Hloop.
  destruct (bufsize (file s) - e <? EOCD_LEN); [discriminate|].
  destruct (comment_overflows (file s) e (bufsize (file s) - e));
    [discriminate|].
  destruct (spanning (eocd_done (file s) e)); [discriminate|].
  cbn [fst snd] in Hf, Hr. rewrite Hn, Hc in Hf, Hr.
  fold mem size n c in Hf, Hr.
  split; [|split; [exact Hf|exact Hi]].
  rewrite Hr. destruct (decode_entries mem size n c (size - c)); reflexivity.
Qed.

(** Only the entry loop records iterations: the field decoders, the scan,
    the decoding of the end record and the entry decoder leave the list of
    iteration heads as it is. *)
Lemma eocd_scan_heads (fuel : nat) :
  forall (p start : Z) (s : state),
    iter_heads (trace (fst (eocd_scan fuel p start s)))
    = iter_heads (trace s).
Proof.
  induction fuel as [|fuel IH]; intros p start s; cbn [eocd_scan].
  - reflexivity.
  - destruct (p >=? start); [|reflexivity].
    rewrite !run_bind, run_emit, !run_bind, run_load.
    destruct (_ =? 0x50).
    + rewrite !run_bind, !run_read_le_int.
      destruct (_ =? CD_SIGNATURE); [reflexivity|].
      rewrite IH. reflexivity.
    + rewrite IH. reflexivity.
Qed.

Lemma locate_eocd_heads (s : state) :
  iter_heads (trace (fst (locate_eocd s))) = iter_heads (trace s).
Proof.
  unfold locate_eocd. rewrite run_bind. cbn [get_file].
  destruct (bufsize (file s) <? EOCD_LEN); [reflexivity|].
  rewrite run_bind.
  match goal with
  | |- context [eocd_scan ?f ?p ?st s] =>
      pose proof (eocd_scan_heads f p st s) as H;
      destruct (eocd_scan f p st s) as [s1 r1]
  end.
  cbn [fst] in H.
  destruct r1 as [x | q]; [exact H|].
  destruct (q <? _); exact H.
Qed.

Lemma read_central_dir_values_heads (e len : Z) (s : state) :
  iter_heads (trace (fst (read_central_dir_values e len s)))
  = iter_heads (trace s).
Proof.
  unfold read_central_dir_values, EOCD_LEN.
  destruct (len <? 22); [reflexivity|].
  repeat run_step. rewrite !run_put_file. run_step.
  cbn [file commentLen trace].
  destruct (_ >? 0); [|reflexivity].
  destruct (_ >? len); reflexivity.
Qed.

Lemma read_central_directory_entry_heads (e : Zipentry) (c len : Z)
    (s : state) :
  iter_heads (trace (fst (read_central_directory_entry e c len s)))
  = iter_heads (trace s).
Proof.
  unfold read_central_directory_entry.
  run_step.
  destruct (len <? ENTRY_LEN); [reflexivity|].
  run_step.
  destruct (negb _); [reflexivity|].
  repeat run_step.
  cbn [fileNameLength fileName compressionMethod uncompressedSize
       compressedSize data with_fixed with_fileName with_data].
  destruct (negb _); [|reflexivity].
  destruct (_ >? _); [reflexivity|].
  destruct (_ >? _); [reflexivity|].
  destruct (_ >? _); [reflexivity|].
  destruct (_ >=? _); [reflexivity|].
  repeat run_step.
  cbn [fileNameLength fileName compressionMethod uncompressedSize
       compressedSize data with_fixed with_fileName with_data].
  destruct (_ || _); [reflexivity|].
  destruct (_ && _); [reflexivity|].
  destruct (_ && _); reflexivity.
Qed.

(** The entry loop records the heads [loop_heads] lists. *)
Lemma read_entries_heads (n : nat) :
  forall (i c len : Z) (s : state),
    iter_heads (trace (fst (read_entries n i c len s)))
    = rev (loop_heads (buf (file s)) (bufsize (file s)) n i c len)
      ++ iter_heads (trace s).
Proof.
  induction n as [|n IH]; intros i c len s; cbn [read_entries loop_heads].
  - reflexivity.
  - rewrite !run_bind, run_emit, run_bind, run_bail.
    destruct (read_central_directory_entry_run zero_entry c len
                (logged [EntryIter i c len] s)) as [Hf Ho].
    pose proof (read_central_directory_entry_heads zero_entry c len
                  (logged [EntryIter i c len] s)) as Hh.
    rewrite file_logged in Hf, Ho. rewrite trace_logged in Hh.
    cbn [app iter_heads] in Hh.
    unfold outcome in Ho.
    destruct (read_central_directory_entry zero_entry c len
                (logged [EntryIter i c len] s)) as [s1 r1].
    cbn [fst snd] in Hf, Ho, Hh.
    destruct r1 as [e1 | [[x c'] len']].
    + rewrite <- Ho. cbn [fst rev app]. exact Hh.
    + rewrite <- Ho. rewrite run_bind. cbn [get_file].
      rewrite run_bind, run_put_file. rewrite Hf.
      rewrite IH. cbn [file trace buf bufsize rev].
      rewrite Hh, <- app_assoc. reflexivity.
Qed.

(** The heads of the loop, one by one: the indices count from [i], the
    first head is the cursor the loop is started with, a head whose record
    is decoded is followed by the head at the end of that record unless
    the loop is over, and a head whose record fails is the last one. *)
Lemma loop_heads_chain (mem : Z -> byte) (size : Z) (n : nat) :
  forall (i c len : Z),
    (length (loop_heads mem size n i c len) <= n)%nat
    /\ (forall xs, decode_entries mem size n c len = inr xs ->
          length (loop_heads mem size n i c len) = n)
    /\ (n <> O -> nth_error (loop_heads mem size n i c len) 0
                  = Some (i, c, len))
    /\ forall (j : nat) (ij cj lj : Z),
         nth_error (loop_heads mem size n i c len) j = Some (ij, cj, lj) ->
         ij = i + Z.of_nat j
         /\ match decode_entry mem size cj lj with
            | inr (_, c', l') =>
                ((S j < n)%nat ->
                 nth_error (loop_heads mem size n i c len) (S j)
                 = Some (ij + 1, c', l'))
            | inl k =>
                length (loop_heads mem size n i c len) = S j
                /\ decode_entries mem size n c len = inl k
            end.
Proof.
  induction n as [|n IH]; intros i c len; cbn [loop_heads decode_entries].
  - split; [cbn [length]; lia|].
    split; [reflexivity|].
    split; [intros H; exfalso; apply H; reflexivity|].
    intros j ij cj lj H. destruct j; discriminate.
  - destruct (decode_entry mem size c len) as [k | [[x c'] len']] eqn:Edec.
    + split; [cbn [length]; lia|].
      split; [intros xs H; discriminate|].
      split; [reflexivity|].
      intros j ij cj lj H. destruct j as [|j].
      * cbn [nth_error] in H. injection H as <- <- <-.
        split; [lia|]. rewrite Edec. split; reflexivity.
      * cbn [nth_error] in H. destruct j; discriminate.
    + destruct (IH (i + 1) c' len') as (Hlen & Hall & Hfirst & Hnth).
      split; [cbn [length]; lia|].
      split.
      { intros xs H. cbn [length]. f_equal.
        destruct (decode_entries mem size n c' len') as [k | ys];
          [discriminate|].
        apply (Hall ys). reflexivity. }
      split; [reflexivity|].
      intros j ij cj lj H. destruct j as [|j].
      * cbn [nth_error] in H. injection H as <- <- <-.
        split; [lia|]. rewrite Edec. intros Hj.
        cbn [nth_error]. apply Hfirst. lia.
      * cbn [nth_error] in H.
        destruct (Hnth j ij cj lj H) as [Hi Hnext].
        split; [lia|].
        destruct (decode_entry mem size cj lj) as [k | [[y c2] l2]].
        -- destruct Hnext as [Hl Hd]. cbn [length].
           split; [congruence|]. rewrite Hd. reflexivity.
        -- intros Hj. cbn [nth_error]. apply Hnext. lia.
Qed.

(** One head for each record decoded and one for the record that fails. *)
Lemma loop_heads_length (mem : Z -> byte) (size : Z) (n : nat) :
  forall (i c len : Z),
    length (loop_heads mem size n i c len)
    = (length (decode_prefix mem size n c len)
       + match decode_entries mem size n c len with
         | inl _ => 1
         | inr _ => 0
         end)%nat.
Proof.
  induction n as [|n IH]; intros i c len;
    cbn [loop_heads decode_prefix decode_entries length].
  - reflexivity.
  - destruct (decode_entry mem size c len) as [k | [[x c'] len']].
    + reflexivity.
    + cbn [length]. rewrite (IH (i + 1) c' len').
      destruct (decode_entries mem size n c' len'); reflexivity.
Qed.

(** The heads [read_central_dir] records: none when the end record is not
    located or the loop is not reached, those of the loop otherwise. *)
Lemma read_central_dir_heads (s : state) :
  iter_heads (trace (fst (read_central_dir s)))
  = rev (match snd (locate_eocd s) with
         | inl _ => []
         | inr e =>
             if loop_entered (file s) e then
               let f2 := eocd_done (file s) e in
               loop_heads (buf (file s)) (bufsize (file s))
                 (Z.to_nat (totalEntryCount f2)) 0 (centralDirOffest f2)
                 (bufsize (file s) - centralDirOffest f2)
             else []
         end)
    ++ iter_heads (trace s).
Proof.
  unfold read_central_dir, loop_entered, comment_overflows.
  rewrite run_bind.
  destruct (locate_eocd_spec s) as [Hf _].
  pose proof (locate_eocd_heads s) as Lh.
  destruct (locate_eocd s) as [s1 r1]. cbn [fst snd] in *.
  destruct r1 as [x | e]; [exact Lh|].
  rewrite run_bind. cbn [get_file]. rewrite run_bind, run_bail.
  rewrite Z.add_0_l, Hf.
  destruct (read_central_dir_values_run e (bufsize (file s) - e) s1)
    as [Hshort Hlong].
  pose proof (read_central_dir_values_heads e (bufsize (file s) - e) s1)
    as Vh.
  rewrite Hf in Hshort, Hlong. unfold EOCD_LEN in *.
  destruct (read_central_dir_values e (bufsize (file s) - e) s1)
    as [s2 r2].
  cbn [fst snd] in Hshort, Hlong, Vh.
  destruct (bufsize (file s) - e <? 22) eqn:Elen.
  { apply Z.ltb_lt in Elen. destruct (Hshort Elen) as [_ H2]. subst r2.
    cbn [fst negb andb rev app]. congruence. }
  apply Z.ltb_ge in Elen. specialize (Hlong Elen). cbn [negb andb].
  destruct ((commentLen (eocd_fields (file s) e) >? 0) && _) eqn:Ecom.
  { destruct Hlong as [_ H2]. subst r2.
    cbn [fst negb andb rev app]. congruence. }
  destruct Hlong as [H1 H2]. subst r2.
  change (file s2 = eocd_done (file s) e) in H1.
  rewrite run_bind. cbn [get_file negb andb]. rewrite H1.
  set (f2 := eocd_done (file s) e) in *.
  fold (spanning f2).
  destruct (spanning f2) eqn:Espan.
  { cbn [raise fst negb rev app]. congruence. }
  cbn [negb]. rewrite run_bind, !Z.add_0_l.
  destruct (eocd_done_same (file s) e) as (Hb & Hsz & _ & _ & _).
  fold f2 in Hb, Hsz. rewrite Hsz.
  pose proof (read_entries_heads (Z.to_nat (totalEntryCount f2)) 0
                (centralDirOffest f2)
                (bufsize (file s) - centralDirOffest f2) s2) as Rh.
  rewrite H1, Hb, Hsz in Rh.
  destruct (read_entries _ _ _ _ s2) as [s3 r3]. cbn [fst] in Rh.
  assert (Hgoal : iter_heads (trace s3)
    = rev (loop_heads (buf (file s)) (bufsize (file s))
             (Z.to_nat (totalEntryCount f2)) 0 (centralDirOffest f2)
             (bufsize (file s) - centralDirOffest f2))
      ++ iter_heads (trace s)).
  { rewrite Rh. congruence. }
  destruct r3; exact Hgoal.
Qed.

(** ** Termination *)

(** C9, as stated, fails on [first_record_rejected]: the end record
    declares two records, the first one is rejected, and the entry loop runs
    one iteration, not two. *)
Lemma entry_loop_count_counterexample :
  let r := parse (mem_of first_record_rejected) 206 in
  totalEntryCount (file (fst r)) = 2
  /\ outcome r = inl InvalidLocalHeaderOffset
  /\ iter_heads (trace (fst r)) = [(0, 82, 124)]
  /\ Z.of_nat (entry_iters (trace (fst r))) <> totalEntryCount (file (fst r)).
Proof.
  split; [vm_compute; reflexivity|].
  split; [vm_compute; reflexivity|].
  split; [vm_compute; reflexivity|].
  vm_compute. discriminate.
Qed.

(** C9, amended.  The parse terminates on every buffer: it is a total
    function whose two loops are bounded.  The backward scan visits at most
    65554 positions, and its result does not depend on the bound it is run
    with once that bound covers the positions left.  The entry loop enters
    at most as many iterations as the total entry count the descriptor
    holds, a 16-bit value, hence at most 65535, and exactly that many when
    the parse succeeds.

    The iterations it enters are the list [heads] of index, cursor and
    remaining length, first iteration first.  No iteration is entered when
    the end record is not located or the loop is not reached; otherwise,
    with a positive count, the first iteration starts at the central
    directory offset with the rest of the buffer.  Iteration [j] has index
    [j].  When the entry decoder accepts the record at its cursor, the
    cursor has advanced by at least 47 bytes, the remaining length is
    shorter by as much, and the next iteration, if the count allows one,
    starts exactly there.  When the decoder rejects the record, the
    iteration is the last one and the parse reports that failure. *)
Theorem parse_terminates_within_bounds (s : state) :
  let r := read_central_dir s in
  let t' := trace (fst r) in
  Z.of_nat (scan_visits t') <= Z.of_nat (scan_visits (trace s)) + 65554
  /\ Z.of_nat (entry_iters t') <= Z.of_nat (entry_iters (trace s)) + 65535
  /\ Z.of_nat (entry_iters t')
     <= Z.of_nat (entry_iters (trace s))
        + Z.max 0 (totalEntryCount (file (fst r)))
  /\ (forall v, snd r = inr v ->
        Z.of_nat (entry_iters t')
        = Z.of_nat (entry_iters (trace s)) + totalEntryCount (file (fst r)))
  /\ (forall (e : Zipentry) (c len : Z) (st : state) x c' len',
        outcome (read_central_directory_entry e c len st) = inr (x, c', len')
        -> c + 47 <= c' /\ len' + 47 <= len /\ c' + len' = c + len)
  /\ (forall (fuel : nat) (p start : Z) (st : state),
        p - start + 1 <= Z.of_nat fuel ->
        eocd_scan fuel p start st
        = eocd_scan (Z.to_nat (p - start + 1)) p start st)
  /\ exists heads : list (Z * Z * Z),
       iter_heads t' = rev heads ++ iter_heads (trace s)
       /\ entry_iters t' = (entry_iters (trace s) + length heads)%nat
       /\ Z.of_nat (length heads) <= Z.max 0 (totalEntryCount (file (fst r)))
       /\ match snd (locate_eocd s) with
          | inl _ => heads = []
          | inr e =>
              if loop_entered (file s) e then
                0 < totalEntryCount (file (fst r)) ->
                nth_error heads 0
                = Some (0, centralDirOffest (file (fst r)),
                        bufsize (file s) - centralDirOffest (file (fst r)))
              else heads = []
          end
       /\ forall (j : nat) (i c l : Z),
            nth_error heads j = Some (i, c, l) ->
            i = Z.of_nat j
            /\ match outcome (read_central_directory_entry zero_entry c l s)
               with
               | inr (_, c', l') =>
                   c + 47 <= c' /\ l' + 47 <= l /\ c' + l' = c + l
                   /\ (Z.of_nat j + 1 < totalEntryCount (file (fst r)) ->
                       nth_error heads (S j) = Some (i + 1, c', l'))
               | inl k => length heads = S j /\ outcome r = inl k
               end.
Proof.
  intros r t'. subst r t'.
  destruct (read_central_dir_trace s) as [Hv [Hi _]].
  split; [exact Hv|].
  assert (Hiters :
    Z.of_nat (entry_iters (trace (fst (read_central_dir s))))
    <= Z.of_nat (entry_iters (trace s)) + 65535
    /\ Z.of_nat (entry_iters (trace (fst (read_central_dir s))))
       <= Z.of_nat (entry_iters (trace s))
          + Z.max 0 (totalEntryCount (file (fst (read_central_dir s))))
    /\ (forall v, snd (read_central_dir s) = inr v ->
          Z.of_nat (entry_iters (trace (fst (read_central_dir s))))
          = Z.of_nat (entry_iters (trace s))
            + totalEntryCount (file (fst (read_central_dir s))))).
  { destruct (snd (locate_eocd s)) as [x | e] eqn:Hloc.
    { destruct (read_central_dir_not_located s x Hloc) as [_ Hr].
      rewrite Hr. repeat split; try lia. intros v H. discriminate. }
    destruct (read_central_dir_located s e Hloc) as [Hf Hr].
    rewrite Hf, Hr. unfold archive_iters, loop_entered, decode_archive in *.
    destruct (bufsize (file s) - e <? EOCD_LEN).
    { cbn [negb andb fst snd] in *. repeat split; try lia.
      intros v H. discriminate. }
    destruct (comment_overflows (file s) e (bufsize (file s) - e)).
    { cbn [negb andb fst snd] in *. repeat split; try lia.
      intros v H. discriminate. }
    destruct (spanning (eocd_done (file s) e)).
    { cbn [negb andb fst snd] in *. repeat split; try lia.
      intros v H. discriminate. }
    cbn [negb andb fst snd totalEntryCount with_entries] in *.
    destruct (eocd_done_same (file s) e) as (_ & _ & _ & Hn & _).
    pose proof (le16_range (buf (file s)) (e + 0x0a)) as Hrange.
    rewrite <- Hn in Hrange.
    set (n := totalEntryCount (eocd_done (file s) e)) in *.
    set (c := centralDirOffest (eocd_done (file s) e)) in *.
    pose proof (decode_entries_prefix (buf (file s)) (bufsize (file s))
                  (Z.to_nat n) c (bufsize (file s) - c)) as Hpre.
    destruct (decode_entries _ _ _ _ _) as [k | xs].
    - repeat split; try lia. intros v H. discriminate.
    - destruct Hpre as [Hpre Hlen]. rewrite Hpre, Hlen in Hi.
      repeat split; try lia. }
  destruct Hiters as (H1 & H2 & H3).
  split; [exact H1|]. split; [exact H2|]. split; [exact H3|].
  assert (Hadvance :
    forall (e : Zipentry) (c len : Z) (st : state) x c' len',
      outcome (read_central_directory_entry e c len st) = inr (x, c', len')
      -> c + 47 <= c' /\ len' + 47 <= len /\ c' + len' = c + len).
  { intros e c len st x c' len' Hrun.
    destruct (read_central_directory_entry_run e c len st) as [_ Ho].
    rewrite Ho in Hrun.
    pose proof (decode_entry_ok _ _ _ _ _ _ _ Hrun)
      as (_ & _ & Hname & _ & _ & _ & _ & _ & _ & Hc' & Hl').
    pose proof (le16_range (buf (file st)) (c + 0x1e)).
    pose proof (le16_range (buf (file st)) (c + 0x20)).
    subst c' len'.
    unfold cd_next, cd_namelen, cd_extralen, cd_commentlen, ENTRY_LEN in *.
    lia. }
  split; [exact Hadvance|].
  split.
  { intros fuel p start st Hfuel. apply eocd_scan_fuel; lia. }
  pose proof (read_central_dir_heads s) as Hh.
  assert (Hnone :
    iter_heads (trace (fst (read_central_dir s)))
    = rev [] ++ iter_heads (trace s) ->
    entry_iters (trace (fst (read_central_dir s)))
    = entry_iters (trace s) ->
    exists heads : list (Z * Z * Z),
      iter_heads (trace (fst (read_central_dir s)))
      = rev heads ++ iter_heads (trace s)
      /\ entry_iters (trace (fst (read_central_dir s)))
         = (entry_iters (trace s) + length heads)%nat
      /\ Z.of_nat (length heads)
         <= Z.max 0 (totalEntryCount (file (fst (read_central_dir s))))
      /\ heads = []
      /\ forall (j : nat) (i c l : Z),
           nth_error heads j = Some (i, c, l) ->
           i = Z.of_nat j
           /\ match outcome (read_central_directory_entry zero_entry c l s)
              with
              | inr (_, c', l') =>
                  c + 47 <= c' /\ l' + 47 <= l /\ c' + l' = c + l
                  /\ (Z.of_nat j + 1
                      < totalEntryCount (file (fst (read_central_dir s))) ->
                      nth_error heads (S j) = Some (i + 1, c', l'))
              | inl k =>
                  length heads = S j
                  /\ outcome (read_central_dir s) = inl k
              end).
  { intros Hheads Hcount. exists [].
    split; [exact Hheads|].
    split; [cbn [length]; lia|].
    split; [cbn [length]; lia|].
    split; [reflexivity|].
    intros j i c l H. destruct j; discriminate. }
  destruct (snd (locate_eocd s)) as [x | e] eqn:Hloc.
  { apply Hnone; [exact Hh|]. rewrite Hi. lia. }
  unfold archive_iters in Hi.
  destruct (loop_entered (file s) e) eqn:Hloop.
  2:{ destruct Hnone as (heads & A & B & C & D & E);
        [exact Hh|rewrite Hi; lia|].
      exists heads. split; [exact A|]. split; [exact B|].
      split; [exact C|]. split; [exact D|exact E]. }
  clear Hnone.
  destruct (read_central_dir_loop s e Hloc Hloop) as (Hr & Hf & _).
  destruct (eocd_done_same (file s) e) as (_ & _ & _ & Hn & Hc).
  cbv zeta in Hh, Hi, Hr, Hf. rewrite Hn, Hc in Hh, Hi.
  rewrite Hf. cbn [totalEntryCount centralDirOffest with_entries].
  rewrite Hn, Hc.
  set (mem := buf (file s)) in *. set (size := bufsize (file s)) in *.
  pose proof (le16_range mem (e + 0x0a)) as Hrange.
  set (n := Z.to_nat (le16 mem (e + 0x0a))) in *.
  set (c0 := le32 mem (e + 0x10)) in *.
  destruct (loop_heads_chain mem size n 0 c0 (size - c0))
    as (Hlen & Hall & Hfirst & Hnth).
  exists (loop_heads mem size n 0 c0 (size - c0)).
  split; [exact Hh|].
  split.
  { rewrite Hi, (loop_heads_length mem size n 0 c0 (size - c0)).
    reflexivity. }
  split; [unfold n in *; lia|].
  split.
  { intros Hpos. apply Hfirst. unfold n. lia. }
  intros j i c l Hj.
  destruct (Hnth j i c l Hj) as [Hidx Hnext].
  split; [lia|].
  destruct (read_central_directory_entry_run zero_entry c l s) as [_ Ho].
  fold mem size in Ho.
  pose proof (Hadvance zero_entry c l s) as Hadv.
  rewrite Ho in Hadv |- *.
  destruct (decode_entry mem size c l) as [k | [[x c'] l']].
  - destruct Hnext as [Hlast Hfail]. split; [exact Hlast|].
    unfold outcome. rewrite Hr, Hfail. reflexivity.
  - destruct (Hadv x c' l' eq_refl) as (A & B & C).
    split; [exact A|]. split; [exact B|]. split; [exact C|].
    intros Hmore. apply Hnext. unfold n. lia.
Qed.

(** ** Loads outside the buffer *)

(** C1.  The parse does load bytes outside the buffer.  On the 69 bytes of
    [header_at_last_byte] the record at cursor 0 has the local header
    offset 68, strictly inside the buffer; the test on that offset passes,
    and the two bytes of the local extra-field length are loaded at offsets
    96 and 97, past the end of the buffer, before the entry is rejected.
    What does hold: a local header offset at or past the end of the buffer
    is rejected with [InvalidLocalHeaderOffset] after loads within the 46
    bytes of the record only; and no parse loads below the buffer or 29
    bytes or more past its end. *)
Theorem local_header_read_past_buffer :
  (let mem := mem_of header_at_last_byte in
   let size := len_of header_at_last_byte in
   size = 69
   /\ le32 mem (0 + 0x2a) = 68
   /\ firstn 2 (loads (trace (fst (parse mem size)))) = [97; 96]
   /\ ~ loads_within 0 size (trace (fst (parse mem size)))
   /\ outcome (parse mem size) = inl InvalidDataOffset)
  /\ (forall (e : Zipentry) (c len : Z) (s : state),
        let mem := buf (file s) in
        let size := bufsize (file s) in
        46 <= len ->
        le32 mem c = ENTRY_SIGNATURE ->
        0 < le16 mem (c + 0x1c) ->
        46 + le16 mem (c + 0x1c) + le16 mem (c + 0x1e) + le16 mem (c + 0x20)
        <= len ->
        size <= le32 mem (c + 0x2a) ->
        outcome (read_central_directory_entry e c len s)
        = inl InvalidLocalHeaderOffset
        /\ (loads_within c (c + 46) (trace s) ->
            loads_within c (c + 46)
              (trace (fst (read_central_directory_entry e c len s)))))
  /\ (forall (mem : Z -> byte) (size : Z),
        loads_within 0 (size + 29) (trace (fst (parse mem size)))).
Proof.
  split; [|split].
  - cbv zeta.
    split; [vm_compute; reflexivity|].
    split; [vm_compute; reflexivity|].
    split; [vm_compute; reflexivity|].
    split; [|vm_compute; reflexivity].
    intros Hall. unfold loads_within in Hall.
    assert (Hin : In 97 (loads (trace (fst (parse (mem_of header_at_last_byte)
                                             (len_of header_at_last_byte))))))
      by (vm_compute; left; reflexivity).
    rewrite Forall_forall in Hall. specialize (Hall 97 Hin). clear Hin.
    vm_compute in Hall. destruct Hall as [_ Hlt]. discriminate Hlt.
  - intros e c len s mem size H46 Hsig Hname Hfit Hloc.
    destruct (read_central_directory_entry_run e c len s) as [_ Ho].
    destruct (read_central_directory_entry_trace e c len s) as [_ [_ Hl]].
    fold mem size in Ho, Hl. split.
    + rewrite Ho.
      unfold decode_entry, cd_next, cd_namelen, cd_extralen, cd_commentlen,
        cd_local, ENTRY_LEN.
      replace (len <? 46) with false by lia.
      rewrite Hsig, Z.eqb_refl. cbn [negb].
      replace (le16 mem (c + 28) =? 0) with false by lia.
      replace (len <? _) with false by lia.
      replace (size <=? le32 mem (c + 42)) with true by lia.
      reflexivity.
    + apply Hl; intros; lia.
  - intros mem size. unfold parse.
    destruct (read_central_dir_trace (mkState (init_file mem size) []))
      as [_ [_ Hl]].
    apply Hl. constructor.
Qed.

(** * Further properties of the code *)

(** ** The field decoders *)

(** X1.  [read_le_int] loads the four bytes at [p] .. [p + 3] (the trace
    lists them by index; C leaves the order of the operands open) and
    nothing else; it leaves the descriptor alone and never fails.
    What it returns is the little-endian value of the four bytes, below
    [2^32], and the four bytes can be read back from it: the byte at
    [p + k] is the value shifted right by [8 k] bits, modulo 256. *)
Theorem read_le_int_little_endian (p : Z) (s : state) :
  let b := fun k => byte_val (buf (file s) (p + k)) in
  file (fst (read_le_int p s)) = file s
  /\ trace (fst (read_le_int p s))
     = [Fetch (p + 3); Fetch (p + 2); Fetch (p + 1); Fetch p] ++ trace s
  /\ exists v,
       snd (read_le_int p s) = inr v
       /\ v = b 0 + 256 * b 1 + 65536 * b 2 + 16777216 * b 3
       /\ 0 <= v < 2 ^ 32
       /\ v mod 256 = b 0
       /\ (v / 256) mod 256 = b 1
       /\ (v / 65536) mod 256 = b 2
       /\ v / 16777216 = b 3.
Proof.
  intros b. rewrite run_read_le_int. cbn [fst snd].
  split; [reflexivity|]. split; [reflexivity|].
  exists (le32 (buf (file s)) p). split; [reflexivity|].
  pose proof (byte_val_range (buf (file s) p)) as H0.
  pose proof (byte_val_range (buf (file s) (p + 1))) as H1.
  pose proof (byte_val_range (buf (file s) (p + 2))) as H2.
  pose proof (byte_val_range (buf (file s) (p + 3))) as H3.
  rewrite le32_sum. unfold b. rewrite Z.add_0_r.
  set (b0 := byte_val (buf (file s) p)) in *.
  set (b1 := byte_val (buf (file s) (p + 1))) in *.
  set (b2 := byte_val (buf (file s) (p + 2))) in *.
  set (b3 := byte_val (buf (file s) (p + 3))) in *.
  split; [reflexivity|]. split; [lia|].
  repeat split.
  - symmetry. apply (Z.mod_unique_pos _ _ (b1 + 256 * b2 + 65536 * b3)); lia.
  - assert (Hq : (b0 + 256 * b1 + 65536 * b2 + 16777216 * b3) / 256
                 = b1 + 256 * b2 + 65536 * b3).
    { symmetry. apply (Z.div_unique_pos _ _ _ b0); lia. }
    rewrite Hq. symmetry. apply (Z.mod_unique_pos _ _ (b2 + 256 * b3)); lia.
  - assert (Hq : (b0 + 256 * b1 + 65536 * b2 + 16777216 * b3) / 65536
                 = b2 + 256 * b3).
    { symmetry. apply (Z.div_unique_pos _ _ _ (b0 + 256 * b1)); lia. }
    rewrite Hq. symmetry. apply (Z.mod_unique_pos _ _ b3); lia.
  - symmetry.
    apply (Z.div_unique_pos _ _ _ (b0 + 256 * b1 + 65536 * b2)); lia.
Qed.

(** X2.  [read_le_short] loads the two bytes at [p] and [p + 1] and nothing
    else, leaves the descriptor alone and never fails.  What it returns is
    the little-endian value of the two bytes; it is below 65536, so that
    storing it in an [unsigned short] loses nothing, and the two bytes can
    be read back from it. *)
Theorem read_le_short_little_endian (p : Z) (s : state) :
  let b := fun k => byte_val (buf (file s) (p + k)) in
  file (fst (read_le_short p s)) = file s
  /\ trace (fst (read_le_short p s)) = [Fetch (p + 1); Fetch p] ++ trace s
  /\ exists v,
       snd (read_le_short p s) = inr v
       /\ v = b 0 + 256 * b 1
       /\ 0 <= v < 65536
       /\ to_ushort v = v
       /\ v mod 256 = b 0
       /\ v / 256 = b 1.
Proof.
  intros b. rewrite run_read_le_short. cbn [fst snd].
  split; [reflexivity|]. split; [reflexivity|].
  exists (le16 (buf (file s)) p). split; [reflexivity|].
  pose proof (byte_val_range (buf (file s) p)) as H0.
  pose proof (byte_val_range (buf (file s) (p + 1))) as H1.
  split; [rewrite le16_sum; unfold b; rewrite Z.add_0_r; reflexivity|].
  split; [apply le16_range|]. split; [apply to_ushort_le16|].
  rewrite le16_sum. unfold b. rewrite Z.add_0_r.
  split.
  - symmetry.
    apply (Z.mod_unique_pos _ _ (byte_val (buf (file s) (p + 1)))); lia.
  - symmetry. apply (Z.div_unique_pos _ _ _ (byte_val (buf (file s) p))); lia.
Qed.

(** ** The end record *)

(** X3.  [read_central_dir_values], run on a record at [p] with [len] bytes
    left, fails exactly when [len < 22] or the declared comment is not empty
    and does not fit in the [len - 22] bytes behind the record; the failure
    is [Truncated] with status -1.  A record that is too short leaves the
    descriptor as it was; otherwise the seven fields are stored, also when
    the comment then fails to fit.  On success the comment pointer is set
    behind the record when the comment is not empty, and is not touched when
    it is empty.  The buffer, its size and the entry collection are never
    changed, and every load lies within the [len] bytes at [p].  The
    length is the value of the [int] parameter of the function, a number
    between [-2^31] and [2^31 - 1]. *)
Theorem eocd_values_stored (p len : Z) (s : state) :
  let mem := buf (file s) in
  let clen := le16 mem (p + 0x14) in
  let r := read_central_dir_values p len s in
  let f' := file (fst r) in
  - 2 ^ 31 <= len < 2 ^ 31 ->
  (buf f' = mem /\ bufsize f' = bufsize (file s)
   /\ entries f' = entries (file s))
  /\ ((exists f, snd r = inl f) <->
      len < 22 \/ (0 < clen /\ len < 22 + clen))
  /\ (forall f, snd r = inl f -> f = mkFailure (-1) Truncated)
  /\ (len < 22 -> f' = file s)
  /\ (22 <= len ->
      disknum f' = le16 mem (p + 0x04)
      /\ diskWithCentralDir f' = le16 mem (p + 0x06)
      /\ entryCount f' = le16 mem (p + 0x08)
      /\ totalEntryCount f' = le16 mem (p + 0x0a)
      /\ centralDirSize f' = le32 mem (p + 0x0c)
      /\ centralDirOffest f' = le32 mem (p + 0x10)
      /\ commentLen f' = clen)
  /\ (snd r = inr tt ->
      comment f' = (if 0 <? clen then Some (p + 22) else comment (file s))
      /\ p + 22 + clen <= p + len)
  /\ (forall lo hi, lo <= p -> p + len <= hi ->
        loads_within lo hi (trace s) -> loads_within lo hi (trace (fst r))).
Proof.
  intros mem clen r f' Hint. subst r f'.
  destruct (read_central_dir_values_run p len s) as [Hshort Hlong].
  destruct (read_central_dir_values_trace p len s) as [_ [_ Hl]].
  pose proof (le16_range mem (p + 0x14)) as Hclen. fold clen in Hclen.
  change (commentLen (eocd_fields (file s) p)) with clen in Hlong.
  unfold EOCD_LEN in Hlong.
  destruct (Z.lt_ge_cases len 22) as [Hlt | Hge].
  - destruct (Hshort Hlt) as [Hf Hr]. rewrite Hf, Hr.
    split; [repeat split|].
    split; [split; [intros _; left; exact Hlt|intros _; eexists; reflexivity]|].
    split; [intros f H; injection H as <-; reflexivity|].
    split; [reflexivity|]. split; [lia|]. split; [discriminate|exact Hl].
  - specialize (Hlong Hge).
    destruct ((clen >? 0) && (22 + clen >? len)) eqn:Eover.
    + destruct Hlong as [Hf Hr]. rewrite Hf, Hr.
      split; [repeat split|].
      split; [split; [intros _; right; lia|intros _; eexists; reflexivity]|].
      split; [intros f H; injection H as <-; reflexivity|].
      split; [lia|]. split; [intros _; repeat split|].
      split; [discriminate|exact Hl].
    + destruct Hlong as [Hf Hr]. rewrite Hf, Hr.
      assert (Hfields :
        forall g, g = (if clen >? 0
                       then with_comment (eocd_fields (file s) p) (p + 22)
                       else eocd_fields (file s) p) ->
        (buf g = mem /\ bufsize g = bufsize (file s)
         /\ entries g = entries (file s))
        /\ (disknum g = le16 mem (p + 0x04)
            /\ diskWithCentralDir g = le16 mem (p + 0x06)
            /\ entryCount g = le16 mem (p + 0x08)
            /\ totalEntryCount g = le16 mem (p + 0x0a)
            /\ centralDirSize g = le32 mem (p + 0x0c)
            /\ centralDirOffest g = le32 mem (p + 0x10)
            /\ commentLen g = clen)
        /\ comment g = (if 0 <? clen then Some (p + 22)
                        else comment (file s))).
      { intros g ->. rewrite Z.gtb_ltb.
        destruct (0 <? clen); repeat split. }
      destruct (Hfields _ eq_refl) as (H1 & H2 & H3).
      split; [exact H1|].
      split; [split; [intros [f H]; discriminate|intros H; exfalso; lia]|].
      split; [discriminate|]. split; [lia|]. split; [intros _; exact H2|].
      split; [intros _; split; [exact H3|lia]|exact Hl].
Qed.

(** The end record of [commented_archive], at offset 184 with the 24
    bytes that are left: the fields are stored and the comment pointer is
    set to offset 206. *)
Lemma eocd_values_stored_witness :
  let s := mkState (init_file (mem_of commented_archive) 208) [] in
  let r := read_central_dir_values 184 24 s in
  snd r = inr tt
  /\ totalEntryCount (file (fst r)) = 2
  /\ centralDirOffest (file (fst r)) = 82
  /\ commentLen (file (fst r)) = 2
  /\ comment (file (fst r)) = Some 206
  /\ loads_within 184 208 (trace (fst r)).
Proof.
  intros s r.
  pose proof (eocd_values_stored 184 24 s ltac:(lia)) as H.
  cbv zeta in H. fold r in H.
  destruct H as (_ & _ & _ & _ & Hfields & Hcomment & Hloads).
  assert (Hok : snd r = inr tt) by (vm_compute; reflexivity).
  destruct (Hfields ltac:(lia)) as (_ & _ & _ & Hn & _ & Hoff & Hlen).
  destruct (Hcomment Hok) as [Hptr _].
  split; [exact Hok|].
  split; [rewrite Hn; vm_compute; reflexivity|].
  split; [rewrite Hoff; vm_compute; reflexivity|].
  split; [rewrite Hlen; vm_compute; reflexivity|].
  split; [rewrite Hptr; vm_compute; reflexivity|].
  apply Hloads; [lia|lia|constructor].
Defined.

(** The length [read_central_dir] hands to [read_central_dir_values] is
    between 4 and 65557, well inside the range of an [int]. *)
Lemma eocd_length_fits_int (s : state) (e : Z) :
  outcome (locate_eocd s) = inr e ->
  4 <= bufsize (file s) - e <= 65557.
Proof.
  intros Hloc.
  destruct (locate_eocd_spec s) as [_ [Hsmall Hbig]].
  unfold outcome in Hloc.
  destruct (Z.lt_ge_cases (bufsize (file s)) 22) as [Hlt | Hge].
  - rewrite (Hsmall Hlt) in Hloc. discriminate Hloc.
  - destruct (Hbig Hge) as [[e' [He' [Hr _]]] | [Hno _]].
    + rewrite He' in Hloc. injection Hloc as <-.
      unfold window_start in Hr. lia.
    + rewrite Hno in Hloc. discriminate Hloc.
Qed.

(** ** The entry decoder *)

(** The tests of the entry decoder, as propositions on the record at [c]. *)
Lemma decode_entry_cases (mem : Z -> byte) (size c len : Z) :
  let n := le16 mem (c + 0x1c) in
  let x := le16 mem (c + 0x1e) in
  let k := le16 mem (c + 0x20) in
  let local := le32 mem (c + 0x2a) in
  let off := (local + 30 + n + le16 mem (local + 0x1c)) mod 2 ^ 32 in
  let room := (size - off) mod 2 ^ 32 in
  let method := le16 mem (c + 0x0a) in
  let usize := le32 mem (c + 0x18) in
  let csize := le32 mem (c + 0x14) in
  (len < 46 /\ decode_entry mem size c len = inl Truncated)
  \/ (46 <= len /\ le32 mem c <> ENTRY_SIGNATURE
      /\ decode_entry mem size c len = inl BadSignature)
  \/ (46 <= len /\ le32 mem c = ENTRY_SIGNATURE /\
      ((n = 0 /\ decode_entry mem size c len = inl MissingFileName)
       \/ (0 < n /\ len < 46 + n + x + k
           /\ decode_entry mem size c len = inl Truncated)
       \/ (0 < n /\ 46 + n + x + k <= len /\
           ((size <= local
             /\ decode_entry mem size c len = inl InvalidLocalHeaderOffset)
            \/ (local < size /\ size <= off
                /\ decode_entry mem size c len = inl InvalidDataOffset)
            \/ (local < size /\ off < size
                /\ ((method = 0 /\ room < usize)
                    \/ (method = 8 /\ room < csize))
                /\ decode_entry mem size c len = inl InvalidDeclaredSize)
            \/ (local < size /\ off < size
                /\ (method = 0 -> usize <= room)
                /\ (method = 8 -> csize <= room)
                /\ decode_entry mem size c len
                   = inr (decoded mem c, c + (46 + n + x + k),
                          len - (46 + n + x + k))))))).
Proof.
  intros n x k local off room method usize csize.
  pose proof (le16_range mem (c + 0x1c)) as Hn. fold n in Hn.
  unfold decode_entry, cd_next, data_offset, data_sum, local_extralen,
    cd_namelen, cd_extralen, cd_commentlen, cd_local, cd_method, cd_usize,
    cd_csize, to_uint, ENTRY_LEN, LFH_SIZE, kCompressionStored,
    kCompressionDeflate.
  fold n x k local. fold off. fold room. fold method usize csize.
  destruct (len <? 46) eqn:E1; [left; split; [lia|reflexivity]|].
  right. apply Z.ltb_ge in E1.
  destruct (Z.eqb_spec (le32 mem c) ENTRY_SIGNATURE) as [Hsig | Hsig];
    cbn [negb]; [|left; split; [exact E1|split; [exact Hsig|reflexivity]]].
  right. split; [exact E1|]. split; [exact Hsig|].
  destruct (n =? 0) eqn:E3; [left; split; [lia|reflexivity]|].
  right. apply Z.eqb_neq in E3.
  destruct (len <? c + 46 + n + x + k - c) eqn:E4;
    [left; split; [lia|split; [lia|reflexivity]]|].
  right. apply Z.ltb_ge in E4. split; [lia|]. split; [lia|].
  destruct (size <=? local) eqn:E5; [left; split; [lia|reflexivity]|].
  right. apply Z.leb_gt in E5.
  destruct (size <=? off) eqn:E6;
    [left; split; [lia|split; [lia|reflexivity]]|].
  right. apply Z.leb_gt in E6.
  destruct ((method =? 0) && (room <? usize)) eqn:E7.
  { left. split; [lia|]. split; [lia|]. split; [left; lia|reflexivity]. }
  destruct ((method =? 8) && (room <? csize)) eqn:E8.
  { left. split; [lia|]. split; [lia|]. split; [right; lia|reflexivity]. }
  right. split; [lia|]. split; [lia|].
  split; [intros Hm; lia|]. split; [intros Hm; lia|].
  replace (c + 46 + n + x + k - c) with (46 + n + x + k) by lia.
  replace (c + 46 + n + x + k) with (c + (46 + n + x + k)) by lia.
  reflexivity.
Qed.

(** X4.  The entry decoder accepts the record at the cursor [c], with [len]
    bytes left, exactly when: the 46 bytes of the fixed part are there and
    start with the signature 0x02014b50; the name is not empty; name, extra
    field and comment fit in what is left; the local header offset is below
    the size of the buffer; the data offset, reduced modulo [2^32], is below
    the size of the buffer; and the declared size of a stored or deflated
    entry is at most the rest of the buffer behind the data offset, taken
    modulo [2^32].  What it then returns is the descriptor built from the
    fields of the record, whatever the entry passed in held, with the cursor
    moved behind the comment of the record; the archive descriptor is not
    changed. *)
Theorem entry_accepted_iff (e : Zipentry) (c len : Z) (s : state) :
  let mem := buf (file s) in
  let size := bufsize (file s) in
  let n := le16 mem (c + 0x1c) in
  let x := le16 mem (c + 0x1e) in
  let k := le16 mem (c + 0x20) in
  let local := le32 mem (c + 0x2a) in
  let off := (local + 30 + n + le16 mem (local + 0x1c)) mod 2 ^ 32 in
  let room := (size - off) mod 2 ^ 32 in
  let method := le16 mem (c + 0x0a) in
  let usize := le32 mem (c + 0x18) in
  let csize := le32 mem (c + 0x14) in
  file (fst (read_central_directory_entry e c len s)) = file s
  /\ forall r,
       outcome (read_central_directory_entry e c len s) = inr r <->
       (46 <= len
        /\ le32 mem c = 0x02014b50
        /\ 0 < n
        /\ 46 + n + x + k <= len
        /\ local < size
        /\ off < size
        /\ (method = 0 -> usize <= room)
        /\ (method = 8 -> csize <= room)
        /\ r = (mkZipentry n (Some (c + 46)) method usize csize (Some off),
                c + (46 + n + x + k), len - (46 + n + x + k))).
Proof.
  intros mem size n x k local off room method usize csize.
  destruct (read_central_directory_entry_run e c len s) as [Hf Ho].
  split; [exact Hf|]. intros r. rewrite Ho. fold mem size.
  pose proof (decode_entry_cases mem size c len) as Hcases.
  cbv zeta in Hcases.
  fold n x k local in Hcases. fold off in Hcases. fold room in Hcases.
  fold method usize csize in Hcases.
  change ENTRY_SIGNATURE with 0x02014b50 in Hcases.
  change (decoded mem c)
    with (mkZipentry n (Some (c + 46)) method usize csize (Some off))
    in Hcases.
  destruct Hcases
    as [[H1 ->]
       | [(H1 & H2 & ->)
         | (H1 & H2 & [[H3 ->]
                      | [(H3 & H4 & ->)
                        | (H3 & H4 & [[H5 ->]
                                     | [(H5 & H6 & ->)
                                       | [(H5 & H6 & H7 & ->)
                                         | (H5 & H6 & H7 & H8 & ->)]]])]])]].
  - split; [discriminate|]. intros (H & _). lia.
  - split; [discriminate|]. intros (_ & H & _). contradiction.
  - split; [discriminate|]. intros (_ & _ & H & _). lia.
  - split; [discriminate|]. intros (_ & _ & _ & H & _). lia.
  - split; [discriminate|]. intros (_ & _ & _ & _ & H & _). lia.
  - split; [discriminate|]. intros (_ & _ & _ & _ & _ & H & _). lia.
  - split; [discriminate|]. intros (_ & _ & _ & _ & _ & _ & Hu & Hd & _).
    destruct H7 as [[Hm Hr] | [Hm Hr]]; [specialize (Hu Hm)|specialize (Hd Hm)];
      lia.
  - split.
    + intros H. injection H as <-. repeat split; assumption.
    + intros (_ & _ & _ & _ & _ & _ & _ & _ & ->). reflexivity.
Qed.

(** X5.  Which failure the entry decoder reports, in the order of its
    tests: [Truncated] when fewer than 46 bytes are left, or when name,
    extra field and comment do not fit behind a record that has the
    signature and a name; [BadSignature] when the 46 bytes do not start
    with the signature; [MissingFileName] when the name length is 0;
    [InvalidLocalHeaderOffset] when the variable part fits and the local
    header offset is not below the size of the buffer; [InvalidDataOffset]
    when the reduced data offset is not; [InvalidDeclaredSize] when the size
    of a stored or deflated entry exceeds the rest of the buffer.  It never
    reports [NotAZip] or [SpanningUnsupported]. *)
Theorem entry_rejected_iff (e : Zipentry) (c len : Z) (s : state) :
  let mem := buf (file s) in
  let size := bufsize (file s) in
  let n := le16 mem (c + 0x1c) in
  let x := le16 mem (c + 0x1e) in
  let k := le16 mem (c + 0x20) in
  let local := le32 mem (c + 0x2a) in
  let off := (local + 30 + n + le16 mem (local + 0x1c)) mod 2 ^ 32 in
  let room := (size - off) mod 2 ^ 32 in
  let method := le16 mem (c + 0x0a) in
  let usize := le32 mem (c + 0x18) in
  let csize := le32 mem (c + 0x14) in
  let fits := 46 <= len /\ le32 mem c = 0x02014b50 /\ 0 < n
              /\ 46 + n + x + k <= len in
  let result := outcome (read_central_directory_entry e c len s) in
  (result = inl Truncated <->
   len < 46
   \/ (46 <= len /\ le32 mem c = 0x02014b50 /\ 0 < n
       /\ len < 46 + n + x + k))
  /\ (result = inl BadSignature <-> 46 <= len /\ le32 mem c <> 0x02014b50)
  /\ (result = inl MissingFileName <->
      46 <= len /\ le32 mem c = 0x02014b50 /\ n = 0)
  /\ (result = inl InvalidLocalHeaderOffset <-> fits /\ size <= local)
  /\ (result = inl InvalidDataOffset <->
      fits /\ local < size /\ size <= off)
  /\ (result = inl InvalidDeclaredSize <->
      fits /\ local < size /\ off < size
      /\ ((method = 0 /\ room < usize) \/ (method = 8 /\ room < csize)))
  /\ result <> inl NotAZip
  /\ result <> inl SpanningUnsupported.
Proof.
  intros mem size n x k local off room method usize csize fits result.
  subst fits result.
  destruct (read_central_directory_entry_run e c len s) as [_ Ho].
  rewrite Ho. fold mem size.
  pose proof (le16_range mem (c + 0x1c)) as Hn. fold n in Hn.
  pose proof (decode_entry_cases mem size c len) as Hcases.
  cbv zeta in Hcases.
  fold n x k local in Hcases. fold off in Hcases. fold room in Hcases.
  fold method usize csize in Hcases.
  change ENTRY_SIGNATURE with 0x02014b50 in Hcases.
  destruct Hcases
    as [[H1 ->]
       | [(H1 & H2 & ->)
         | (H1 & H2 & [[H3 ->]
                      | [(H3 & H4 & ->)
                        | (H3 & H4 & [[H5 ->]
                                     | [(H5 & H6 & ->)
                                       | [(H5 & H6 & H7 & ->)
                                         | (H5 & H6 & H7 & H8 & ->)]]])]])]];
    repeat match goal with
           | |- _ /\ _ => split
           | |- _ <-> _ => split
           | |- _ <> _ => discriminate
           | |- _ -> _ => intro
           end;
    try discriminate; try reflexivity; try tauto;
    try (exfalso; intuition lia); intuition lia.
Qed.

(** ** Status codes *)

Lemma read_central_directory_entry_status (e : Zipentry) (c len : Z)
    (s : state) (f : failure) :
  snd (read_central_directory_entry e c len s) = inl f ->
  status f
  = (if (len <? 46) || negb (le32 (buf (file s)) c =? ENTRY_SIGNATURE)
     then -1 else 1).
Proof.
  unfold read_central_directory_entry.
  set (mem := buf (file s)). set (size := bufsize (file s)).
  run_step. unfold ENTRY_LEN.
  destruct (len <? 46) eqn:Elen; cbn [orb].
  { cbn [raise snd]. intros H. inversion H. reflexivity. }
  run_step. fold mem. rewrite Z.add_0_r.
  destruct (negb (le32 mem c =? ENTRY_SIGNATURE)) eqn:Esig.
  { cbn [raise snd]. intros H. inversion H. reflexivity. }
  clear Elen Esig.
  repeat run_step. fold mem size.
  cbn [fileNameLength fileName compressionMethod uncompressedSize
       compressedSize data with_fixed with_fileName with_data].
  destruct (negb _);
    [|cbn [raise snd]; intros H; inversion H; reflexivity].
  destruct (_ >? _);
    [cbn [raise snd]; intros H; inversion H; reflexivity|].
  destruct (_ >? _);
    [cbn [raise snd]; intros H; inversion H; reflexivity|].
  destruct (_ >? _);
    [cbn [raise snd]; intros H; inversion H; reflexivity|].
  destruct (_ >=? _);
    [cbn [raise snd]; intros H; inversion H; reflexivity|].
  repeat run_step.
  cbn [fileNameLength fileName compressionMethod uncompressedSize
       compressedSize data with_fixed with_fileName with_data].
  destruct (_ || _);
    [cbn [raise snd]; intros H; inversion H; reflexivity|].
  destruct (_ && _);
    [cbn [raise snd]; intros H; inversion H; reflexivity|].
  destruct (_ && _);
    [cbn [raise snd]; intros H; inversion H; reflexivity|].
  cbn [ret snd]. discriminate.
Qed.

(** X6.  The status codes.  The entry decoder returns -1 when fewer than 46
    bytes are left or the signature is wrong, and 1 for every other
    failure.  [read_central_dir] returns 0 when it succeeds and -1 for every
    failure, whichever status the function that failed had returned. *)
Theorem status_codes :
  (forall (e : Zipentry) (c len : Z) (s : state) (f : failure),
     snd (read_central_directory_entry e c len s) = inl f ->
     (status f = -1 \/ status f = 1)
     /\ (status f = -1 <->
         len < 46 \/ le32 (buf (file s)) c <> 0x02014b50))
  /\ (forall (s : state),
        snd (read_central_dir s) = inr 0
        \/ exists k, snd (read_central_dir s) = inl (mkFailure (-1) k)).
Proof.
  split.
  - intros e c len s f Hfail.
    rewrite (read_central_directory_entry_status e c len s f Hfail).
    change ENTRY_SIGNATURE with 0x02014b50.
    destruct (len <? 46) eqn:E1; cbn [orb].
    + apply Z.ltb_lt in E1. split; [left; reflexivity|].
      split; [intros _; left; exact E1|reflexivity].
    + apply Z.ltb_ge in E1.
      destruct (Z.eqb_spec (le32 (buf (file s)) c) 0x02014b50) as [Hs | Hs];
        cbn [negb].
      * split; [right; reflexivity|].
        split; [discriminate|]. intros [H | H]; [lia|contradiction].
      * split; [left; reflexivity|].
        split; [intros _; right; exact Hs|reflexivity].
  - intros s.
    destruct (snd (read_central_dir s)) as [f | v] eqn:Hr.
    + right. exists (kind f).
      pose proof (read_central_dir_status s f Hr) as Hst.
      destruct f as [st k]. cbn [status kind] in *. subst st. reflexivity.
    + left. f_equal.
      assert (Hout : outcome (read_central_dir s) = inr v)
        by (unfold outcome; rewrite Hr; reflexivity).
      destruct (read_central_dir_success s v Hout) as [Hv _]. exact Hv.
Qed.

Lemma status_codes_witness :
  (status (mkFailure 1 InvalidDataOffset) = -1
   \/ status (mkFailure 1 InvalidDataOffset) = 1)
  /\ (status (mkFailure 1 InvalidDataOffset) = -1 <->
      69 < 46 \/ le32 (mem_of header_at_last_byte) 0 <> 0x02014b50).
Proof.
  apply (proj1 status_codes zero_entry 0 69
           (mkState (init_file (mem_of header_at_last_byte) 69) [])
           (mkFailure 1 InvalidDataOffset)).
  vm_compute. reflexivity.
Defined.

(** ** What the entry decoder looks at *)

Lemma decode_entry_ext (mem mem' : Z -> byte) (size c len : Z) :
  (forall i, c <= i < c + 46 -> mem' i = mem i) ->
  (forall i, le32 mem (c + 0x2a) + 28 <= i < le32 mem (c + 0x2a) + 30 ->
             mem' i = mem i) ->
  decode_entry mem' size c len = decode_entry mem size c len.
Proof.
  intros Hrec Hloc.
  assert (E16 : forall d, 0 <= d -> d + 2 <= 46 ->
                          le16 mem' (c + d) = le16 mem (c + d)).
  { intros d H0 H1. apply le16_ext; apply Hrec; lia. }
  assert (E32 : forall d, 0 <= d -> d + 4 <= 46 ->
                          le32 mem' (c + d) = le32 mem (c + d)).
  { intros d H0 H1. apply le32_ext. intros i Hi.
    replace (c + d + i) with (c + (d + i)) by lia. apply Hrec. lia. }
  assert (Esig : le32 mem' c = le32 mem c).
  { rewrite <- (Z.add_0_r c). apply E32; lia. }
  assert (Elocal : cd_local mem' c = cd_local mem c) by (apply E32; lia).
  assert (Elx : local_extralen mem' c = local_extralen mem c).
  { unfold local_extralen. rewrite Elocal. unfold cd_local.
    apply le16_ext; apply Hloc; lia. }
  assert (Ename : cd_namelen mem' c = cd_namelen mem c) by (apply E16; lia).
  assert (Eoff : data_offset mem' c = data_offset mem c).
  { unfold data_offset, data_sum. rewrite Elocal, Ename, Elx. reflexivity. }
  assert (Enext : cd_next mem' c = cd_next mem c).
  { unfold cd_next, cd_extralen, cd_commentlen.
    rewrite Ename, (E16 0x1e), (E16 0x20) by lia. reflexivity. }
  unfold decode_entry, decoded.
  rewrite Esig, Ename, Enext, Elocal, Eoff.
  unfold cd_method, cd_usize, cd_csize.
  rewrite (E16 0x0a), (E32 0x18), (E32 0x14) by lia. reflexivity.
Qed.

(** X7.  The entry decoder looks at 48 bytes only: the 46 bytes of the fixed
    part of the record at the cursor and the two bytes at offset 0x1c of the
    local header the record points to.  Two buffers of the same size that
    agree on these bytes give the same result, whatever else they hold: the
    signature, name and sizes of the local header, the name, extra field
    and comment of the record and the entry data are never examined. *)
Theorem entry_decoder_footprint (e e' : Zipentry) (c len : Z)
    (s s' : state) :
  let local := le32 (buf (file s)) (c + 0x2a) in
  bufsize (file s') = bufsize (file s) ->
  (forall i, c <= i < c + 46 -> buf (file s') i = buf (file s) i) ->
  (forall i, local + 28 <= i < local + 30 ->
             buf (file s') i = buf (file s) i) ->
  outcome (read_central_directory_entry e' c len s')
  = outcome (read_central_directory_entry e c len s).
Proof.
  intros local Hsize Hrec Hloc.
  destruct (read_central_directory_entry_run e c len s) as [_ Ho].
  destruct (read_central_directory_entry_run e' c len s') as [_ Ho'].
  rewrite Ho, Ho', Hsize. apply decode_entry_ext; assumption.
Qed.

Lemma entry_decoder_footprint_witness :
  outcome (read_central_directory_entry zero_entry 0 69
             (mkState (init_file (mem_of header_at_last_byte) 69) []))
  = outcome (read_central_directory_entry (decoded wrap_mem 0) 0 69
               (mkState (init_file (mem_of (mk_cde 0 0 0 name_x [] [] 68))
                           69) [])).
Proof.
  apply (entry_decoder_footprint (decoded wrap_mem 0) zero_entry 0 69
           (mkState (init_file (mem_of (mk_cde 0 0 0 name_x [] [] 68)) 69)
              [])
           (mkState (init_file (mem_of header_at_last_byte) 69) [])).
  - reflexivity.
  - intros i Hi. cbn [file buf init_file].
    assert (Hcases : i = 0 \/ i = 1 \/ i = 2 \/ i = 3 \/ i = 4 \/ i = 5
      \/ i = 6 \/ i = 7 \/ i = 8 \/ i = 9 \/ i = 10 \/ i = 11 \/ i = 12
      \/ i = 13 \/ i = 14 \/ i = 15 \/ i = 16 \/ i = 17 \/ i = 18 \/ i = 19
      \/ i = 20 \/ i = 21 \/ i = 22 \/ i = 23 \/ i = 24 \/ i = 25 \/ i = 26
      \/ i = 27 \/ i = 28 \/ i = 29 \/ i = 30 \/ i = 31 \/ i = 32 \/ i = 33
      \/ i = 34 \/ i = 35 \/ i = 36 \/ i = 37 \/ i = 38 \/ i = 39 \/ i = 40
      \/ i = 41 \/ i = 42 \/ i = 43 \/ i = 44 \/ i = 45) by lia.
    repeat (destruct Hcases as [-> | Hcases]; [vm_compute; reflexivity|]).
    subst i. vm_compute. reflexivity.
  - intros i Hi. cbn [file buf init_file] in *.
    replace (le32 (mem_of (mk_cde 0 0 0 name_x [] [] 68)) (0 + 42)) with 68
      in Hi by (vm_compute; reflexivity).
    assert (Hcases : i = 96 \/ i = 97) by lia.
    destruct Hcases as [-> | ->]; vm_compute; reflexivity.
Defined.

(** ** The descriptor of a successful parse *)

Lemma loop_entered_facts (f : Zipfile) (e : Z) :
  loop_entered f e = true ->
  22 <= bufsize f - e
  /\ (0 < le16 (buf f) (e + 0x14) ->
      22 + le16 (buf f) (e + 0x14) <= bufsize f - e)
  /\ le16 (buf f) (e + 0x04) = 0
  /\ le16 (buf f) (e + 0x06) = 0
  /\ le16 (buf f) (e + 0x08) = le16 (buf f) (e + 0x0a).
Proof.
  unfold loop_entered, comment_overflows, spanning, eocd_done, EOCD_LEN.
  change (commentLen (eocd_fields f e)) with (le16 (buf f) (e + 0x14)).
  intros H.
  destruct (le16 (buf f) (e + 20) >? 0) eqn:Ec;
    cbn [disknum diskWithCentralDir entryCount totalEntryCount with_comment
         eocd_fields] in H; lia.
Qed.

Lemma parse_success_facts (mem : Z -> byte) (size v : Z) :
  outcome (parse mem size) = inr v ->
  exists e,
    0 <= e <= size - 22
    /\ has_signature mem e
    /\ loop_entered (init_file mem size) e = true
    /\ file (fst (parse mem size))
       = with_entries (eocd_done (init_file mem size) e)
           (rev (map (decoded mem)
                   (cd_cursors mem (Z.to_nat (le16 mem (e + 0x0a)))
                      (le32 mem (e + 0x10)))))
    /\ Forall (fun c0 => exists len0 x c1 len1,
                 len0 <= size - c0
                 /\ decode_entry mem size c0 len0 = inr (x, c1, len1))
         (cd_cursors mem (Z.to_nat (le16 mem (e + 0x0a)))
            (le32 mem (e + 0x10))).
Proof.
  intros Hok. unfold parse in *.
  set (s := mkState (init_file mem size) []) in *.
  destruct (read_central_dir_success s v Hok)
    as (_ & e & cs & Hloc & Hloop & Hcs & Hall & Hf).
  cbn [s file buf bufsize entries init_file] in Hloop, Hcs, Hall, Hf.
  destruct (eocd_done_same (init_file mem size) e) as (_ & _ & _ & Hn & Hc).
  cbn [buf init_file] in Hn, Hc. rewrite Hn, Hc in Hcs. subst cs.
  rewrite app_nil_r in Hf.
  destruct (loop_entered_facts _ _ Hloop) as (Hlen & _).
  cbn [bufsize init_file] in Hlen.
  destruct (locate_eocd_spec s) as [_ [Hsmall Hbig]].
  cbn [s file buf bufsize init_file] in Hsmall, Hbig.
  assert (He : 0 <= e /\ has_signature mem e).
  { destruct (Z.lt_ge_cases size 22) as [Hlt | Hge].
    - rewrite (Hsmall Hlt) in Hloc. discriminate.
    - destruct (Hbig Hge) as [[e' [He' [Hr [Hsig _]]]] | [Hr _]].
      + rewrite He' in Hloc. injection Hloc as <-.
        unfold window_start in Hr. split; [lia|exact Hsig].
      + rewrite Hr in Hloc. discriminate. }
  exists e. split; [lia|]. split; [apply He|]. split; [exact Hloop|].
  split; [exact Hf|exact Hall].
Qed.

(** X8.  After a successful parse of a fresh descriptor: the value returned
    is 0; the buffer has at least 22 bytes and is the one that was handed
    in, with its size; the disk number and the disk of the central
    directory are 0; the two entry counts are equal, at most 65535, and
    equal to the number of descriptors in the collection; and the
    collection holds, in reverse order, the descriptors of the consecutive
    records that start at the central directory offset. *)
Theorem successful_parse_descriptor (mem : Z -> byte) (size v : Z) :
  outcome (parse mem size) = inr v ->
  let f' := file (fst (parse mem size)) in
  v = 0
  /\ 22 <= size
  /\ buf f' = mem /\ bufsize f' = size
  /\ disknum f' = 0 /\ diskWithCentralDir f' = 0
  /\ entryCount f' = totalEntryCount f'
  /\ 0 <= totalEntryCount f' <= 65535
  /\ 0 <= centralDirOffest f' < 2 ^ 32
  /\ Z.of_nat (length (entries f')) = totalEntryCount f'
  /\ entries f'
     = rev (map (decoded mem)
              (cd_cursors mem (Z.to_nat (totalEntryCount f'))
                 (centralDirOffest f'))).
Proof.
  intros Hok f'. subst f'.
  assert (Hv : v = 0).
  { unfold parse in Hok.
    destruct (read_central_dir_success _ _ Hok) as [Hv _]. exact Hv. }
  destruct (parse_success_facts mem size v Hok)
    as (e & He & _ & Hloop & Hf & _).
  destruct (loop_entered_facts _ _ Hloop) as (Hlen & _ & Hd & Hdc & Hcount).
  destruct (eocd_done_same (init_file mem size) e)
    as (Hb & Hsz & _ & Hn & Hc).
  cbn [buf bufsize init_file] in *.
  pose proof (le16_range mem (e + 0x0a)) as Hrange.
  pose proof (le32_range mem (e + 0x10)) as Hrange'.
  rewrite Hf.
  assert (Hfields :
    disknum (eocd_done (init_file mem size) e) = le16 mem (e + 0x04)
    /\ diskWithCentralDir (eocd_done (init_file mem size) e)
       = le16 mem (e + 0x06)
    /\ entryCount (eocd_done (init_file mem size) e) = le16 mem (e + 0x08)).
  { unfold eocd_done.
    destruct (commentLen (eocd_fields (init_file mem size) e) >? 0);
      repeat split. }
  destruct Hfields as (F1 & F2 & F3).
  cbn [buf bufsize disknum diskWithCentralDir entryCount totalEntryCount
       centralDirOffest entries with_entries].
  rewrite Hb, Hsz, F1, F2, F3, Hn, Hc.
  split; [exact Hv|]. split; [lia|]. split; [reflexivity|].
  split; [reflexivity|]. split; [exact Hd|]. split; [exact Hdc|].
  split; [exact Hcount|]. split; [lia|]. split; [exact Hrange'|].
  split; [|reflexivity].
  rewrite length_rev, length_map, cd_cursors_length. lia.
Qed.

Lemma successful_parse_descriptor_witness :
  let f' := file (fst (parse (mem_of two_entries) 206)) in
  0 = 0
  /\ 22 <= 206
  /\ buf f' = mem_of two_entries /\ bufsize f' = 206
  /\ disknum f' = 0 /\ diskWithCentralDir f' = 0
  /\ entryCount f' = totalEntryCount f'
  /\ 0 <= totalEntryCount f' <= 65535
  /\ 0 <= centralDirOffest f' < 2 ^ 32
  /\ Z.of_nat (length (entries f')) = totalEntryCount f'
  /\ entries f'
     = rev (map (decoded (mem_of two_entries))
              (cd_cursors (mem_of two_entries)
                 (Z.to_nat (totalEntryCount f')) (centralDirOffest f'))).
Proof.
  apply (successful_parse_descriptor (mem_of two_entries) 206 0).
  vm_compute. reflexivity.
Defined.

(** The cursors of consecutive records go up by at least 46: every record
    starts where the one before it ends. *)
Lemma cd_cursors_ordered (mem : Z -> byte) (n : nat) :
  forall c,
    Forall (fun a => c <= a) (cd_cursors mem n c)
    /\ ForallOrdPairs (fun a b => cd_next mem a <= b) (cd_cursors mem n c).
Proof.
  induction n as [|n IH]; intros c; cbn [cd_cursors].
  - split; constructor.
  - destruct (IH (cd_next mem c)) as [IH1 IH2].
    assert (Hstep : c <= cd_next mem c).
    { pose proof (le16_range mem (c + 0x1c)).
      pose proof (le16_range mem (c + 0x1e)).
      pose proof (le16_range mem (c + 0x20)).
      unfold cd_next, cd_namelen, cd_extralen, cd_commentlen, ENTRY_LEN.
      lia. }
    split.
    + constructor; [lia|].
      eapply Forall_impl; [|exact IH1]. cbn beta. intros a Ha. lia.
    + constructor; [exact IH1|exact IH2].
Qed.

Lemma ForallOrdPairs_map {A B} (f : A -> B) (R : B -> B -> Prop)
    (l : list A) :
  ForallOrdPairs (fun a b => R (f a) (f b)) l ->
  ForallOrdPairs R (map f l).
Proof.
  induction 1 as [|a l Ha Hl IH]; cbn [map]; constructor.
  - apply Forall_map. exact Ha.
  - exact IH.
Qed.

Lemma ForallOrdPairs_impl_in {A} (R S : A -> A -> Prop) (l : list A) :
  (forall a b, In a l -> In b l -> R a b -> S a b) ->
  ForallOrdPairs R l -> ForallOrdPairs S l.
Proof.
  intros Himp H. induction H as [|a l Ha Hl IH]; constructor.
  - rewrite Forall_forall in *. intros b Hb.
    apply Himp; [left; reflexivity|right; exact Hb|]. apply Ha. exact Hb.
  - apply IH. intros x y Hx Hy. apply Himp; right; assumption.
Qed.

(** X9.  After a successful parse every file name is a non-empty slice of
    the buffer: it starts at least 46 bytes into the buffer and ends inside
    it.  Taken in the order of the central directory, the names do not
    overlap: the record of a later entry starts at or behind the end of the
    name of every earlier one. *)
Theorem file_names_inside_buffer (mem : Z -> byte) (size v : Z) :
  outcome (parse mem size) = inr v ->
  let es := entries (file (fst (parse mem size))) in
  Forall (fun a => exists p,
            fileName a = Some p
            /\ 46 <= p
            /\ 0 < fileNameLength a <= 65535
            /\ p + fileNameLength a <= size) es
  /\ ForallOrdPairs
       (fun a b => exists pa pb,
          fileName a = Some pa /\ fileName b = Some pb
          /\ pa + fileNameLength a <= pb - 46)
       (rev es).
Proof.
  intros Hok es. subst es.
  destruct (parse_success_facts mem size v Hok)
    as (e & He & _ & _ & Hf & Hall).
  rewrite Hf. cbn [entries with_entries].
  set (cs := cd_cursors mem (Z.to_nat (le16 mem (e + 0x0a)))
               (le32 mem (e + 0x10))) in *.
  destruct (cd_cursors_ordered mem (Z.to_nat (le16 mem (e + 0x0a)))
              (le32 mem (e + 0x10))) as [Hlow Hord].
  fold cs in Hlow, Hord.
  pose proof (le32_range mem (e + 0x10)) as Hoff.
  split.
  - apply Forall_rev. apply Forall_map.
    rewrite Forall_forall in *. intros c Hc.
    specialize (Hlow c Hc).
    destruct (Hall c Hc) as (len0 & x & c1 & len1 & Hlen & Hdec).
    pose proof (decode_entry_ok _ _ _ _ _ _ _ Hdec)
      as (_ & _ & Hname & Hfit & _).
    pose proof (le16_range mem (c + 0x1c)) as Hn.
    pose proof (le16_range mem (c + 0x1e)) as Hx.
    pose proof (le16_range mem (c + 0x20)) as Hk.
    exists (c + 46).
    cbn [decoded fileName fileNameLength].
    unfold cd_next, cd_namelen, cd_extralen, cd_commentlen, ENTRY_LEN in *.
    repeat split; lia.
  - rewrite rev_involutive. apply ForallOrdPairs_map.
    eapply ForallOrdPairs_impl_in; [|exact Hord].
    cbn beta. intros a b _ _ Hab.
    exists (a + 46), (b + 46).
    cbn [decoded fileName fileNameLength].
    pose proof (le16_range mem (a + 0x1e)) as Hx.
    pose proof (le16_range mem (a + 0x20)) as Hk.
    unfold cd_next, cd_namelen, cd_extralen, cd_commentlen, ENTRY_LEN in *.
    repeat split; lia.
Qed.

Lemma file_names_inside_buffer_witness :
  let es := entries (file (fst (parse (mem_of two_entries) 206))) in
  Forall (fun a => exists p,
            fileName a = Some p
            /\ 46 <= p
            /\ 0 < fileNameLength a <= 65535
            /\ p + fileNameLength a <= 206) es
  /\ ForallOrdPairs
       (fun a b => exists pa pb,
          fileName a = Some pa /\ fileName b = Some pb
          /\ pa + fileNameLength a <= pb - 46)
       (rev es).
Proof.
  apply (file_names_inside_buffer (mem_of two_entries) 206 0).
  vm_compute. reflexivity.
Defined.

(** X10.  After a successful parse the archive comment is either absent,
    with a comment length of 0 and a null pointer, or a slice of the buffer
    that starts right behind the 22 bytes of an end record, which carries
    the signature, and ends inside the buffer. *)
Theorem archive_comment_inside_buffer (mem : Z -> byte) (size v : Z) :
  outcome (parse mem size) = inr v ->
  let f' := file (fst (parse mem size)) in
  (commentLen f' = 0 /\ comment f' = None)
  \/ (0 < commentLen f' <= 65535
      /\ exists p,
           comment f' = Some p
           /\ 22 <= p
           /\ le32 mem (p - 22) = 0x06054b50
           /\ commentLen f' = le16 mem (p - 2)
           /\ p + commentLen f' <= size).
Proof.
  intros Hok f'. subst f'.
  destruct (parse_success_facts mem size v Hok)
    as (e & He & Hsig & Hloop & Hf & _).
  destruct (loop_entered_facts _ _ Hloop) as (Hlen & Hfit & _).
  cbn [buf bufsize init_file] in Hlen, Hfit.
  pose proof (le16_range mem (e + 0x14)) as Hrange.
  rewrite Hf. unfold eocd_done.
  change (commentLen (eocd_fields (init_file mem size) e))
    with (le16 mem (e + 0x14)).
  destruct (le16 mem (e + 20) >? 0) eqn:Ec;
    cbn [commentLen comment with_entries with_comment eocd_fields init_file
         buf].
  - right. split; [lia|]. exists (e + EOCD_LEN). unfold EOCD_LEN.
    split; [reflexivity|]. split; [lia|].
    replace (e + 22 - 22) with e by lia.
    replace (e + 22 - 2) with (e + 20) by lia.
    split; [exact Hsig|]. split; [reflexivity|].
    assert (0 < le16 mem (e + 20)) by lia. specialize (Hfit H). lia.
  - left. split; [lia|reflexivity].
Qed.

(** On [commented_archive] the comment is there: two bytes at offset 206,
    right behind the end record at 184. *)
Lemma archive_comment_inside_buffer_witness :
  let f' := file (fst (parse (mem_of commented_archive) 208)) in
  commentLen f' = 2
  /\ 0 < commentLen f' <= 65535
  /\ exists p,
       comment f' = Some p
       /\ 22 <= p
       /\ le32 (mem_of commented_archive) (p - 22) = 0x06054b50
       /\ commentLen f' = le16 (mem_of commented_archive) (p - 2)
       /\ p + commentLen f' <= 208.
Proof.
  split; [vm_compute; reflexivity|].
  destruct (archive_comment_inside_buffer (mem_of commented_archive) 208 0)
    as [[Hzero _] | Hslice].
  - vm_compute. reflexivity.
  - exfalso. vm_compute in Hzero. discriminate Hzero.
  - exact Hslice.
Defined.

(** ** The central directory offset *)

Lemma loop_entered_intro (f : Zipfile) (e : Z) :
  22 <= bufsize f - e ->
  comment_overflows f e (bufsize f - e) = false ->
  le16 (buf f) (e + 0x04) = 0 ->
  le16 (buf f) (e + 0x06) = 0 ->
  le16 (buf f) (e + 0x08) = le16 (buf f) (e + 0x0a) ->
  loop_entered f e = true.
Proof.
  intros Hlen Hfit Hd Hdc Hcount.
  unfold loop_entered. rewrite Hfit. unfold EOCD_LEN.
  replace (bufsize f - e <? 22) with false by lia.
  unfold spanning, eocd_done.
  destruct (commentLen (eocd_fields f e) >? 0);
    cbn [disknum diskWithCentralDir entryCount totalEntryCount with_comment
         eocd_fields negb andb]; lia.
Qed.

(** X11.  An archive that declares no entry is accepted without a look at
    its central directory: when the located end record decodes, passes the
    archive-level test and has a total entry count of 0, the parse succeeds
    whatever the central directory offset and size are, also when they point
    outside the buffer.  The two values are stored as they are, no iteration
    of the entry loop is entered and the collection is left as it was. *)
Theorem empty_archive_accepted (s : state) (e : Z) :
  let mem := buf (file s) in
  let size := bufsize (file s) in
  outcome (locate_eocd s) = inr e ->
  22 <= size - e ->
  comment_overflows (file s) e (size - e) = false ->
  le16 mem (e + 0x04) = 0 ->
  le16 mem (e + 0x06) = 0 ->
  le16 mem (e + 0x08) = 0 ->
  le16 mem (e + 0x0a) = 0 ->
  snd (read_central_dir s) = inr 0
  /\ entries (file (fst (read_central_dir s))) = entries (file s)
  /\ entry_iters (trace (fst (read_central_dir s))) = entry_iters (trace s)
  /\ centralDirOffest (file (fst (read_central_dir s)))
     = le32 mem (e + 0x10)
  /\ centralDirSize (file (fst (read_central_dir s))) = le32 mem (e + 0x0c).
Proof.
  intros mem size Hloc Hlen Hfit Hd Hdc Hcount Htotal.
  assert (Hloc' : snd (locate_eocd s) = inr e).
  { unfold outcome in Hloc. destruct (snd (locate_eocd s)); congruence. }
  assert (Hloop : loop_entered (file s) e = true).
  { apply loop_entered_intro; try assumption. fold mem. congruence. }
  destruct (read_central_dir_loop s e Hloc' Hloop) as (Hr & Hf & Hi).
  fold mem size in Hr, Hf, Hi. rewrite Htotal in Hr, Hf, Hi.
  cbn [Z.to_nat decode_entries decode_prefix rev app length] in Hr, Hf, Hi.
  split; [exact Hr|]. rewrite Hf.
  split; [reflexivity|]. split; [lia|].
  unfold eocd_done.
  destruct (commentLen (eocd_fields (file s) e) >? 0); split; reflexivity.
Qed.

Lemma empty_archive_accepted_witness :
  let s := mkState (init_file (mem_of empty_far_directory) 22) [] in
  snd (read_central_dir s) = inr 0
  /\ entries (file (fst (read_central_dir s))) = []
  /\ entry_iters (trace (fst (read_central_dir s))) = O
  /\ centralDirOffest (file (fst (read_central_dir s)))
     = le32 (mem_of empty_far_directory) (0 + 0x10)
  /\ centralDirSize (file (fst (read_central_dir s)))
     = le32 (mem_of empty_far_directory) (0 + 0x0c).
Proof.
  apply (empty_archive_accepted
           (mkState (init_file (mem_of empty_far_directory) 22) []) 0);
    vm_compute; congruence.
Defined.

(** X12.  A central directory that leaves fewer than 46 bytes to the end of
    the buffer, or starts behind it, is rejected at the first record: when
    the located end record decodes, passes the archive-level test and
    declares at least one entry, and the buffer has fewer than 46 bytes from
    the central directory offset on, the parse fails with [Truncated] in
    the first iteration of the entry loop and the collection is left as it
    was. *)
Theorem directory_past_end_truncated (s : state) (e : Z) :
  let mem := buf (file s) in
  let size := bufsize (file s) in
  outcome (locate_eocd s) = inr e ->
  22 <= size - e ->
  comment_overflows (file s) e (size - e) = false ->
  le16 mem (e + 0x04) = 0 ->
  le16 mem (e + 0x06) = 0 ->
  le16 mem (e + 0x08) = le16 mem (e + 0x0a) ->
  0 < le16 mem (e + 0x0a) ->
  size - le32 mem (e + 0x10) < 46 ->
  snd (read_central_dir s) = inl (mkFailure (-1) Truncated)
  /\ entries (file (fst (read_central_dir s))) = entries (file s)
  /\ entry_iters (trace (fst (read_central_dir s)))
     = S (entry_iters (trace s)).
Proof.
  intros mem size Hloc Hlen Hfit Hd Hdc Hcount Htotal Hcd.
  assert (Hloc' : snd (locate_eocd s) = inr e).
  { unfold outcome in Hloc. destruct (snd (locate_eocd s)); congruence. }
  assert (Hloop : loop_entered (file s) e = true)
    by (apply loop_entered_intro; assumption).
  destruct (read_central_dir_loop s e Hloc' Hloop) as (Hr & Hf & Hi).
  fold mem size in Hr, Hf, Hi.
  destruct (Z.to_nat (le16 mem (e + 0x0a))) as [|n] eqn:En; [lia|].
  cbn [decode_entries decode_prefix] in Hr, Hf, Hi.
  assert (Hdec : decode_entry mem size (le32 mem (e + 0x10))
                   (size - le32 mem (e + 0x10)) = inl Truncated).
  { unfold decode_entry, ENTRY_LEN.
    replace (size - le32 mem (e + 16) <? 46) with true by lia. reflexivity. }
  rewrite Hdec in Hr, Hf, Hi. cbn [rev app length] in Hf, Hi.
  split; [exact Hr|]. rewrite Hf. split; [reflexivity|lia].
Qed.

Lemma directory_past_end_truncated_witness :
  let s := mkState (init_file (mem_of directory_at_end) 52) [] in
  snd (read_central_dir s) = inl (mkFailure (-1) Truncated)
  /\ entries (file (fst (read_central_dir s))) = []
  /\ entry_iters (trace (fst (read_central_dir s))) = 1%nat.
Proof.
  apply (directory_past_end_truncated
           (mkState (init_file (mem_of directory_at_end) 52) []) 30);
    vm_compute; congruence.
Defined.

(** ** Parsing twice *)

(** The locator looks at the buffer and its size only. *)
Lemma locate_eocd_transfer (s s' : state) (e : Z) :
  buf (file s') = buf (file s) ->
  bufsize (file s') = bufsize (file s) ->
  snd (locate_eocd s) = inr e ->
  snd (locate_eocd s') = inr e.
Proof.
  intros Hb Hsz Hloc.
  destruct (locate_eocd_spec s) as [_ [Hsmall Hbig]].
  destruct (Z.lt_ge_cases (bufsize (file s)) 22) as [Hlt | Hge].
  - rewrite (Hsmall Hlt) in Hloc. discriminate.
  - destruct (Hbig Hge) as [[e' [He' [Hr [Hsig Hafter]]]] | [Hr _]].
    + rewrite He' in Hloc. injection Hloc as <-.
      apply locate_eocd_found; rewrite ?Hb, ?Hsz; assumption.
    + rewrite Hr in Hloc. discriminate.
Qed.

Lemma loop_entered_transfer (f f' : Zipfile) (e : Z) :
  buf f' = buf f -> bufsize f' = bufsize f ->
  loop_entered f' e = loop_entered f e.
Proof.
  intros Hb Hsz.
  unfold loop_entered, comment_overflows, spanning, eocd_done.
  change (commentLen (eocd_fields f' e)) with (le16 (buf f') (e + 0x14)).
  change (commentLen (eocd_fields f e)) with (le16 (buf f) (e + 0x14)).
  rewrite Hb, Hsz.
  destruct (le16 (buf f) (e + 20) >? 0);
    cbn [disknum diskWithCentralDir entryCount totalEntryCount with_comment
         eocd_fields]; rewrite Hb; reflexivity.
Qed.

(** X13.  [read_central_dir] does not clear the collection it is given.
    Run a second time on the descriptor a successful parse has left, it
    succeeds again and links the same descriptors once more in front of the
    collection: every entry is then listed twice. *)
Theorem second_parse_duplicates (s : state) (v : Z) :
  outcome (read_central_dir s) = inr v ->
  let s1 := fst (read_central_dir s) in
  let s2 := fst (read_central_dir s1) in
  exists es,
    entries (file s1) = es ++ entries (file s)
    /\ Z.of_nat (length es) = totalEntryCount (file s1)
    /\ snd (read_central_dir s1) = inr 0
    /\ entries (file s2) = es ++ es ++ entries (file s).
Proof.
  intros Hok s1 s2.
  destruct (read_central_dir_success s v Hok)
    as (_ & e & cs & Hloc & Hloop & Hcs & _ & Hf).
  destruct (read_central_dir_loop s e Hloc Hloop) as (Hr & Hf' & _).
  destruct (eocd_done_same (file s) e) as (Hb & Hsz & _ & Hn & Hc).
  assert (Hb1 : buf (file s1) = buf (file s))
    by (unfold s1; rewrite Hf; exact Hb).
  assert (Hsz1 : bufsize (file s1) = bufsize (file s))
    by (unfold s1; rewrite Hf; exact Hsz).
  assert (Hloc1 : snd (locate_eocd s1) = inr e)
    by (apply (locate_eocd_transfer s s1 e Hb1 Hsz1 Hloc)).
  assert (Hloop1 : loop_entered (file s1) e = true)
    by (rewrite (loop_entered_transfer (file s) (file s1) e Hb1 Hsz1);
        exact Hloop).
  destruct (read_central_dir_loop s1 e Hloc1 Hloop1) as (Hr1 & Hf1 & _).
  rewrite Hb1, Hsz1 in Hr1, Hf1.
  set (mem := buf (file s)) in *. set (size := bufsize (file s)) in *.
  set (n := Z.to_nat (le16 mem (e + 0x0a))) in *.
  set (c := le32 mem (e + 0x10)) in *.
  unfold outcome in Hok. rewrite Hr in Hok.
  pose proof (decode_entries_prefix mem size n c (size - c)) as Hpre.
  destruct (decode_entries mem size n c (size - c)) as [k | xs];
    [discriminate|].
  destruct Hpre as [Hpre Hlen].
  exists (rev xs).
  assert (Hes1 : entries (file s1) = rev xs ++ entries (file s)).
  { unfold s1. rewrite Hf', Hpre. reflexivity. }
  split; [exact Hes1|]. split.
  { rewrite length_rev, Hlen. unfold s1. rewrite Hf'.
    cbn [totalEntryCount with_entries]. rewrite Hn. fold mem.
    pose proof (le16_range mem (e + 0x0a)). unfold n. lia. }
  split; [exact Hr1|].
  unfold s2. rewrite Hf1, Hpre. cbn [entries with_entries].
  rewrite Hes1. reflexivity.
Qed.

Lemma second_parse_duplicates_witness :
  let s1 := fst (parse (mem_of two_entries) 206) in
  let s2 := fst (read_central_dir s1) in
  exists es,
    entries (file s1) = es ++ []
    /\ Z.of_nat (length es) = totalEntryCount (file s1)
    /\ snd (read_central_dir s1) = inr 0
    /\ entries (file s2) = es ++ es ++ [].
Proof.
  apply (second_parse_duplicates
           (mkState (init_file (mem_of two_entries) 206) []) 0).
  vm_compute. reflexivity.
Defined.

(** ** Loads inside the buffer *)

Lemma eocd_scan_loads_count (fuel : nat) :
  forall (p start : Z) (s : state),
    (length (loads (trace (fst (eocd_scan fuel p start s))))
     <= length (loads (trace s)) + 5 * fuel)%nat.
Proof.
  induction fuel as [|fuel IH]; intros p start s; cbn [eocd_scan].
  - cbn [ret fst]. lia.
  - destruct (p >=? start); [|cbn [ret fst]; lia].
    rewrite !run_bind, run_emit, !run_bind, run_load.
    destruct (_ =? 0x50).
    + rewrite !run_bind, !run_read_le_int.
      destruct (_ =? CD_SIGNATURE).
      * trace_simpl. cbn [loads length]. lia.
      * match goal with
        | |- context [eocd_scan fuel ?q start ?st] =>
            pose proof (IH q start st) as H
        end.
        rewrite !trace_logged in H. cbn [app loads length] in H. lia.
    + match goal with
      | |- context [eocd_scan fuel ?q start ?st] =>
          pose proof (IH q start st) as H
      end.
      rewrite !trace_logged in H. cbn [app loads length] in H. lia.
Qed.

(** X14.  The locator never loads a byte outside the tail window, the last
    65557 bytes of the buffer, and loads at most five bytes at each of the
    at most 65554 positions it visits; it leaves the descriptor as it
    was. *)
Theorem locator_loads_tail_window (mem : Z -> byte) (size : Z) :
  let s := mkState (init_file mem size) [] in
  loads_within (window_start size) size (trace (fst (locate_eocd s)))
  /\ size - 65557 <= window_start size
  /\ Z.of_nat (length (loads (trace (fst (locate_eocd s))))) <= 5 * 65554
  /\ file (fst (locate_eocd s)) = init_file mem size.
Proof.
  intros s.
  destruct (locate_eocd_spec s) as [Hf _].
  split; [|split; [unfold window_start; lia|split; [|exact Hf]]].
  - unfold locate_eocd. rewrite run_bind. cbn [get_file s file bufsize
      init_file].
    rewrite window_start_code. unfold EOCD_LEN.
    destruct (size <? 22) eqn:Esize; [constructor|].
    apply Z.ltb_ge in Esize. rewrite run_bind.
    destruct (eocd_scan_trace
                (Z.to_nat (0 + size - 4 - window_start size + 1))
                (0 + size - 4) (window_start size)
                (mkState (init_file mem size) [])) as [_ [_ Hl]].
    specialize (Hl (window_start size) size ltac:(lia) ltac:(lia)).
    cbn [trace] in Hl. specialize (Hl ltac:(constructor)).
    destruct (eocd_scan _ _ _ _) as [s1 r1]. cbn [fst] in Hl.
    destruct r1 as [x | q]; [exact Hl|].
    destruct (q <? window_start size); exact Hl.
  - unfold locate_eocd. rewrite run_bind. cbn [get_file s file bufsize
      init_file].
    rewrite window_start_code. unfold EOCD_LEN.
    destruct (size <? 22) eqn:Esize; [cbn; lia|].
    apply Z.ltb_ge in Esize. rewrite run_bind.
    pose proof (eocd_scan_loads_count
                  (Z.to_nat (0 + size - 4 - window_start size + 1))
                  (0 + size - 4) (window_start size)
                  (mkState (init_file mem size) [])) as Hc.
    cbn [trace loads length] in Hc.
    assert (Hbound : Z.of_nat (Z.to_nat (0 + size - 4 - window_start size + 1))
                     <= 65554) by (unfold window_start; lia).
    destruct (eocd_scan _ _ _ _) as [s1 r1]. cbn [fst] in Hc.
    destruct r1 as [x | q]; [cbn [fst]; lia|].
    destruct (q <? window_start size); cbn [raise ret fst]; lia.
Qed.

(** The entry loop stays inside the buffer when no record it decodes points
    to a local header that starts in the last 29 bytes of the buffer. *)
Lemma read_entries_loads_inside (n : nat) :
  forall (i c len : Z) (s : state),
    let mem := buf (file s) in
    let size := bufsize (file s) in
    0 <= c -> len <= size - c ->
    Forall (fun a => size <= le32 mem (a + 0x2a)
                     \/ le32 mem (a + 0x2a) + 30 <= size)
      (cd_cursors mem n c) ->
    loads_within 0 size (trace s) ->
    loads_within 0 size (trace (fst (read_entries n i c len s))).
Proof.
  induction n as [|n IH]; intros i c len s mem size Hc Hlen Hall Ht;
    cbn [read_entries].
  - exact Ht.
  - cbn [cd_cursors] in Hall. inversion Hall as [|c0 cs Hhead Hrest]; subst.
    rewrite !run_bind, run_emit, run_bind, run_bail.
    destruct (read_central_directory_entry_run zero_entry c len
                (logged [EntryIter i c len] s)) as [Hf Ho].
    destruct (read_central_directory_entry_trace zero_entry c len
                (logged [EntryIter i c len] s)) as [_ [_ Tl]].
    rewrite file_logged in Hf, Ho, Tl. fold mem size in Ho, Tl.
    rewrite trace_logged in Tl.
    pose proof (le32_range mem (c + 0x2a)) as Hlocal.
    specialize (Tl 0 size ltac:(lia) ltac:(lia)
                  ltac:(apply loads_within_cons_iter; exact Ht)).
    unfold outcome in Ho.
    destruct (read_central_directory_entry zero_entry c len
                (logged [EntryIter i c len] s)) as [s1 r1].
    cbn [fst snd] in Hf, Ho, Tl.
    destruct r1 as [e1 | [[x c'] len']]; [exact Tl|].
    rewrite run_bind. cbn [get_file]. rewrite run_bind, run_put_file.
    rewrite Hf.
    symmetry in Ho. apply decode_entry_ok in Ho.
    destruct Ho as (H46 & _ & Hname & Hfit & _ & _ & _ & _ & _ & Hc' & Hl').
    subst c' len'.
    match goal with
    | |- context [read_entries n ?j ?a ?l ?st] =>
        set (s2 := st); pose proof (IH j a l s2) as IHl
    end.
    change (trace s2) with (trace s1) in IHl.
    change (buf (file s2)) with mem in IHl.
    change (bufsize (file s2)) with size in IHl.
    cbv zeta in IHl. apply IHl.
    + pose proof (le16_range mem (c + 0x1c)).
      pose proof (le16_range mem (c + 0x1e)).
      pose proof (le16_range mem (c + 0x20)).
      unfold cd_next, cd_namelen, cd_extralen, cd_commentlen, ENTRY_LEN.
      lia.
    + lia.
    + exact Hrest.
    + exact Tl.
Qed.

(** X15.  When a load outside the buffer can happen: only for a record
    whose local header starts in the last 29 bytes of the buffer.  If every
    record from the central directory offset on has a local header offset
    that is either not below the size of the buffer, so that it is rejected,
    or at least 30 below it, the whole parse loads inside the buffer
    only. *)
Theorem loads_inside_buffer (mem : Z -> byte) (size : Z) :
  (forall e,
     outcome (locate_eocd (mkState (init_file mem size) [])) = inr e ->
     Forall (fun a => size <= le32 mem (a + 0x2a)
                      \/ le32 mem (a + 0x2a) + 30 <= size)
       (cd_cursors mem (Z.to_nat (le16 mem (e + 0x0a)))
          (le32 mem (e + 0x10)))) ->
  loads_within 0 size (trace (fst (parse mem size))).
Proof.
  intros Hrecords. unfold parse.
  set (s := mkState (init_file mem size) []) in *.
  unfold read_central_dir. rewrite run_bind.
  destruct (locate_eocd_spec s) as [Hf [Hsmall Hbig]].
  destruct (locate_eocd_trace s) as [_ [_ Ll]].
  cbn [s file buf bufsize init_file] in Hsmall, Hbig, Ll.
  specialize (Ll size ltac:(lia) ltac:(constructor)).
  unfold outcome in Hrecords.
  destruct (locate_eocd s) as [s1 r1]. cbn [fst snd] in *.
  destruct r1 as [x | e]; [exact Ll|].
  specialize (Hrecords e eq_refl).
  assert (He : 0 <= e <= size - 4).
  { destruct (Z.lt_ge_cases size 22) as [Hlt | Hge].
    - specialize (Hsmall Hlt). discriminate.
    - destruct (Hbig Hge) as [[e' [He' [Hr _]]] | [Hno _]]; [|discriminate].
      injection He' as <-. unfold window_start in Hr. lia. }
  rewrite run_bind. cbn [get_file]. rewrite run_bind, run_bail.
  rewrite Z.add_0_l, Hf. change (bufsize (file s)) with size.
  destruct (read_central_dir_values_run e (size - e) s1) as [Hshort Hlong].
  destruct (read_central_dir_values_trace e (size - e) s1) as [_ [_ Vl]].
  specialize (Vl 0 size ltac:(lia) ltac:(lia) Ll).
  rewrite Hf in Hshort, Hlong.
  change (file s) with (init_file mem size) in Hshort, Hlong.
  unfold EOCD_LEN in *.
  destruct (read_central_dir_values e (size - e) s1) as [s2 r2].
  cbn [fst snd] in Hshort, Hlong, Vl.
  destruct r2 as [x | []]; [exact Vl|].
  destruct (Z.lt_ge_cases (size - e) 22) as [Hlt | Hge].
  { destruct (Hshort Hlt) as [_ H]. discriminate. }
  specialize (Hlong Hge).
  destruct ((commentLen (eocd_fields (init_file mem size) e) >? 0) && _).
  { destruct Hlong as [_ H]. discriminate. }
  destruct Hlong as [H1 _].
  change (file s2 = eocd_done (init_file mem size) e) in H1.
  rewrite run_bind. cbn [get_file]. rewrite H1.
  destruct (eocd_done_same (init_file mem size) e)
    as (Hb & Hsz & _ & Hn & Hoff).
  cbn [buf bufsize init_file] in Hb, Hsz, Hn, Hoff.
  destruct (_ || _); [exact Vl|].
  rewrite run_bind, !Z.add_0_l, Hsz, Hn, Hoff.
  pose proof (le32_range mem (e + 0x10)) as Hrange.
  pose proof (read_entries_loads_inside (Z.to_nat (le16 mem (e + 0x0a))) 0
                (le32 mem (e + 0x10)) (size - le32 mem (e + 0x10)) s2) as Rl.
  rewrite H1, Hb, Hsz in Rl.
  specialize (Rl ltac:(lia) ltac:(lia) Hrecords Vl).
  destruct (read_entries _ _ _ _ s2) as [s3 r3]. cbn [fst] in Rl.
  destruct r3; exact Rl.
Qed.

Lemma two_entries_local_headers (e : Z) :
  outcome (locate_eocd (mkState (init_file (mem_of two_entries) 206) []))
  = inr e ->
  Forall (fun a => 206 <= le32 (mem_of two_entries) (a + 0x2a)
                   \/ le32 (mem_of two_entries) (a + 0x2a) + 30 <= 206)
    (cd_cursors (mem_of two_entries)
       (Z.to_nat (le16 (mem_of two_entries) (e + 0x0a)))
       (le32 (mem_of two_entries) (e + 0x10))).
Proof.
  intros He. vm_compute in He. injection He as <-.
  replace (Z.to_nat (le16 (mem_of two_entries) (184 + 10))) with 2%nat
    by (vm_compute; reflexivity).
  replace (le32 (mem_of two_entries) (184 + 16)) with 82
    by (vm_compute; reflexivity).
  cbn [cd_cursors].
  replace (cd_next (mem_of two_entries) 82) with 133
    by (vm_compute; reflexivity).
  apply Forall_cons; [right; vm_compute; congruence|].
  apply Forall_cons; [right; vm_compute; congruence|].
  apply Forall_nil.
Defined.

Lemma loads_inside_buffer_witness :
  loads_within 0 206 (trace (fst (parse (mem_of two_entries) 206))).
Proof.
  apply (loads_inside_buffer (mem_of two_entries) 206).
  exact two_entries_local_headers.
Defined.
